(** * nRF5-multi-prog: a shallow embedding of [nrf5_multi_prog.py]

    The module programs several nRF5 devices, one debug probe each, from
    one hex file.  The embedding follows the Python source function by
    function.  The source is Python 2 ([xrange]): [/] between two ints
    is floor division, so [int(a / b)] is [a / b] on [Z].

    - Pure parts ([_byte_lists_equal], the page arithmetic of
      [_program_device], the family / page-size choice of [__init__]) are
      plain functions.
    - Code that talks to the probes is written once, as a program tree
      [prog] over the transport calls and over the shared dict
      [self.nRF5_instances]; the tree is then run either alone ([run]) or
      interleaved with its sibling workers under a schedule
      ([run_pool]), the way [ThreadPool.map] runs [perform_command]. *)

From Stdlib Require Import ZArith List Bool String Lia Sorted.
From stdpp Require Import base option list gmap strings.
Import ListNotations.
Local Open Scope Z_scope.

(** ** Exceptions and results *)

(** The Python exceptions the module can end with. [APIError] stands for
    whatever pynrfjprog raises inside a transport call. *)
Inductive exn : Type :=
| IndexError
| KeyError
| AssertionError
| ValueError
| SystemExit
| IOError
| APIError.

Inductive result (A : Type) : Type :=
| Ok (a : A)
| Raised (e : exn).
Arguments Ok {A} a.
Arguments Raised {A} e.

Definition is_ok {A} (r : result A) : bool :=
  match r with Ok _ => true | Raised _ => false end.

(** ** Python strings with object identity

    [__init__] compares the family with [is], which is object identity,
    not equality of contents.  A [pystr] is a string object: where it
    lives and what it holds. *)
Record pystr : Type := PyStr { str_id : nat; str_val : string }.

(** [a is b] *)
Definition py_is (a b : pystr) : bool := Nat.eqb (str_id a) (str_id b).

(** [a == b] *)
Definition py_eq (a b : pystr) : bool := String.eqb (str_val a) (str_val b).

(** The constant ['NRF51'] of the module: one interned object, shared by
    every occurrence of the literal. *)
Definition lit_NRF51 : pystr := PyStr 0 "NRF51".

(** ** Pure helpers of the source *)

(** Python's [range(lo, hi)] on ints: [lo, lo+1, ..., hi-1], empty when
    [hi <= lo]. *)
Definition range (lo hi : Z) : list Z :=
  map (fun i => lo + Z.of_nat i) (seq 0 (Z.to_nat (hi - lo))).

(** The pages erased for one segment, lines 118-120:
    [start_page = int(start_addr / PAGE_SIZE)],
    [end_page = int(end_addr / PAGE_SIZE)],
    [range(start_page, end_page + 1)]. *)
Definition segment_pages (PAGE_SIZE start_addr end_addr : Z) : list Z :=
  let start_page := start_addr / PAGE_SIZE in
  let end_page := end_addr / PAGE_SIZE in
  range start_page (end_page + 1).

(** The addresses handed to [erase_page], line 121: [page * PAGE_SIZE]
    for each page of the loop, in loop order. *)
Definition erase_plan (PAGE_SIZE start_addr end_addr : Z) : list Z :=
  map (fun page => page * PAGE_SIZE) (segment_pages PAGE_SIZE start_addr end_addr).

(** [l[i]] for [0 <= i]: the element, or [IndexError]. *)
Definition getitem (l : list Z) (i : nat) : result Z :=
  match l !! i with
  | Some x => Ok x
  | None => Raised IndexError
  end.

(** The loop of [_byte_lists_equal] over the remaining indices:
    [if data[i] != read_data[i]: return False], then [return True]. *)
Fixpoint byte_lists_equal_loop (data read_data : list Z) (idx : list nat) : result bool :=
  match idx with
  | [] => Ok true
  | i :: rest =>
      match getitem data i with
      | Raised e => Raised e
      | Ok d =>
          match getitem read_data i with
          | Raised e => Raised e
          | Ok r =>
              if negb (Z.eqb d r) then Ok false
              else byte_lists_equal_loop data read_data rest
          end
      end
  end.

(** [_byte_lists_equal(self, data, read_data)], lines 96-100:
    [for i in xrange(len(data))]. *)
Definition _byte_lists_equal (data read_data : list Z) : result bool :=
  byte_lists_equal_loop data read_data (seq 0 (length data)).

(** ** The probe transport (pynrfjprog's [MultiAPI]) *)

(** A [MultiAPI] object, by the order in which it was constructed. *)
Definition handle : Type := nat.

(** The [MultiAPI] methods the module calls, with their arguments. *)
Inductive method : Type :=
| open
| close
| enum_emu_snr
| connect_to_emu_with_snr (snr : Z)
| recover
| erase_uicr
| erase_page (addr : Z)
| write (addr : Z) (data : list Z) (control : bool)
| read (addr : Z) (len : nat)
| sys_reset
| disconnect_from_emu.

(** Who runs a statement: [main], or the pool worker that was handed the
    [i]-th element of [nRF.snrs]. *)
Inductive thread : Type :=
| MainThread
| Worker (i : nat).

(** What the outside world sees: a [MultiAPI] being constructed for a
    family, and a method being called on one. *)
Inductive event : Type :=
| EvNew (t : thread) (h : handle) (family : pystr)
| EvCall (t : thread) (h : handle) (m : method).
Arguments Worker i%_nat.
Arguments EvNew t h%_nat family.
Arguments EvCall t h%_nat m.

(** The transport is outside the repository: what a call answers (a list
    of ints for [read] and [enum_emu_snr], ignored for the others) or
    raises is left open, as a function of everything that happened so
    far. *)
Definition transport : Type := list event -> handle -> method -> result (list Z).

(** ** The hex file (intelhex's [IntelHex]) *)

Record IntelHex : Type := {
  segments : list (Z * Z);
  tobinarray : Z -> Z -> list Z
}.

(** ** Programs over the transport and the shared dict *)

(** A statement sequence of the source, as a tree: each node is one
    access to the outside ([MultiAPI.MultiAPI(family)], a method call) or
    to the dict [self.nRF5_instances] (store, lookup); what follows may
    depend on the answer.  Other threads may run between two nodes. *)
Inductive prog (A : Type) : Type :=
| Ret (a : A)
| Raise (e : exn)
| New (family : pystr) (k : handle -> prog A)
| SetItem (device : Z) (h : handle) (k : prog A)
| GetItem (device : Z) (k : handle -> prog A)
| Call (h : handle) (m : method) (k : list Z -> prog A).
Arguments Ret {A} a.
Arguments Raise {A} e.
Arguments New {A} family k.
Arguments SetItem {A} device h k.
Arguments GetItem {A} device k.
Arguments Call {A} h m k.

Fixpoint prog_bind {A B} (f : A -> prog B) (p : prog A) : prog B :=
  match p with
  | Ret a => f a
  | Raise e => Raise e
  | New family k => New family (fun h => prog_bind f (k h))
  | SetItem device h k => SetItem device h (prog_bind f k)
  | GetItem device k => GetItem device (fun h => prog_bind f (k h))
  | Call h m k => Call h m (fun v => prog_bind f (k v))
  end.

#[global] Instance prog_mret : MRet prog := @Ret.
#[global] Instance prog_mbind : MBind prog := @prog_bind.

(** [MultiAPI.MultiAPI(family)] *)
Definition MultiAPI (family : pystr) : prog handle := New family Ret.
(** [self.nRF5_instances[device] = h] *)
Definition nRF5_instances_set (device : Z) (h : handle) : prog unit :=
  SetItem device h (Ret tt).
(** [self.nRF5_instances[device]] *)
Definition nRF5_instances_get (device : Z) : prog handle := GetItem device Ret.
(** [h.m(...)] *)
Definition call (h : handle) (m : method) : prog (list Z) := Call h m Ret.

(** A pure step that may raise. *)
Definition lift {A} (r : result A) : prog A :=
  match r with Ok a => Ret a | Raised e => Raise e end.

(** [if c: body] *)
Definition when (c : bool) (body : prog unit) : prog unit :=
  if c then body else Ret tt.

(** [for x in l: body] *)
Fixpoint for_each {A} (l : list A) (body : A -> prog unit) : prog unit :=
  match l with
  | [] => Ret tt
  | x :: rest => body x ;; for_each rest body
  end.

(** [assert c] *)
Definition assert_ (c : bool) : prog unit :=
  if c then Ret tt else Raise AssertionError.

(** ** The module's classes *)

(** What [cli.run()] returns: the [argparse.Namespace] of the [program]
    subcommand.  [family] and [snrs] are [None] when not given. *)
Record Namespace : Type := {
  args_eraseall : bool;
  args_family : option pystr;
  args_file : string;
  args_sectorserase : bool;
  args_sectorsanduicrerase : bool;
  args_snrs : option (list Z);
  args_systemreset : bool;
  args_verify : bool
}.

(** The fields of an [nRF5MultiFlash] object that [__init__] sets once.
    The dict [self.nRF5_instances] is mutated by the workers and lives in
    the [world] below. *)
Record nRF5MultiFlash : Type := {
  erase_all : bool;
  family : pystr;
  file : string;
  sectors_erase : bool;
  sectors_and_uicr_erase : bool;
  snrs : list Z;
  systemreset : bool;
  verify : bool;
  PAGE_SIZE : Z;
  hex_file : IntelHex
}.

(** [not x] for [x] a str or [None]. *)
Definition not_str (x : option pystr) : bool :=
  match x with
  | None => true
  | Some s => String.eqb (str_val s) ""
  end.

(** [not x] for [x] a list or [None]. *)
Definition not_list (x : option (list Z)) : bool :=
  match x with
  | None | Some [] => true
  | Some (_ :: _) => false
  end.

(** Lines 80-81: [if not self.family: self.family = 'NRF51']. *)
Definition init_family (args : Namespace) : pystr :=
  if not_str (args_family args) then lit_NRF51
  else default lit_NRF51 (args_family args).

(** Lines 89-92: [if self.family is 'NRF51': 0x400 else: 0x1000]. *)
Definition init_PAGE_SIZE (family : pystr) : Z :=
  if py_is family lit_NRF51 then 0x400 else 0x1000.

(** Lines 83-87: [if not self.snrs:] enumerate through a scratch
    [MultiAPI('NRF51')]. *)
Definition init_snrs (args : Namespace) : prog (list Z) :=
  if not_list (args_snrs args) then
    tmp ← MultiAPI lit_NRF51;
    call tmp open ;;
    snrs ← call tmp enum_emu_snr;
    call tmp close ;;
    mret snrs
  else mret (default [] (args_snrs args)).

Section Init.

(** [IntelHex(path)]: reading the file is outside the repository. *)
Variable IntelHex_load : string -> result IntelHex.

(** [nRF5MultiFlash.__init__(self, args)], lines 69-94. *)
Definition __init__ (args : Namespace) : prog nRF5MultiFlash :=
  let family := init_family args in
  snrs ← init_snrs args;
  let PAGE_SIZE := init_PAGE_SIZE family in
  hex_file ← lift (IntelHex_load (args_file args));
  mret {| erase_all := args_eraseall args;
          family := family;
          file := args_file args;
          sectors_erase := args_sectorserase args;
          sectors_and_uicr_erase := args_sectorsanduicrerase args;
          snrs := snrs;
          systemreset := args_systemreset args;
          verify := args_verify args;
          PAGE_SIZE := PAGE_SIZE;
          hex_file := hex_file |}.

End Init.

(** [_connect_to_device(self, device)], lines 102-105. *)
Definition _connect_to_device (self : nRF5MultiFlash) (device : Z) : prog unit :=
  h ← MultiAPI (family self);
  nRF5_instances_set device h ;;
  h ← nRF5_instances_get device;
  call h open ;;
  h ← nRF5_instances_get device;
  call h (connect_to_emu_with_snr device) ;;
  mret tt.

(** The body of [for segment in self.hex_file.segments()], lines 114-131. *)
Definition program_segment (self : nRF5MultiFlash) (device : Z) (segment : Z * Z) : prog unit :=
  let '(start_addr, end_addr) := segment in
  let size := end_addr - start_addr in
  when (sectors_erase self || sectors_and_uicr_erase self)
    (for_each (segment_pages (PAGE_SIZE self) start_addr end_addr) (fun page =>
       h ← nRF5_instances_get device;
       call h (erase_page (page * PAGE_SIZE self)) ;;
       mret tt)) ;;
  let data := tobinarray (hex_file self) start_addr size in
  h ← nRF5_instances_get device;
  call h (write start_addr data true) ;;
  when (verify self)
    (h ← nRF5_instances_get device;
     read_data ← call h (read start_addr (length data));
     equal ← lift (_byte_lists_equal data read_data);
     assert_ equal) ;;
  when (systemreset self)
    (h ← nRF5_instances_get device;
     call h sys_reset ;;
     mret tt).

(** [_program_device(self, device)], lines 107-131. *)
Definition _program_device (self : nRF5MultiFlash) (device : Z) : prog unit :=
  when (erase_all self)
    (h ← nRF5_instances_get device;
     call h recover ;;
     mret tt) ;;
  when (sectors_and_uicr_erase self)
    (h ← nRF5_instances_get device;
     call h erase_uicr ;;
     mret tt) ;;
  for_each (segments (hex_file self)) (program_segment self device).

(** [_cleanup(self, device)], lines 133-135. *)
Definition _cleanup (self : nRF5MultiFlash) (device : Z) : prog unit :=
  h ← nRF5_instances_get device;
  call h disconnect_from_emu ;;
  h ← nRF5_instances_get device;
  call h close ;;
  mret tt.

(** [perform_command(self, device)], lines 139-142. *)
Definition perform_command (self : nRF5MultiFlash) (device : Z) : prog unit :=
  _connect_to_device self device ;;
  _program_device self device ;;
  _cleanup self device.

(** ** Running programs *)

(** The state the threads share: the [MultiAPI] objects constructed so
    far, the dict [self.nRF5_instances], and what happened on the
    transport, oldest first. *)
Record world : Type := World {
  next_handle : handle;
  nRF5_instances : gmap Z handle;
  trace : list event
}.
Arguments World next_handle%_nat nRF5_instances trace.

(** The start of [main]: nothing constructed, [self.nRF5_instances = {}]
    (line 70), nothing on the transport yet. *)
Definition initial_world : world := World 0%nat ∅ [].

Definition finished {A} (p : prog A) : bool :=
  match p with
  | Ret _ | Raise _ => true
  | _ => false
  end.

Section Semantics.

Variable api : transport.

(** One node of thread [t]'s program.  A lookup of a missing key raises
    [KeyError]; a transport call is recorded whether it raises or not. *)
Definition step {A} (t : thread) (p : prog A) (w : world) : prog A * world :=
  match p with
  | Ret _ | Raise _ => (p, w)
  | New family k =>
      let h := next_handle w in
      (k h, World (S h) (nRF5_instances w) (trace w ++ [EvNew t h family]))
  | SetItem device h k =>
      (k, World (next_handle w) (<[device := h]> (nRF5_instances w)) (trace w))
  | GetItem device k =>
      match nRF5_instances w !! device with
      | Some h => (k h, w)
      | None => (Raise KeyError, w)
      end
  | Call h m k =>
      let w' := World (next_handle w) (nRF5_instances w) (trace w ++ [EvCall t h m]) in
      match api (trace w) h m with
      | Ok v => (k v, w')
      | Raised e => (Raise e, w')
      end
  end.

(** A program run to its end by one thread, with no other thread in
    between: how [main] runs [__init__], and how a worker runs when it is
    alone. *)
Fixpoint run {A} (t : thread) (p : prog A) (w : world) : result A * world :=
  match p with
  | Ret a => (Ok a, w)
  | Raise e => (Raised e, w)
  | New family k =>
      let h := next_handle w in
      run t (k h) (World (S h) (nRF5_instances w) (trace w ++ [EvNew t h family]))
  | SetItem device h k =>
      run t k (World (next_handle w) (<[device := h]> (nRF5_instances w)) (trace w))
  | GetItem device k =>
      match nRF5_instances w !! device with
      | Some h => run t (k h) w
      | None => (Raised KeyError, w)
      end
  | Call h m k =>
      let w' := World (next_handle w) (nRF5_instances w) (trace w ++ [EvCall t h m]) in
      match api (trace w) h m with
      | Ok v => run t (k v) w'
      | Raised e => (Raised e, w')
      end
  end.

(** *** The thread pool

    [pool.map(nRF.perform_command, nRF.snrs)] with as many threads as
    items hands each item to a thread of its own; the threads interleave
    node by node.  [workers] holds what each worker still has to run,
    [failure] the first exception a worker ended with. *)
Record pool : Type := Pool {
  workers : list (prog unit);
  failure : option exn
}.

(** The exception a worker has just ended with. *)
Definition raised_by (before after : prog unit) : option exn :=
  match after with
  | Raise e => if finished before then None else Some e
  | _ => None
  end.

(** Worker [i] runs one node. *)
Definition pool_step (i : nat) (ps : pool) (w : world) : pool * world :=
  match workers ps !! i with
  | None => (ps, w)
  | Some p =>
      let '(p', w') := step (Worker i) p w in
      (Pool (<[i := p']> (workers ps))
            (match failure ps with
             | Some e => Some e
             | None => raised_by p p'
             end),
       w')
  end.

(** The workers interleaved as the schedule says: its [k]-th entry names
    the worker that runs the [k]-th node. *)
Fixpoint run_pool (schedule : list nat) (ps : pool) (w : world) : pool * world :=
  match schedule with
  | [] => (ps, w)
  | i :: rest => let '(ps', w') := pool_step i ps w in run_pool rest ps' w'
  end.

(** What [pool.map] hands back to [main]: the first exception of a
    worker, re-raised; else, once every worker has returned, the list of
    their return values ([None] each); [None] while it still blocks. *)
Definition map_result (ps : pool) : option (result (list unit)) :=
  match failure ps with
  | Some e => Some (Raised e)
  | None =>
      if forallb finished (workers ps)
      then Some (Ok (map (fun _ => tt) (workers ps)))
      else None
  end.

(** [ThreadPool(processes)]: the pool refuses fewer than one thread. *)
Definition ThreadPool (processes : nat) : result nat :=
  if (processes <? 1)%nat then Raised ValueError else Ok processes.

(** The pool as [pool.map] starts it: one [perform_command] per entry of
    [nRF.snrs], none failed yet. *)
Definition initial_pool (nRF : nRF5MultiFlash) : pool :=
  Pool (map (perform_command nRF) (snrs nRF)) None.

(** [pool.map(nRF.perform_command, nRF.snrs)], line 151. *)
Definition pool_map (nRF : nRF5MultiFlash) (schedule : list nat) (w : world)
  : option (result (list unit)) * world :=
  let '(ps, w') := run_pool schedule (initial_pool nRF) w in
  (map_result ps, w').

End Semantics.

(** ** The command line *)

(** An option of the [program] subcommand as it occurs on the command
    line, with its values. *)
Inductive cli_arg : Type :=
| opt_eraseall
| opt_family (value : pystr)
| opt_file (value : string)
| opt_sectorserase
| opt_sectorsanduicrerase
| opt_snrs (values : list Z)
| opt_systemreset
| opt_verify.

(** The three options of [_add_erase_before_flash_group], lines 31-35,
    numbered; [None] for an option outside the group. *)
Definition erase_before_flash_group (a : cli_arg) : option nat :=
  match a with
  | opt_eraseall => Some 0%nat
  | opt_sectorserase => Some 1%nat
  | opt_sectorsanduicrerase => Some 2%nat
  | _ => None
  end.

(** argparse refuses an option of a mutually exclusive group once another
    option of that group has been seen. *)
Definition conflicts (seen : list cli_arg) (a : cli_arg) : bool :=
  match erase_before_flash_group a with
  | None => false
  | Some g =>
      existsb (fun b => match erase_before_flash_group b with
                        | Some g' => negb (Nat.eqb g g')
                        | None => false
                        end) seen
  end.

(** [choices=['NRF51', 'NRF52']], line 47: membership is by [==]. *)
Definition family_choice (value : pystr) : bool :=
  String.eqb (str_val value) "NRF51" || String.eqb (str_val value) "NRF52".

(** The namespace while the options are read, and whether the required
    [--file] has occurred. *)
Record partial_namespace : Type := {
  ns : Namespace;
  file_seen : bool
}.

(** Before any option is read: the [store_true] flags are [False], the
    others [None]. *)
Definition empty_namespace : partial_namespace :=
  {| ns := {| args_eraseall := false; args_family := None; args_file := "";
              args_sectorserase := false; args_sectorsanduicrerase := false;
              args_snrs := None; args_systemreset := false; args_verify := false |};
     file_seen := false |}.

(** The option's action on the namespace: [store_true] for the flags,
    [store] for the others (the last occurrence wins). *)
Definition store (a : cli_arg) (p : partial_namespace) : partial_namespace :=
  let '(Build_Namespace eraseall family file sectorserase sectorsanduicrerase
          snrs systemreset verify) := ns p in
  let seen := file_seen p in
  match a with
  | opt_eraseall =>
      {| ns := Build_Namespace true family file sectorserase sectorsanduicrerase
                 snrs systemreset verify;
         file_seen := seen |}
  | opt_family value =>
      {| ns := Build_Namespace eraseall (Some value) file sectorserase sectorsanduicrerase
                 snrs systemreset verify;
         file_seen := seen |}
  | opt_file value =>
      {| ns := Build_Namespace eraseall family value sectorserase sectorsanduicrerase
                 snrs systemreset verify;
         file_seen := true |}
  | opt_sectorserase =>
      {| ns := Build_Namespace eraseall family file true sectorsanduicrerase
                 snrs systemreset verify;
         file_seen := seen |}
  | opt_sectorsanduicrerase =>
      {| ns := Build_Namespace eraseall family file sectorserase true
                 snrs systemreset verify;
         file_seen := seen |}
  | opt_snrs values =>
      {| ns := Build_Namespace eraseall family file sectorserase sectorsanduicrerase
                 (Some values) systemreset verify;
         file_seen := seen |}
  | opt_systemreset =>
      {| ns := Build_Namespace eraseall family file sectorserase sectorsanduicrerase
                 snrs true verify;
         file_seen := seen |}
  | opt_verify =>
      {| ns := Build_Namespace eraseall family file sectorserase sectorsanduicrerase
                 snrs systemreset true;
         file_seen := seen |}
  end.

(** An option's own checks: [choices] for [--family], at least one value
    for [--snrs] ([nargs='+']). *)
Definition well_formed (a : cli_arg) : bool :=
  match a with
  | opt_family value => family_choice value
  | opt_snrs values => negb (Nat.eqb (length values) 0)
  | _ => true
  end.

(** The options read left to right; any error ends the process
    ([parser.error] calls [sys.exit(2)]). *)
Fixpoint parse_options (argv seen : list cli_arg) (p : partial_namespace)
  : result partial_namespace :=
  match argv with
  | [] => Ok p
  | a :: rest =>
      if conflicts seen a then Raised SystemExit
      else if negb (well_formed a) then Raised SystemExit
      else parse_options rest (a :: seen) (store a p)
  end.

(** [CLI.run(self)], lines 14-15: [parse_args] on the options of the
    [program] subcommand; [--file] is required. *)
Definition CLI_run (argv : list cli_arg) : result Namespace :=
  match parse_options argv [] empty_namespace with
  | Raised e => Raised e
  | Ok p => if file_seen p then Ok (ns p) else Raised SystemExit
  end.

(** ** [main] *)

Section Main.

Variable api : transport.
Variable IntelHex_load : string -> result IntelHex.

(** [main()], lines 144-151.  The result is [None] while [pool.map] has
    not returned under the given schedule. *)
Definition main (argv : list cli_arg) (schedule : list nat) (w : world)
  : option (result unit) * world :=
  match CLI_run argv with
  | Raised e => (Some (Raised e), w)
  | Ok args =>
      match run api MainThread (__init__ IntelHex_load args) w with
      | (Raised e, w1) => (Some (Raised e), w1)
      | (Ok nRF, w1) =>
          match ThreadPool (length (snrs nRF)) with
          | Raised e => (Some (Raised e), w1)
          | Ok _ =>
              match pool_map api nRF schedule w1 with
              | (Some (Ok _), w2) => (Some (Ok tt), w2)
              | (Some (Raised e), w2) => (Some (Raised e), w2)
              | (None, w2) => (None, w2)
              end
          end
      end
  end.

End Main.

(** ** Vocabulary of the properties *)

Definition event_thread (e : event) : thread :=
  match e with EvNew t _ _ | EvCall t _ _ => t end.

Definition is_worker (t : thread) : bool :=
  match t with Worker _ => true | MainThread => false end.

(** The two calls of [_cleanup]. *)
Definition is_cleanup (e : event) : bool :=
  match e with
  | EvCall _ _ disconnect_from_emu | EvCall _ _ close => true
  | _ => false
  end.

Definition is_sys_reset (e : event) : bool :=
  match e with
  | EvCall _ _ sys_reset => true
  | _ => false
  end.

(** The addresses of the [erase_page] calls, in order. *)
Definition erased_pages (tr : list event) : list Z :=
  omap (fun e => match e with
                 | EvCall _ _ (erase_page addr) => Some addr
                 | _ => None
                 end) tr.

(** How many events of the trace satisfy [P]. *)
Definition count_events (P : event → bool) (tr : list event) : nat :=
  length (filter (fun e => P e = true) tr).

(** Thread [t] constructed the [MultiAPI] object [h]. *)
Definition created_by (tr : list event) (t : thread) (h : handle) : Prop :=
  ∃ family, EvNew t h family ∈ tr.

(** Two workers called methods of one and the same [MultiAPI] object. *)
Definition handle_shared (tr : list event) : Prop :=
  ∃ i j h m m', i ≠ j ∧ EvCall (Worker i) h m ∈ tr ∧ EvCall (Worker j) h m' ∈ tr.

(** Every transport call the program can make, whatever it is answered,
    is one of [P]. *)
Fixpoint calls_only (P : method → Prop) {A} (p : prog A) : Prop :=
  match p with
  | Ret _ | Raise _ => True
  | New _ k => ∀ h, calls_only P (k h)
  | SetItem _ _ k => calls_only P k
  | GetItem _ k => ∀ h, calls_only P (k h)
  | Call _ m k => P m ∧ ∀ v, calls_only P (k v)
  end.

(** An event whose call, if it is one, is one of [P]. *)
Definition event_calls (P : method → Prop) (e : event) : Prop :=
  match e with
  | EvCall _ _ m => P m
  | EvNew _ _ _ => True
  end.

(** Methods other than the two of [_cleanup]; other than [sys_reset];
    other than [erase_page]. *)
Definition not_cleanup (m : method) : Prop := m ≠ disconnect_from_emu ∧ m ≠ close.
Definition not_reset (m : method) : Prop := m ≠ sys_reset.
Definition not_erase_page (m : method) : Prop := ∀ addr, m ≠ erase_page addr.

(** The program touches the dict only at key [device], and stores and
    calls only objects of [own] or objects it constructs itself, provided
    the dict answers its lookups with objects of [own]. *)
Fixpoint confined (device : Z) {A} (p : prog A) (own : handle → Prop) : Prop :=
  match p with
  | Ret _ | Raise _ => True
  | New _ k => ∀ h, confined device (k h) (fun x => own x ∨ x = h)
  | SetItem d h k => d = device ∧ own h ∧ confined device k own
  | GetItem d k => d = device ∧ ∀ h, own h → confined device (k h) own
  | Call h _ k => own h ∧ ∀ v, confined device (k v) own
  end.

Definition event_handle (e : event) : handle :=
  match e with EvNew _ h _ | EvCall _ h _ => h end.

(** A world in which no worker has run yet: the dict is empty, only
    [main] has used the transport, on objects that exist. *)
Definition fresh_world (w : world) : Prop :=
  nRF5_instances w = ∅ ∧
  Forall (fun e => event_thread e = MainThread ∧ (event_handle e < next_handle w)%nat)
         (trace w).

(** What holds of the world at every moment when the targets are
    pairwise distinct: objects have one creator; worker [i] has called,
    and stored under its key, only objects it constructed. *)
Record world_inv (targets : list Z) (w : world) : Prop := {
  inv_allocated : ∀ t h family, EvNew t h family ∈ trace w → (h < next_handle w)%nat;
  inv_creator : ∀ t t' h, created_by (trace w) t h → created_by (trace w) t' h → t = t';
  inv_dict : ∀ i device h,
      targets !! i = Some device → nRF5_instances w !! device = Some h →
      created_by (trace w) (Worker i) h;
  inv_calls : ∀ i h m, EvCall (Worker i) h m ∈ trace w → created_by (trace w) (Worker i) h
}.

(** And of the pool: what worker [i] still has to run keeps to the key
    of its target and to the objects it constructed. *)
Record pool_inv (targets : list Z) (ps : pool) (w : world) : Prop := {
  inv_length : length (workers ps) = length targets;
  inv_world : world_inv targets w;
  inv_confined : ∀ i device p,
      targets !! i = Some device → workers ps !! i = Some p →
      confined device p (created_by (trace w) (Worker i))
}.

(** The command line names two different options of the erase group. *)
Definition conflicting_erase_flags (argv : list cli_arg) : Prop :=
  ∃ a b ga gb, a ∈ argv ∧ b ∈ argv ∧
    erase_before_flash_group a = Some ga ∧ erase_before_flash_group b = Some gb ∧
    ga ≠ gb.

(** The value an option carries, if it is that option. *)
Definition family_of (a : cli_arg) : option pystr :=
  match a with opt_family value => Some value | _ => None end.
Definition file_of (a : cli_arg) : option string :=
  match a with opt_file value => Some value | _ => None end.
Definition snrs_of (a : cli_arg) : option (list Z) :=
  match a with opt_snrs values => Some values | _ => None end.

(** No two options of the list belong to the erase group and differ. *)
Definition one_erase_option (argv : list cli_arg) : Prop :=
  ∀ a b ga gb, a ∈ argv → b ∈ argv →
    erase_before_flash_group a = Some ga → erase_before_flash_group b = Some gb →
    ga = gb.

(** The namespace's flag of the group's [g]-th option. *)
Definition erase_flag (g : nat) (n : Namespace) : bool :=
  match g with
  | 0%nat => args_eraseall n
  | 1%nat => args_sectorserase n
  | _ => args_sectorsanduicrerase n
  end.

(** How many of the three erase-mode flags are set. *)
Definition erase_flags_set (n : Namespace) : nat :=
  (Nat.b2n (args_eraseall n) + Nat.b2n (args_sectorserase n)
   + Nat.b2n (args_sectorsanduicrerase n))%nat.

(** The bookkeeping of the first exception: [failure] holds an exception
    that some worker ended with, and holds one as soon as a worker has
    ended with an exception. *)
Definition failure_sound (ps : pool) : Prop :=
  (∀ e, failure ps = Some e → ∃ i, workers ps !! i = Some (Raise e)) ∧
  (∀ i e, workers ps !! i = Some (Raise e) → is_Some (failure ps)).

(** The three erasing methods. *)
Definition is_erase (m : method) : bool :=
  match m with
  | recover | erase_uicr | erase_page _ => true
  | _ => false
  end.

(** The methods a worker has any use for: all but [enum_emu_snr]. *)
Definition is_worker_method (m : method) : bool :=
  match m with
  | enum_emu_snr => false
  | _ => true
  end.

(** *** The calls of a worker, in order

    What a worker calls when every call succeeds and every verify
    passes, read off the statements of [_program_device] in order. *)

(** One pass of the segment loop, lines 114-131. *)
Definition segment_script (self : nRF5MultiFlash) (segment : Z * Z) : list method :=
  let '(start_addr, end_addr) := segment in
  let data := tobinarray (hex_file self) start_addr (end_addr - start_addr) in
  (if sectors_erase self || sectors_and_uicr_erase self
   then map erase_page (erase_plan (PAGE_SIZE self) start_addr end_addr)
   else []) ++
  [write start_addr data true] ++
  (if verify self then [read start_addr (length data)] else []) ++
  (if systemreset self then [sys_reset] else []).

(** [_program_device], lines 107-131. *)
Definition program_script (self : nRF5MultiFlash) : list method :=
  (if erase_all self then [recover] else []) ++
  (if sectors_and_uicr_erase self then [erase_uicr] else []) ++
  concat (map (segment_script self) (segments (hex_file self))).

(** [perform_command] after the [MultiAPI] object is stored. *)
Definition worker_script (self : nRF5MultiFlash) (device : Z) : list method :=
  [open; connect_to_emu_with_snr device] ++ program_script self ++
  [disconnect_from_emu; close].

(** Run alone in a world whose dict holds [h] for [device], the program
    leaves the dict and the object counter alone and calls, on [h], a
    prefix of [script]: all of it if it returns. *)
Definition follows (api : transport) (t : thread) (device : Z) {A}
    (p : prog A) (script : list method) : Prop :=
  ∀ w h, nRF5_instances w !! device = Some h →
    next_handle (run api t p w).2 = next_handle w ∧
    nRF5_instances (run api t p w).2 = nRF5_instances w ∧
    ∃ called, trace (run api t p w).2 = trace w ++ map (EvCall t h) called ∧
              called `prefix_of` script ∧
              (is_ok (run api t p w).1 = true → called = script).

(** The calls [p] can still make are, in order and whatever it is
    answered, those of [script]: each call is the next one of [script],
    and [p] returns only with [script] used up. *)
Fixpoint scripted {A} (p : prog A) (script : list method) : Prop :=
  match p with
  | Ret _ => script = []
  | Raise _ => True
  | New _ k => ∀ h, scripted (k h) script
  | SetItem _ _ k => scripted k script
  | GetItem _ k => ∀ h, scripted (k h) script
  | Call _ m k => ∃ rest, script = m :: rest ∧ ∀ v, scripted (k v) rest
  end.

(** The method of an event, if it is a call by thread [t]. *)
Definition called_by (t : thread) (e : event) : option method :=
  match e, t with
  | EvCall MainThread _ m, MainThread => Some m
  | EvCall (Worker j) _ m, Worker i => if Nat.eqb i j then Some m else None
  | _, _ => None
  end.

(** The methods thread [t] called, in order. *)
Definition methods_of (t : thread) (evs : list event) : list method :=
  omap (called_by t) evs.

(** In the pool, after the events [evs]: what each worker has called so
    far, followed by what it can still call, is its script. *)
Definition pool_scripted (nRF : nRF5MultiFlash) (ps : pool) (evs : list event) : Prop :=
  ∀ i device p,
    snrs nRF !! i = Some device → workers ps !! i = Some p →
    ∃ rest, scripted p rest ∧
            methods_of (Worker i) evs ++ rest = worker_script nRF device.

(** *** How long a worker runs, and what it can end with *)

(** [p] ends within [n] nodes, whatever it is answered. *)
Fixpoint ends_within {A} (p : prog A) (n : nat) : Prop :=
  match p with
  | Ret _ | Raise _ => True
  | New _ k => match n with O => False | S n' => ∀ h, ends_within (k h) n' end
  | SetItem _ _ k => match n with O => False | S n' => ends_within k n' end
  | GetItem _ k => match n with O => False | S n' => ∀ h, ends_within (k h) n' end
  | Call _ _ k => match n with O => False | S n' => ∀ v, ends_within (k v) n' end
  end.

(** How many nodes the schedule lets worker [i] run. *)
Definition turns_of (i : nat) (schedule : list nat) : nat :=
  count_occ Nat.eq_dec schedule i.

(** The answer [read_data] to the call [m] makes verify fail with [e]:
    [m] is the read-back of a segment of the image, and comparing the
    segment's data with the answer raises [e], or says no, and then the
    [assert] raises. *)
Definition verify_rejects (self : nRF5MultiFlash) (m : method) (read_data : list Z)
    (e : exn) : Prop :=
  verify self = true ∧
  ∃ start_addr end_addr,
    (start_addr, end_addr) ∈ segments (hex_file self) ∧
    let data := tobinarray (hex_file self) start_addr (end_addr - start_addr) in
    m = read start_addr (length data) ∧
    (_byte_lists_equal data read_data = Raised e ∨
     (_byte_lists_equal data read_data = Ok false ∧ e = AssertionError)).

(** Among the events [evs] that followed [tr0], a call of worker [i]
    that the transport answered by raising [e]. *)
Definition transport_raised (api : transport) (i : nat) (tr0 evs : list event)
    (e : exn) : Prop :=
  ∃ before h m after,
    evs = before ++ EvCall (Worker i) h m :: after ∧
    api (tr0 ++ before) h m = Raised e.

(** Among the events [evs] that followed [tr0], a call of worker [i]
    whose answer the code turns into [e], as [reject] says. *)
Definition answer_rejected (api : transport) (reject : method → list Z → exn → Prop)
    (i : nat) (tr0 evs : list event) (e : exn) : Prop :=
  ∃ before h m v after,
    evs = before ++ EvCall (Worker i) h m :: after ∧
    api (tr0 ++ before) h m = Ok v ∧ reject m v e.

(** The exceptions [p] can end with of its own, when its lookups of the
    dict succeed: those of [P], and after a call what [reject] says of
    its answer.  [p] looks up the key [device] only, and only once it is
    stored ([present]); what a transport call raises is not counted. *)
Fixpoint raises_only (device : Z) (reject : method → list Z → exn → Prop)
    (P : exn → Prop) (present : bool) {A} (p : prog A) : Prop :=
  match p with
  | Ret _ => True
  | Raise e => P e
  | New _ k => ∀ h, raises_only device reject P present (k h)
  | SetItem d _ k => raises_only device reject P (present || Z.eqb d device) k
  | GetItem d k => d = device ∧ present = true ∧
                   ∀ h, raises_only device reject P present (k h)
  | Call _ m k => ∀ v, raises_only device reject (fun e => P e ∨ reject m v e) present (k v)
  end.

(** In the pool, after the events [evs] that followed [tr0]: a worker
    that ended with an exception got it from the transport; any other
    finds its key in the dict once it has stored it, and can end only
    with an exception that [reject] explains by an answer already given,
    or by one to come. *)
Definition pool_accounted (api : transport) (reject : method → list Z → exn → Prop)
    (targets : list Z) (ps : pool) (w : world) (tr0 evs : list event) : Prop :=
  ∀ i device p,
    targets !! i = Some device → workers ps !! i = Some p →
    (∃ e, p = Raise e ∧ transport_raised api i tr0 evs e) ∨
    (∃ present,
       raises_only device reject (answer_rejected api reject i tr0 evs) present p ∧
       (present = true → is_Some (nRF5_instances w !! device))).

(** ** Scenarios *)

(** A small image with two segments. *)
Definition example_hex : IntelHex :=
  {| segments := [(0x1000, 0x1004); (0x2000, 0x2002)];
     tobinarray := fun start size => map (fun a => a mod 256) (range start (start + size)) |}.

Definition example_load (path : string) : result IntelHex := Ok example_hex.

(** What was last written at [addr] through [h]. *)
Fixpoint last_write (tr : list event) (h : handle) (addr : Z) : option (list Z) :=
  match tr with
  | [] => None
  | e :: rest =>
      match last_write rest h addr with
      | Some data => Some data
      | None =>
          match e with
          | EvCall _ h' (write addr' data _) =>
              if Nat.eqb h h' && Z.eqb addr addr' then Some data else None
          | _ => None
          end
      end
  end.

(** A transport on which every call succeeds: two probes are attached
    and reading returns what was written. *)
Definition probes_ok : transport := fun tr h m =>
  match m with
  | read addr len => Ok (take len (default [] (last_write tr h addr)))
  | enum_emu_snr => Ok [111; 222]
  | _ => Ok []
  end.

(** [h] was connected to the probe [snr]. *)
Definition connected_to (tr : list event) (h : handle) (snr : Z) : bool :=
  existsb (fun e => match e with
                    | EvCall _ h' (connect_to_emu_with_snr s) => Nat.eqb h h' && Z.eqb s snr
                    | _ => false
                    end) tr.

(** The same, except that writing through the probe [snr] fails. *)
Definition write_fails_on (snr : Z) : transport := fun tr h m =>
  match m with
  | write _ _ _ => if connected_to tr h snr then Raised APIError else probes_ok tr h m
  | _ => probes_ok tr h m
  end.

(** An [nRF5MultiFlash] for [example_hex] with sector erase, verify and
    reset requested. *)
Definition example_nRF (targets : list Z) : nRF5MultiFlash :=
  {| erase_all := false; family := lit_NRF51; file := "app.hex";
     sectors_erase := true; sectors_and_uicr_erase := false;
     snrs := targets; systemreset := true; verify := true;
     PAGE_SIZE := 0x400; hex_file := example_hex |}.

(** An image whose two segments lie in one [0x400] page. *)
Definition close_segments_hex : IntelHex :=
  {| segments := [(0x1000, 0x1004); (0x1010, 0x1012)];
     tobinarray := fun start size => map (fun a => a mod 256) (range start (start + size)) |}.

(** An [nRF5MultiFlash] for it with sector erase and verify requested. *)
Definition close_segments_nRF : nRF5MultiFlash :=
  {| erase_all := false; family := lit_NRF51; file := "app.hex";
     sectors_erase := true; sectors_and_uicr_erase := false;
     snrs := [7]; systemreset := false; verify := true;
     PAGE_SIZE := 0x400; hex_file := close_segments_hex |}.

(** A namespace for [app.hex] with no erase, verify or reset flag. *)
Definition example_args (family : option pystr) (targets : option (list Z)) : Namespace :=
  {| args_eraseall := false; args_family := family; args_file := "app.hex";
     args_sectorserase := false; args_sectorsanduicrerase := false;
     args_snrs := targets; args_systemreset := false; args_verify := false |}.

(** Worker [i] runs [n] nodes in a row. *)
Definition turn (i n : nat) : list nat := replicate n i.

(** A transport on which every call succeeds and reading returns the
    bytes of the image [hex]: what a probe answers whose flash holds the
    image. *)
Definition image_in_flash (hex : IntelHex) : transport := fun tr h m =>
  match m with
  | read addr len => Ok (tobinarray hex addr (Z.of_nat len))
  | enum_emu_snr => Ok [111; 222]
  | _ => Ok []
  end.

(** * Properties *)

(** ** The erase plan *)

Section ErasePlan.

Lemma range_seqZ lo hi : range lo hi = seqZ lo (hi - lo).
Proof.
  unfold range, seqZ. apply map_ext. intros i. lia.
Qed.

Lemma range_length lo hi : length (range lo hi) = Z.to_nat (hi - lo).
Proof. by rewrite range_seqZ, length_seqZ. Qed.

Lemma range_lookup lo hi i x :
  range lo hi !! i = Some x ↔ x = lo + Z.of_nat i ∧ lo + Z.of_nat i < hi.
Proof. rewrite range_seqZ, lookup_seqZ. lia. Qed.

Lemma elem_of_range lo hi x : x ∈ range lo hi ↔ lo ≤ x < hi.
Proof. rewrite range_seqZ, elem_of_seqZ. lia. Qed.

Lemma range_snoc lo hi : lo ≤ hi → range lo (hi + 1) = range lo hi ++ [hi].
Proof.
  intros Hle. rewrite !range_seqZ.
  replace (hi + 1 - lo) with ((hi - lo) + 1) by lia.
  rewrite seqZ_app by lia. f_equal.
  replace (lo + (hi - lo)) with hi by lia.
  rewrite seqZ_cons by lia. by rewrite seqZ_nil by lia.
Qed.

Lemma elem_of_erase_plan ps s e p :
  p ∈ erase_plan ps s e ↔ ∃ page, p = page * ps ∧ s / ps ≤ page ≤ e / ps.
Proof.
  unfold erase_plan, segment_pages. rewrite list_elem_of_fmap.
  setoid_rewrite elem_of_range. split; intros (page & ? & ?); exists page; split; auto; lia.
Qed.

Lemma erase_plan_lookup ps s e i p :
  erase_plan ps s e !! i = Some p ↔
  p = (s / ps + Z.of_nat i) * ps ∧ s / ps + Z.of_nat i ≤ e / ps.
Proof.
  unfold erase_plan, segment_pages. rewrite list_lookup_fmap, fmap_Some.
  setoid_rewrite range_lookup. split.
  - intros (page & [-> ?] & ->). split; [done | lia].
  - intros [-> ?]. eexists. split; [split; [done | lia] | done].
Qed.

Lemma erase_plan_sorted ps s e :
  0 < ps → StronglySorted Z.lt (erase_plan ps s e).
Proof.
  intros Hps. unfold erase_plan, segment_pages. rewrite range_seqZ.
  generalize (e / ps + 1 - s / ps) as n. generalize (s / ps) as m.
  intros m n. unfold seqZ. generalize (Z.to_nat n) as k. clear n.
  intros k. revert m. generalize 0%nat as o.
  induction k as [|k IH]; intros o m; simpl; constructor.
  - apply IH.
  - apply Forall_forall. intros x Hx.
    apply list_elem_of_fmap in Hx as (page & -> & Hp).
    apply list_elem_of_fmap in Hp as (j & -> & Hj).
    apply elem_of_seq in Hj. nia.
Qed.

Lemma page_of_byte ps a q : 0 < ps → q * ps ≤ a < q * ps + ps → q = a / ps.
Proof.
  intros Hps Ha. apply (Z.div_unique_pos a ps q (a - q * ps)); lia.
Qed.

End ErasePlan.

(** The plan of a segment [start_addr < end_addr], for [0 < PAGE_SIZE]:
    one entry per page from [start_addr / PAGE_SIZE] up to
    [end_addr / PAGE_SIZE], the [i]-th entry being the [i]-th page, in
    strictly ascending order, and every byte address of
    [[start_addr, end_addr)] lies in the page of exactly one entry. *)
Lemma erase_plan_covers_segment (PAGE_SIZE start_addr end_addr : Z) :
  0 < PAGE_SIZE → start_addr < end_addr →
  let plan := erase_plan PAGE_SIZE start_addr end_addr in
  let first_page := start_addr / PAGE_SIZE in
  let last_page := end_addr / PAGE_SIZE in
  first_page ≤ last_page ∧
  length plan = Z.to_nat (last_page - first_page + 1) ∧
  (∀ i, (i < length plan)%nat →
        plan !! i = Some ((first_page + Z.of_nat i) * PAGE_SIZE)) ∧
  (∀ p, p ∈ plan ↔ ∃ page, p = page * PAGE_SIZE ∧ first_page ≤ page ≤ last_page) ∧
  StronglySorted Z.lt plan ∧
  NoDup plan ∧
  (∀ a, start_addr ≤ a < end_addr →
        ∃ p, p ∈ plan ∧ p ≤ a < p + PAGE_SIZE ∧
             ∀ q, q ∈ plan → q ≤ a < q + PAGE_SIZE → q = p).
Proof.
  intros Hps Hse plan first_page last_page.
  assert (Hfl : first_page ≤ last_page)
    by (apply Z.div_le_mono; lia).
  assert (Hlen : length plan = Z.to_nat (last_page - first_page + 1)).
  { unfold plan, erase_plan, segment_pages. rewrite length_map, range_length.
    f_equal. unfold first_page, last_page. lia. }
  assert (Hsorted : StronglySorted Z.lt plan) by by apply erase_plan_sorted.
  repeat split; try done.
  - intros i Hi. apply erase_plan_lookup. split; [done|].
    fold first_page last_page. lia.
  - apply elem_of_erase_plan.
  - apply elem_of_erase_plan.
  - clear -Hsorted. induction Hsorted as [|x l _ IH Hx]; constructor; [|done].
    intros Hin. rewrite Forall_forall in Hx. specialize (Hx _ Hin). lia.
  - intros a Ha. exists (a / PAGE_SIZE * PAGE_SIZE).
    pose proof (Z.mul_div_le a PAGE_SIZE Hps).
    pose proof (Z.mul_succ_div_gt a PAGE_SIZE Hps).
    split; [|split; [lia|]].
    + apply elem_of_erase_plan. exists (a / PAGE_SIZE). split; [done|].
      split; apply Z.div_le_mono; lia.
    + intros q Hq Hqa. apply elem_of_erase_plan in Hq as (page & -> & _).
      f_equal. apply page_of_byte; lia.
Qed.

(** When [end_addr] is page-aligned, the plan ends with the page that
    starts at [end_addr]: it is the plan for the occupied bytes (whose
    last byte is [end_addr - 1]) followed by that one page, and no byte
    of [[start_addr, end_addr)] lies in it. *)
Lemma erase_plan_aligned_end (PAGE_SIZE start_addr end_addr : Z) :
  0 < PAGE_SIZE → start_addr < end_addr → end_addr mod PAGE_SIZE = 0 →
  erase_plan PAGE_SIZE start_addr end_addr
    = erase_plan PAGE_SIZE start_addr (end_addr - 1) ++ [end_addr] ∧
  last (erase_plan PAGE_SIZE start_addr end_addr) = Some end_addr ∧
  (end_addr ∈ erase_plan PAGE_SIZE start_addr end_addr) ∧
  (end_addr ∉ erase_plan PAGE_SIZE start_addr (end_addr - 1)) ∧
  (∀ a, start_addr ≤ a < end_addr → ¬ (end_addr ≤ a < end_addr + PAGE_SIZE)) ∧
  (∀ a, start_addr ≤ a < end_addr →
        ∃ p, p ∈ erase_plan PAGE_SIZE start_addr (end_addr - 1) ∧ p ≤ a < p + PAGE_SIZE).
Proof.
  intros Hps Hse Hal.
  assert (Hend : end_addr = end_addr / PAGE_SIZE * PAGE_SIZE).
  { rewrite (Z.div_mod end_addr PAGE_SIZE) at 1 by lia. lia. }
  assert (Hprev : (end_addr - 1) / PAGE_SIZE = end_addr / PAGE_SIZE - 1).
  { symmetry. apply (Z.div_unique_pos _ _ _ (PAGE_SIZE - 1)); lia. }
  assert (Hle : start_addr / PAGE_SIZE ≤ (end_addr - 1) / PAGE_SIZE)
    by (apply Z.div_le_mono; lia).
  assert (Heq : erase_plan PAGE_SIZE start_addr end_addr
                = erase_plan PAGE_SIZE start_addr (end_addr - 1) ++ [end_addr]).
  { unfold erase_plan, segment_pages. rewrite Hprev.
    replace (end_addr / PAGE_SIZE - 1 + 1) with (end_addr / PAGE_SIZE) by lia.
    rewrite range_snoc by lia. rewrite map_app. simpl. by rewrite <- Hend. }
  split; [done|]. rewrite Heq. split; [apply last_snoc|].
  split; [set_solver|]. split; [|split].
  - rewrite elem_of_erase_plan. intros (page & Hp & Hpage). nia.
  - lia.
  - intros a Ha. exists (a / PAGE_SIZE * PAGE_SIZE).
    pose proof (Z.mul_div_le a PAGE_SIZE Hps).
    pose proof (Z.mul_succ_div_gt a PAGE_SIZE Hps).
    split; [|lia]. apply elem_of_erase_plan. exists (a / PAGE_SIZE).
    split; [done|]. split; apply Z.div_le_mono; lia.
Qed.

(** ** The verify comparison *)

Section ByteLists.

Lemma getitem_lt (l : list Z) i : (i < length l)%nat → ∃ x, l !! i = Some x ∧ getitem l i = Ok x.
Proof.
  intros Hi. destruct (lookup_lt_is_Some_2 l i Hi) as [x Hx].
  exists x. unfold getitem. by rewrite Hx.
Qed.

Lemma getitem_ge (l : list Z) i : (length l ≤ i)%nat → getitem l i = Raised IndexError.
Proof. intros Hi. unfold getitem. by rewrite lookup_ge_None_2. Qed.

(** Within both lists the loop returns a boolean: [True] exactly when
    the lists agree on the indices it visits. *)
Lemma byte_lists_equal_loop_in_range (data read_data : list Z) k n :
  (k + n ≤ length data)%nat → (k + n ≤ length read_data)%nat →
  ∃ b, byte_lists_equal_loop data read_data (seq k n) = Ok b ∧
       (b = true ↔ ∀ i, (k ≤ i < k + n)%nat → data !! i = read_data !! i).
Proof.
  revert k. induction n as [|n IH]; intros k Hd Hr; simpl.
  - exists true. split; [done|]. split; [intros _ i ?; lia | done].
  - destruct (getitem_lt data k) as (d & Hd1 & ->); [lia|].
    destruct (getitem_lt read_data k) as (r & Hr1 & ->); [lia|].
    destruct (Z.eqb_spec d r) as [->|Hne]; simpl.
    + destruct (IH (S k)) as (b & -> & Hb); [lia..|].
      exists b. split; [done|]. rewrite Hb. split.
      * intros H i Hi. destruct (decide (i = k)) as [->|]; [congruence|].
        apply H. lia.
      * intros H i Hi. apply H. lia.
    + exists false. split; [done|]. split; [done|].
      intros H. specialize (H k ltac:(lia)). congruence.
Qed.

(** Once the loop walks past the end of [read_data] without having seen
    a difference, [read_data[i]] raises. *)
Lemma byte_lists_equal_loop_short (data read_data : list Z) k n :
  (k ≤ length read_data)%nat → (length read_data < k + n)%nat →
  (k + n ≤ length data)%nat →
  (∀ i, (k ≤ i < length read_data)%nat → data !! i = read_data !! i) →
  byte_lists_equal_loop data read_data (seq k n) = Raised IndexError.
Proof.
  revert k. induction n as [|n IH]; intros k Hk Hlt Hd Hagree; simpl; [lia|].
  destruct (getitem_lt data k) as (d & Hd1 & ->); [lia|].
  destruct (decide (k = length read_data)) as [->|Hne].
  - by rewrite getitem_ge.
  - destruct (getitem_lt read_data k) as (r & Hr1 & ->); [lia|].
    assert (d = r) as -> by (specialize (Hagree k ltac:(lia)); congruence).
    rewrite Z.eqb_refl. simpl. apply IH; [lia..|].
    intros i Hi. apply Hagree. lia.
Qed.

End ByteLists.

(** C10.  With [read_data] at least as long as [data], the comparison
    returns a boolean, [True] exactly when the two lists agree at every
    index below [len(data)], and bytes appended to [read_data] do not
    change the answer.  With [read_data] shorter than [data] and equal to
    it at every index of [read_data], the comparison raises [IndexError]
    instead of returning. *)
Theorem byte_lists_equal_prefix_compare (data read_data : list Z) :
  ((length data ≤ length read_data)%nat →
     (∃ b, _byte_lists_equal data read_data = Ok b) ∧
     (_byte_lists_equal data read_data = Ok true ↔
        ∀ i, (i < length data)%nat → data !! i = read_data !! i) ∧
     (∀ extra, _byte_lists_equal data (read_data ++ extra)
               = _byte_lists_equal data read_data)) ∧
  ((length read_data < length data)%nat →
     (∀ i, (i < length read_data)%nat → data !! i = read_data !! i) →
     _byte_lists_equal data read_data = Raised IndexError).
Proof.
  unfold _byte_lists_equal. split.
  - intros Hlen.
    destruct (byte_lists_equal_loop_in_range data read_data 0 (length data))
      as (b & Hb & Hiff); [lia..|].
    split; [by exists b|]. split.
    + rewrite Hb. split.
      * intros [= ->] i Hi. apply Hiff; [done | lia].
      * intros H. f_equal. apply Hiff. intros i Hi. apply H. lia.
    + intros extra.
      destruct (byte_lists_equal_loop_in_range data (read_data ++ extra) 0 (length data))
        as (b' & Hb' & Hiff'); [lia | rewrite length_app; lia |].
      rewrite Hb, Hb'. f_equal.
      assert (Hsame : ∀ i, (0 ≤ i < 0 + length data)%nat →
                           (read_data ++ extra) !! i = read_data !! i)
        by (intros i Hi; apply lookup_app_l; lia).
      destruct b, b'; try done.
      * assert (false = true) as Habs; [|done]. apply Hiff'. intros i Hi.
        rewrite Hsame by done. by apply Hiff.
      * assert (false = true) as Habs; [|done]. apply Hiff. intros i Hi.
        rewrite <- Hsame by done. by apply Hiff'.
  - intros Hlen Hagree. apply byte_lists_equal_loop_short; [lia..|].
    intros i Hi. apply Hagree. lia.
Qed.

(** Both halves on small lists: trailing bytes of the read-back are
    ignored, and a short read-back that agrees raises. *)
Lemma byte_lists_equal_prefix_compare_witness :
  (_byte_lists_equal [1; 2] [1; 2; 9] = Ok true ∧
   ∀ extra, _byte_lists_equal [1; 2] ([1; 2; 9] ++ extra) = _byte_lists_equal [1; 2] [1; 2; 9]) ∧
  _byte_lists_equal [1; 2; 3] [1; 2] = Raised IndexError.
Proof.
  split.
  - split; [reflexivity|].
    apply (proj1 (byte_lists_equal_prefix_compare [1; 2] [1; 2; 9])). simpl. lia.
  - apply (proj2 (byte_lists_equal_prefix_compare [1; 2; 3] [1; 2])).
    + simpl. lia.
    + intros [|[|i]] Hi; simpl in *; try reflexivity; lia.
Defined.

(** ** Running a program alone *)

Section RunAlone.

Variable api : transport.

Lemma run_bind {A B} t (p : prog A) (f : A → prog B) w :
  run api t (p ≫= f) w =
  match run api t p w with
  | (Ok a, w') => run api t (f a) w'
  | (Raised e, w') => (Raised e, w')
  end.
Proof.
  unfold mbind, prog_mbind. revert w.
  induction p as [a|e|fam k IH|d h k IH|d k IH|h m k IH]; intros w; simpl; try done.
  - destruct (nRF5_instances w !! d); [apply IH | done].
  - destruct (api (trace w) h m); [apply IH | done].
Qed.

Lemma run_get {B} t device (f : handle → prog B) w :
  run api t (nRF5_instances_get device ≫= f) w =
  match nRF5_instances w !! device with
  | Some h => run api t (f h) w
  | None => (Raised KeyError, w)
  end.
Proof. rewrite run_bind. simpl. by destruct (nRF5_instances w !! device). Qed.

Lemma run_call {B} t h m (f : list Z → prog B) w :
  run api t (call h m ≫= f) w =
  match api (trace w) h m with
  | Ok v => run api t (f v) (World (next_handle w) (nRF5_instances w) (trace w ++ [EvCall t h m]))
  | Raised e => (Raised e, World (next_handle w) (nRF5_instances w) (trace w ++ [EvCall t h m]))
  end.
Proof. rewrite run_bind. simpl. by destruct (api (trace w) h m). Qed.

(** A run only appends to the trace, and what it appends is the running
    thread's. *)
Lemma run_trace {A} t (p : prog A) w :
  ∃ evs, trace (run api t p w).2 = trace w ++ evs ∧
         Forall (fun e => event_thread e = t) evs.
Proof.
  revert w. induction p as [a|e|fam k IH|d h k IH|d k IH|h m k IH]; intros w; simpl.
  - exists []. by rewrite app_nil_r.
  - exists []. by rewrite app_nil_r.
  - destruct (IH (next_handle w) (World (S (next_handle w)) (nRF5_instances w)
                      (trace w ++ [EvNew t (next_handle w) fam]))) as (evs & -> & Hevs).
    simpl. exists (EvNew t (next_handle w) fam :: evs). rewrite <- app_assoc.
    split; [done|]. by constructor.
  - destruct (IH (World (next_handle w) (<[d:=h]> (nRF5_instances w)) (trace w)))
      as (evs & -> & Hevs). by exists evs.
  - destruct (nRF5_instances w !! d) as [h|]; [apply IH|].
    exists []. by rewrite app_nil_r.
  - destruct (api (trace w) h m) as [v|e].
    + destruct (IH v (World (next_handle w) (nRF5_instances w)
                        (trace w ++ [EvCall t h m]))) as (evs & -> & Hevs).
      simpl. exists (EvCall t h m :: evs). rewrite <- app_assoc.
      split; [done|]. by constructor.
    + exists [EvCall t h m]. simpl. split; [done|]. by repeat constructor.
Qed.

(** A run never removes a key from the dict. *)
Lemma run_keeps_key {A} t (p : prog A) w device :
  is_Some (nRF5_instances w !! device) →
  is_Some (nRF5_instances (run api t p w).2 !! device).
Proof.
  revert w. induction p as [a|e|fam k IH|d h k IH|d k IH|h m k IH]; intros w Hw; simpl; try done.
  - by apply IH.
  - apply IH. simpl. rewrite lookup_insert. case_decide; [by eexists | done].
  - destruct (nRF5_instances w !! d); [by apply IH | done].
  - destruct (api (trace w) h m); [by apply IH | done].
Qed.

Lemma calls_only_bind (P : method → Prop) {A B} (p : prog A) (f : A → prog B) :
  calls_only P p → (∀ a, calls_only P (f a)) → calls_only P (p ≫= f).
Proof.
  unfold mbind, prog_mbind. intros Hp Hf.
  induction p as [a|e|fam k IH|d h k IH|d k IH|h m k IH]; simpl in *; try done.
  - intros h. by apply IH.
  - by apply IH.
  - intros h. by apply IH.
  - destruct Hp as [Hm Hk]. split; [done|]. intros v. by apply IH.
Qed.

Lemma calls_only_when (P : method → Prop) c body :
  calls_only P body → calls_only P (when c body).
Proof. by destruct c. Qed.

Lemma calls_only_for_each (P : method → Prop) {A} (l : list A) body :
  (∀ x, calls_only P (body x)) → calls_only P (for_each l body).
Proof.
  intros Hbody. induction l as [|x l IH]; simpl; [done|].
  apply calls_only_bind; [apply Hbody | by intros _].
Qed.

Lemma calls_only_lift (P : method → Prop) {A} (r : result A) : calls_only P (lift r).
Proof. by destruct r. Qed.

(** What a program can call bounds what its run does call. *)
Lemma calls_only_run (P : method → Prop) {A} t (p : prog A) w :
  calls_only P p →
  ∃ evs, trace (run api t p w).2 = trace w ++ evs ∧ Forall (event_calls P) evs.
Proof.
  revert w. induction p as [a|e|fam k IH|d h k IH|d k IH|h m k IH]; intros w Hp; simpl in *.
  - exists []. by rewrite app_nil_r.
  - exists []. by rewrite app_nil_r.
  - destruct (IH (next_handle w) (World (S (next_handle w)) (nRF5_instances w)
                      (trace w ++ [EvNew t (next_handle w) fam])) (Hp _))
      as (evs & -> & Hevs).
    simpl. exists (EvNew t (next_handle w) fam :: evs). rewrite <- app_assoc.
    split; [done|]. by constructor.
  - destruct (IH (World (next_handle w) (<[d:=h]> (nRF5_instances w)) (trace w)) Hp)
      as (evs & -> & Hevs). by exists evs.
  - destruct (nRF5_instances w !! d) as [h|]; [by apply IH|].
    exists []. by rewrite app_nil_r.
  - destruct Hp as [Hm Hk]. destruct (api (trace w) h m) as [v|e].
    + destruct (IH v (World (next_handle w) (nRF5_instances w)
                        (trace w ++ [EvCall t h m])) (Hk v)) as (evs & -> & Hevs).
      simpl. exists (EvCall t h m :: evs). rewrite <- app_assoc.
      split; [done|]. by constructor.
    + exists [EvCall t h m]. simpl. split; [done|]. by repeat constructor.
Qed.

End RunAlone.

(** One syntactic layer of a [calls_only] goal. *)
Ltac calls_only_step :=
  match goal with
  | |- calls_only _ (_ ≫= _) => apply calls_only_bind
  | |- calls_only _ (when _ _) => apply calls_only_when
  | |- calls_only _ (for_each _ _) => apply calls_only_for_each
  | |- calls_only _ (lift _) => apply calls_only_lift
  | |- calls_only _ (assert_ ?c) => by destruct c
  | |- calls_only _ (call _ _) => simpl; split; [|done]
  | |- calls_only _ (nRF5_instances_get _) => by simpl
  | |- calls_only _ (nRF5_instances_set _ _) => by simpl
  | |- calls_only _ (MultiAPI _) => by simpl
  | |- calls_only _ (mret _) => by simpl
  | |- calls_only _ (Ret _) => by simpl
  | |- calls_only _ (Raise _) => by simpl
  | |- ∀ _, _ => intros ?
  end.

(** ** One worker: connect, program, clean up *)

Section Worker.

Variable api : transport.

Lemma connect_never_cleans_up self device :
  calls_only not_cleanup (_connect_to_device self device).
Proof. unfold _connect_to_device. repeat calls_only_step; by split. Qed.

Lemma program_segment_never_cleans_up self device segment :
  calls_only not_cleanup (program_segment self device segment).
Proof.
  unfold program_segment. destruct segment as [start_addr end_addr].
  repeat calls_only_step; by split.
Qed.

Lemma program_never_cleans_up self device :
  calls_only not_cleanup (_program_device self device).
Proof.
  unfold _program_device. repeat calls_only_step; try by split.
  apply program_segment_never_cleans_up.
Qed.

Lemma not_cleanup_event e : event_calls not_cleanup e → is_cleanup e = false.
Proof. destruct e as [|? ? []]; simpl; try done; intros [? ?]; done. Qed.

(** After [_connect_to_device] the dict has an entry for the device. *)
Lemma connect_sets_key self device t w :
  is_Some (nRF5_instances (run api t (_connect_to_device self device) w).2 !! device).
Proof.
  unfold _connect_to_device. rewrite run_bind. unfold MultiAPI. cbn [run].
  rewrite run_bind. unfold nRF5_instances_set. cbn [run].
  apply run_keeps_key. cbn [nRF5_instances]. rewrite lookup_insert_eq. by eexists.
Qed.

(** [_cleanup] alone: the lookup succeeding, it calls
    [disconnect_from_emu], and [close] unless that raised. *)
Lemma cleanup_run self device t w h :
  nRF5_instances w !! device = Some h →
  trace (run api t (_cleanup self device) w).2 =
    trace w ++ EvCall t h disconnect_from_emu ::
      (if is_ok (api (trace w) h disconnect_from_emu) then [EvCall t h close] else []).
Proof.
  intros Hh. unfold _cleanup, nRF5_instances_get, call.
  rewrite run_bind. cbn [run]. rewrite Hh.
  rewrite run_bind. cbn [run].
  destruct (api (trace w) h disconnect_from_emu); cbn [is_ok]; [|done].
  rewrite run_bind. cbn [run nRF5_instances]. rewrite Hh.
  rewrite run_bind. cbn [run trace].
  destruct (api _ h close); simpl; by rewrite <- app_assoc.
Qed.

End Worker.

(** C3, as the code has it.  [perform_command] has no [try]/[finally]:
    [_cleanup] runs exactly when [_connect_to_device] and
    [_program_device] both returned.  Then it calls [disconnect_from_emu]
    on the device's [MultiAPI] object and, unless that raised, [close].
    When an earlier phase raised, [perform_command] ends with that
    exception at that point, and the worker has called neither
    [disconnect_from_emu] nor [close]. *)
Theorem perform_command_cleanup_after_success_only
    (api : transport) (self : nRF5MultiFlash) (device : Z) (t : thread) (w : world) :
  match run api t (_connect_to_device self device ;; _program_device self device) w with
  | (Ok _, w1) =>
      ∃ h, nRF5_instances w1 !! device = Some h ∧
           trace (run api t (perform_command self device) w).2 =
             trace w1 ++ EvCall t h disconnect_from_emu ::
               (if is_ok (api (trace w1) h disconnect_from_emu)
                then [EvCall t h close] else [])
  | (Raised e, w1) =>
      run api t (perform_command self device) w = (Raised e, w1) ∧
      ∃ evs, trace w1 = trace w ++ evs ∧ Forall (fun ev => is_cleanup ev = false) evs
  end.
Proof.
  unfold perform_command. rewrite !run_bind.
  pose proof (connect_sets_key api self device t w) as Hkey.
  pose proof (calls_only_run api not_cleanup t (_connect_to_device self device) w
                (connect_never_cleans_up self device)) as (evs1 & Htr1 & Hevs1).
  destruct (run api t (_connect_to_device self device) w) as [[[]|e] w1]; simpl in *.
  - rewrite ?run_bind.
    pose proof (run_keeps_key api t (_program_device self device) w1 device Hkey) as Hkey2.
    pose proof (calls_only_run api not_cleanup t (_program_device self device) w1
                  (program_never_cleans_up self device)) as (evs2 & Htr2 & Hevs2).
    destruct (run api t (_program_device self device) w1) as [[[]|e] w2]; simpl in *.
    + destruct Hkey2 as [h Hh]. exists h. split; [done|]. by apply (cleanup_run api self).
    + split; [done|]. exists (evs1 ++ evs2). rewrite Htr2, Htr1, app_assoc.
      split; [done|]. apply Forall_app. split.
      * eapply Forall_impl; [exact Hevs1 | apply not_cleanup_event].
      * eapply Forall_impl; [exact Hevs2 | apply not_cleanup_event].
  - split; [done|]. exists evs1. split; [done|].
    eapply Forall_impl; [exact Hevs1 | apply not_cleanup_event].
Qed.

(** C3, as stated, fails.  The write to probe 7 raises: the worker ends
    with that exception right after the [write], and its trace holds no
    [disconnect_from_emu] and no [close]; the [MultiAPI] object stays
    open and connected. *)
Lemma cleanup_skipped_after_write_error :
  run (write_fails_on 7) (Worker 0) (perform_command (example_nRF [7]) 7) initial_world
  = (Raised APIError,
     World 1 {[ 7 := 0%nat ]}
       [EvNew (Worker 0) 0 lit_NRF51;
        EvCall (Worker 0) 0 open;
        EvCall (Worker 0) 0 (connect_to_emu_with_snr 7);
        EvCall (Worker 0) 0 (erase_page 0x1000);
        EvCall (Worker 0) 0 (write 0x1000 [0; 1; 2; 3] true)]) ∧
  filter (fun ev => is_cleanup ev = true)
    (trace (run (write_fails_on 7) (Worker 0)
              (perform_command (example_nRF [7]) 7) initial_world).2) = [].
Proof. split; vm_compute; reflexivity. Qed.

(** ** System reset *)

Section Reset.

Variable api : transport.

Lemma count_events_app P tr evs :
  count_events P (tr ++ evs) = (count_events P tr + count_events P evs)%nat.
Proof. unfold count_events. by rewrite filter_app, length_app. Qed.

Lemma count_events_none P evs :
  Forall (fun e => P e = false) evs → count_events P evs = 0%nat.
Proof.
  unfold count_events. induction 1 as [|e evs He _ IH]; [done|].
  rewrite filter_cons_False by congruence. done.
Qed.

Lemma not_reset_event e : event_calls not_reset e → is_sys_reset e = false.
Proof. destruct e as [|? ? []]; simpl; done. Qed.

(** A program that cannot call [sys_reset] leaves the count alone. *)
Lemma no_reset_run {A} t (p : prog A) w :
  calls_only not_reset p →
  count_events is_sys_reset (trace (run api t p w).2) = count_events is_sys_reset (trace w).
Proof.
  intros Hp. destruct (calls_only_run api not_reset t p w Hp) as (evs & -> & Hevs).
  rewrite count_events_app, (count_events_none _ evs); [lia|].
  eapply Forall_impl; [exact Hevs | apply not_reset_event].
Qed.

(** The reset at the end of the loop body, lines 130-131. *)
Lemma reset_step_run self device t w w' :
  systemreset self = true →
  run api t (when (systemreset self)
               (h ← nRF5_instances_get device; call h sys_reset ;; mret tt)) w = (Ok tt, w') →
  count_events is_sys_reset (trace w') = S (count_events is_sys_reset (trace w)).
Proof.
  intros -> Hrun. unfold when in Hrun. rewrite run_get in Hrun.
  destruct (nRF5_instances w !! device) as [h|]; [|done].
  rewrite run_call in Hrun.
  destruct (api (trace w) h sys_reset); [|done].
  simpl in Hrun. injection Hrun as <-. simpl.
  rewrite count_events_app. unfold count_events at 2. simpl. lia.
Qed.

(** One pass of the loop body that returns has reset the device once. *)
Lemma program_segment_resets self device segment t w w' :
  systemreset self = true →
  run api t (program_segment self device segment) w = (Ok tt, w') →
  count_events is_sys_reset (trace w') = S (count_events is_sys_reset (trace w)).
Proof.
  intros Hreset Hrun. destruct segment as [start_addr end_addr].
  unfold program_segment in Hrun. rewrite run_bind in Hrun.
  match type of Hrun with context [run api t ?p w] =>
    assert (Hp : calls_only not_reset p) by (repeat calls_only_step; done);
    pose proof (no_reset_run t p w Hp) as Hc1;
    destruct (run api t p w) as [[[]|e] w1]; [|done]
  end.
  simpl in Hc1. rewrite <- Hc1. clear Hc1 Hp.
  rewrite run_get in Hrun.
  destruct (nRF5_instances w1 !! device) as [h|]; [|done].
  rewrite run_call in Hrun.
  destruct (api (trace w1) h _) as [v|e]; [|done].
  rewrite run_bind in Hrun.
  match type of Hrun with context [run api t ?p ?w2] =>
    assert (Hp : calls_only not_reset p) by (repeat calls_only_step; done);
    pose proof (no_reset_run t p w2 Hp) as Hc2;
    destruct (run api t p w2) as [[[]|e] w3]; [|done]
  end.
  simpl in Hc2. rewrite count_events_app in Hc2.
  unfold count_events at 3 in Hc2. simpl in Hc2.
  apply (reset_step_run self device t w3 w' Hreset) in Hrun. lia.
Qed.

Lemma for_each_segments_resets self device segs t w w' :
  systemreset self = true →
  run api t (for_each segs (program_segment self device)) w = (Ok tt, w') →
  count_events is_sys_reset (trace w')
  = (count_events is_sys_reset (trace w) + length segs)%nat.
Proof.
  intros Hreset. revert w. induction segs as [|seg segs IH]; intros w Hrun; simpl in *.
  - injection Hrun as <-. lia.
  - rewrite run_bind in Hrun.
    destruct (run api t (program_segment self device seg) w) as [[[]|e] w1] eqn:Hseg; [|done].
    apply (program_segment_resets _ _ _ _ _ _ Hreset) in Hseg.
    apply IH in Hrun. lia.
Qed.

(** With [--systemreset], a [_program_device] that returns has called
    [sys_reset] once per segment of the image. *)
Lemma program_device_resets_per_segment self device t w w' :
  systemreset self = true →
  run api t (_program_device self device) w = (Ok tt, w') →
  count_events is_sys_reset (trace w')
  = (count_events is_sys_reset (trace w) + length (segments (hex_file self)))%nat.
Proof.
  intros Hreset Hrun. unfold _program_device in Hrun.
  rewrite run_bind in Hrun.
  match type of Hrun with context [run api t ?p w] =>
    assert (Hp : calls_only not_reset p) by (repeat calls_only_step; done);
    pose proof (no_reset_run t p w Hp) as Hc1;
    destruct (run api t p w) as [[[]|e] w1]; [|done]
  end.
  rewrite run_bind in Hrun.
  match type of Hrun with context [run api t ?p w1] =>
    assert (Hp2 : calls_only not_reset p) by (repeat calls_only_step; done);
    pose proof (no_reset_run t p w1 Hp2) as Hc2;
    destruct (run api t p w1) as [[[]|e] w2]; [|done]
  end.
  simpl in *. apply (for_each_segments_resets _ _ _ _ _ _ Hreset) in Hrun. lia.
Qed.

End Reset.

(** C2.  The reset is inside the segment loop.  On the two-segment image
    with [--systemreset], a worker whose calls all succeed resets the
    device twice, the first time before the second segment is erased and
    written. *)
Theorem system_reset_once_per_segment :
  run probes_ok (Worker 0) (perform_command (example_nRF [7]) 7) initial_world
  = (Ok tt,
     World 1 {[ 7 := 0%nat ]}
       [EvNew (Worker 0) 0 lit_NRF51;
        EvCall (Worker 0) 0 open;
        EvCall (Worker 0) 0 (connect_to_emu_with_snr 7);
        EvCall (Worker 0) 0 (erase_page 0x1000);
        EvCall (Worker 0) 0 (write 0x1000 [0; 1; 2; 3] true);
        EvCall (Worker 0) 0 (read 0x1000 4);
        EvCall (Worker 0) 0 sys_reset;
        EvCall (Worker 0) 0 (erase_page 0x2000);
        EvCall (Worker 0) 0 (write 0x2000 [0; 1] true);
        EvCall (Worker 0) 0 (read 0x2000 2);
        EvCall (Worker 0) 0 sys_reset;
        EvCall (Worker 0) 0 disconnect_from_emu;
        EvCall (Worker 0) 0 close]) ∧
  length (segments (hex_file (example_nRF [7]))) = 2%nat ∧
  count_events is_sys_reset
    (trace (run probes_ok (Worker 0) (perform_command (example_nRF [7]) 7) initial_world).2)
  = 2%nat.
Proof. repeat split; vm_compute; reflexivity. Qed.

(** ** Family and page size *)

Section Family.

(** The page size is [0x400] exactly for the interned literal itself. *)
Lemma init_PAGE_SIZE_by_identity family :
  init_PAGE_SIZE family = if decide (str_id family = str_id lit_NRF51) then 0x400 else 0x1000.
Proof.
  unfold init_PAGE_SIZE, py_is. case_decide as H.
  - by rewrite H.
  - by destruct (Nat.eqb_spec (str_id family) (str_id lit_NRF51)).
Qed.

(** With no [--family] the default object is the literal: [0x400]. *)
Lemma default_family_page_size args :
  args_family args = None →
  init_family args = lit_NRF51 ∧ init_PAGE_SIZE (init_family args) = 0x400.
Proof. unfold init_family. intros ->. done. Qed.

(** Any family object other than the literal gets [0x1000], whatever it
    holds. *)
Lemma other_object_page_size args value :
  args_family args = Some value → str_val value ≠ "" →
  str_id value ≠ str_id lit_NRF51 →
  init_family args = value ∧ init_PAGE_SIZE (init_family args) = 0x1000.
Proof.
  unfold init_family. intros -> Hne Hid. simpl.
  destruct (String.eqb_spec (str_val value) ""); [done|].
  split; [done|]. rewrite init_PAGE_SIZE_by_identity. by case_decide.
Qed.

End Family.

(** C7.  [--family NRF51] on the command line: the value is a string
    object of its own, equal to the literal but not identical to it, and
    the [is] of line 89 sends it to the [else] branch: the NRF51 request
    gets page size [0x1000]. *)
Theorem explicit_NRF51_gets_NRF52_page_size :
  py_eq (PyStr 17 "NRF51") lit_NRF51 = true ∧
  py_is (PyStr 17 "NRF51") lit_NRF51 = false ∧
  ∃ args nRF w,
    CLI_run [opt_file "app.hex"; opt_family (PyStr 17 "NRF51"); opt_snrs [7]] = Ok args ∧
    run probes_ok MainThread (__init__ example_load args) initial_world = (Ok nRF, w) ∧
    str_val (family nRF) = "NRF51" ∧
    PAGE_SIZE nRF = 0x1000.
Proof.
  split; [reflexivity|]. split; [reflexivity|].
  eexists _, _, _. split; [reflexivity|]. split; [reflexivity|].
  split; reflexivity.
Qed.

(** ** The command line *)

Section CommandLine.

Lemma parse_options_raises argv seen p e :
  parse_options argv seen p = Raised e → e = SystemExit.
Proof.
  revert seen p. induction argv as [|a argv IH]; intros seen p; simpl; [done|].
  destruct (conflicts seen a); [congruence|].
  destruct (well_formed a); simpl; [apply IH | congruence].
Qed.

Lemma conflicts_false seen a ga b gb :
  conflicts seen a = false → b ∈ seen →
  erase_before_flash_group a = Some ga → erase_before_flash_group b = Some gb →
  ga = gb.
Proof.
  unfold conflicts. intros Hc Hb Ha Hgb. rewrite Ha in Hc.
  destruct (decide (ga = gb)) as [|Hne]; [done|]. exfalso.
  assert (existsb (fun b => match erase_before_flash_group b with
                            | Some g' => negb (Nat.eqb ga g')
                            | None => false
                            end) seen = true) as Hex; [|congruence].
  apply existsb_exists. exists b. split; [by apply list_elem_of_In|].
  rewrite Hgb. by destruct (Nat.eqb_spec ga gb).
Qed.

(** Options that were parsed without error all name the same option of
    the erase group, if any. *)
Lemma parse_options_one_group argv seen p p' :
  parse_options argv seen p = Ok p' →
  ∀ a b ga gb, a ∈ argv → b ∈ seen ++ argv →
    erase_before_flash_group a = Some ga → erase_before_flash_group b = Some gb →
    ga = gb.
Proof.
  revert seen p. induction argv as [|a0 argv IH]; intros seen p Hparse a b ga gb Ha Hb Hga Hgb.
  - by apply elem_of_nil in Ha.
  - simpl in Hparse.
    destruct (conflicts seen a0) eqn:Hc; [done|].
    destruct (well_formed a0); [|done]. simpl in Hparse.
    specialize (IH _ _ Hparse).
    assert (Hmove : ∀ x, x ∈ seen ++ a0 :: argv → x ∈ (a0 :: seen) ++ argv).
    { intros x. rewrite !elem_of_app, !elem_of_cons. tauto. }
    apply elem_of_cons in Ha as [->|Ha].
    + apply elem_of_app in Hb as [Hb|Hb].
      * by eapply conflicts_false.
      * apply elem_of_cons in Hb as [->|Hb]; [congruence|].
        symmetry. apply (IH b a0 gb ga); [done | | done | done].
        apply elem_of_app. left. apply elem_of_cons. by left.
    + apply (IH a b ga gb); [done | by apply Hmove | done | done].
Qed.

(** A flag of the namespace is set only by its own option. *)
Lemma store_erase_flag a p g :
  (g < 3)%nat → erase_flag g (ns (store a p)) = true →
  erase_flag g (ns p) = true ∨ erase_before_flash_group a = Some g.
Proof.
  intros Hg. destruct p as [[] seen].
  destruct a; destruct g as [|[|[|g]]]; simpl; auto; lia.
Qed.

Lemma parse_options_flag_seen argv seen p p' :
  parse_options argv seen p = Ok p' →
  (∀ g, (g < 3)%nat → erase_flag g (ns p) = true →
        ∃ a, a ∈ seen ∧ erase_before_flash_group a = Some g) →
  ∀ g, (g < 3)%nat → erase_flag g (ns p') = true →
       ∃ a, a ∈ seen ++ argv ∧ erase_before_flash_group a = Some g.
Proof.
  revert seen p. induction argv as [|a0 argv IH]; intros seen p Hparse Hinv g Hg Hflag.
  - simpl in Hparse. injection Hparse as <-. rewrite app_nil_r. by apply Hinv.
  - simpl in Hparse.
    destruct (conflicts seen a0); [done|].
    destruct (well_formed a0); [|done]. simpl in Hparse.
    assert (Hinv' : ∀ g', (g' < 3)%nat → erase_flag g' (ns (store a0 p)) = true →
                          ∃ a, a ∈ a0 :: seen ∧ erase_before_flash_group a = Some g').
    { intros g' Hg' Hflag'.
      apply store_erase_flag in Hflag' as [Hflag'|Hflag']; [| |done].
      - destruct (Hinv g' Hg' Hflag') as (a & Ha & Hga). exists a.
        split; [|done]. apply elem_of_cons. by right.
      - exists a0. split; [|done]. apply elem_of_cons. by left. }
    destruct (IH _ _ Hparse Hinv' g Hg Hflag) as (a & Ha & Hga).
    exists a. split; [|done].
    revert Ha. rewrite !elem_of_app, !elem_of_cons. tauto.
Qed.

End CommandLine.

(** ** The pool *)

Section PoolBasics.

Variable api : transport.

Lemma step_finished {A} t (p : prog A) w : finished p = true → step api t p w = (p, w).
Proof. by destruct p. Qed.

(** A step appends at most the stepping thread's own event. *)
Lemma step_trace {A} t (p : prog A) w :
  ∃ evs, trace (step api t p w).2 = trace w ++ evs ∧
         Forall (fun e => event_thread e = t) evs.
Proof.
  destruct p as [a|e|fam k|d h k|d k|h m k]; simpl.
  - exists []. by rewrite app_nil_r.
  - exists []. by rewrite app_nil_r.
  - exists [EvNew t (next_handle w) fam]. split; [done|]. by repeat constructor.
  - exists []. by rewrite app_nil_r.
  - exists []. rewrite app_nil_r. by destruct (nRF5_instances w !! d).
  - exists [EvCall t h m]. split; [by destruct (api (trace w) h m)|]. by repeat constructor.
Qed.

Lemma pool_step_workers i ps w :
  workers (pool_step api i ps w).1 =
  match workers ps !! i with
  | Some p => <[i := (step api (Worker i) p w).1]> (workers ps)
  | None => workers ps
  end.
Proof.
  unfold pool_step. destruct (workers ps !! i) as [p|]; [|done].
  by destruct (step api (Worker i) p w).
Qed.

Lemma pool_step_world i ps w :
  (pool_step api i ps w).2 =
  match workers ps !! i with
  | Some p => (step api (Worker i) p w).2
  | None => w
  end.
Proof.
  unfold pool_step. destruct (workers ps !! i) as [p|]; [|done].
  by destruct (step api (Worker i) p w).
Qed.

Lemma pool_step_length i ps w :
  length (workers (pool_step api i ps w).1) = length (workers ps).
Proof.
  rewrite pool_step_workers. destruct (workers ps !! i); [|done]. apply length_insert.
Qed.

Lemma run_pool_cons i schedule ps w :
  run_pool api (i :: schedule) ps w =
  run_pool api schedule (pool_step api i ps w).1 (pool_step api i ps w).2.
Proof. simpl. by destruct (pool_step api i ps w). Qed.

Lemma run_pool_app s1 s2 ps w :
  run_pool api (s1 ++ s2) ps w =
  run_pool api s2 (run_pool api s1 ps w).1 (run_pool api s1 ps w).2.
Proof.
  revert ps w. induction s1 as [|i s1 IH]; intros ps w; [done|].
  rewrite <- app_comm_cons, !run_pool_cons. apply IH.
Qed.

Lemma run_pool_length schedule ps w :
  length (workers (run_pool api schedule ps w).1) = length (workers ps).
Proof.
  revert ps w. induction schedule as [|i schedule IH]; intros ps w; [done|].
  rewrite run_pool_cons, IH. apply pool_step_length.
Qed.

(** Whatever the pool appends to the trace is a worker's. *)
Lemma run_pool_trace schedule ps w :
  ∃ evs, trace (run_pool api schedule ps w).2 = trace w ++ evs ∧
         Forall (fun e => is_worker (event_thread e) = true) evs.
Proof.
  revert ps w. induction schedule as [|i schedule IH]; intros ps w.
  - exists []. by rewrite app_nil_r.
  - rewrite run_pool_cons.
    destruct (IH (pool_step api i ps w).1 (pool_step api i ps w).2) as (evs2 & -> & H2).
    rewrite pool_step_world. destruct (workers ps !! i) as [p|].
    + destruct (step_trace (Worker i) p w) as (evs1 & -> & H1).
      exists (evs1 ++ evs2). rewrite app_assoc. split; [done|].
      apply Forall_app. split; [|done].
      eapply Forall_impl; [exact H1|]. by intros e ->.
    + by exists evs2.
Qed.

End PoolBasics.

Section PoolResult.

Variable api : transport.

Lemma pool_step_failure_sound i ps w :
  failure_sound ps → failure_sound (pool_step api i ps w).1.
Proof.
  intros [Hsome Hraised]. unfold pool_step.
  destruct (workers ps !! i) as [p|] eqn:Hp; [|done].
  pose proof (lookup_lt_Some _ _ _ Hp) as Hi.
  destruct (step api (Worker i) p w) as [p' w'] eqn:Hstep. simpl. split; simpl.
  - intros e He. destruct (failure ps) as [e0|] eqn:Hf.
    + injection He as <-. destruct (Hsome e0 eq_refl) as (j & Hj).
      exists j. destruct (decide (j = i)) as [->|Hne].
      * rewrite list_lookup_insert_eq by done.
        rewrite Hp in Hj. injection Hj as ->.
        rewrite step_finished in Hstep by done. by injection Hstep as <- _.
      * by rewrite list_lookup_insert_ne.
    + exists i. rewrite list_lookup_insert_eq by done.
      unfold raised_by in He. destruct p'; try done.
      destruct (finished p); [done|]. by injection He as ->.
  - intros j e Hj. destruct (failure ps) as [e0|] eqn:Hf; [by eexists|].
    destruct (decide (j = i)) as [->|Hne].
    + rewrite list_lookup_insert_eq in Hj by done. injection Hj as ->.
      unfold raised_by. destruct (finished p) eqn:Hfin; [|by eexists].
      rewrite step_finished in Hstep by done. injection Hstep as -> _.
      destruct (Hraised i e Hp) as [? ?]. congruence.
    + rewrite list_lookup_insert_ne in Hj by done.
      destruct (Hraised j e Hj) as [? ?]. congruence.
Qed.

Lemma run_pool_failure_sound schedule ps w :
  failure_sound ps → failure_sound (run_pool api schedule ps w).1.
Proof.
  revert ps w. induction schedule as [|i schedule IH]; intros ps w Hps; [done|].
  rewrite run_pool_cons. by apply IH, pool_step_failure_sound.
Qed.

Lemma perform_command_starts self device :
  ∃ k, perform_command self device = New (family self) k.
Proof. by eexists. Qed.

Lemma initial_pool_failure_sound nRF : failure_sound (initial_pool nRF).
Proof.
  split; simpl; [done|]. intros i e Hi.
  apply list_lookup_fmap_Some in Hi as (device & Heq & Hd).
  destruct (perform_command_starts nRF device) as [k Hk]. congruence.
Qed.

(** A worker that has ended stays as it is. *)
Lemma run_pool_finished_stable schedule ps w j p :
  workers ps !! j = Some p → finished p = true →
  workers (run_pool api schedule ps w).1 !! j = Some p.
Proof.
  revert ps w. induction schedule as [|i schedule IH]; intros ps w Hj Hfin; [done|].
  rewrite run_pool_cons. apply IH; [|done].
  rewrite pool_step_workers. destruct (workers ps !! i) as [q|] eqn:Hq; [|done].
  destruct (decide (j = i)) as [->|Hne].
  - rewrite list_lookup_insert_eq by by eapply lookup_lt_Some.
    rewrite Hj in Hq. injection Hq as <-. by rewrite step_finished.
  - by rewrite list_lookup_insert_ne.
Qed.

(** A worker that is given the processor until it ends does what [run]
    says, and the others have not moved. *)
Lemma worker_runs_alone i p : ∀ ps w,
  workers ps !! i = Some p →
  ∃ n, workers (run_pool api (turn i n) ps w).1
         = <[i := lift (run api (Worker i) p w).1]> (workers ps) ∧
       (run_pool api (turn i n) ps w).2 = (run api (Worker i) p w).2.
Proof.
  assert (Hnext : ∀ ps w (q q' : prog unit) w' (k : nat),
            workers ps !! i = Some q →
            step api (Worker i) q w = (q', w') →
            (∃ n, workers (run_pool api (turn i n) (pool_step api i ps w).1 w').1
                    = <[i := lift (run api (Worker i) q' w').1]>
                        (workers (pool_step api i ps w).1) ∧
                  (run_pool api (turn i n) (pool_step api i ps w).1 w').2
                    = (run api (Worker i) q' w').2) →
            run api (Worker i) q w = run api (Worker i) q' w' →
            ∃ n, workers (run_pool api (turn i n) ps w).1
                   = <[i := lift (run api (Worker i) q w).1]> (workers ps) ∧
                 (run_pool api (turn i n) ps w).2 = (run api (Worker i) q w).2).
  { clear p. intros ps w p p' w' _ Hp Hstep (n & Hn & Hw) Hrun.
    assert (Hw' : (pool_step api i ps w).2 = w')
      by (by rewrite pool_step_world, Hp, Hstep).
    exists (S n). unfold turn in *. simpl replicate. rewrite run_pool_cons, Hw', Hrun.
    split; [|done]. rewrite Hn, pool_step_workers, Hp.
    by rewrite list_insert_insert_eq. }
  induction p as [a|e|fam k IH|d h k IH|d k IH|h m k IH]; intros ps w Hp.
  1,2: exists 0%nat; simpl; by rewrite list_insert_id.
  all: pose proof (lookup_lt_Some _ _ _ Hp) as Hi.
  - eapply (Hnext ps w _ _ _ 0%nat Hp); [done | | done].
    apply IH. rewrite pool_step_workers, Hp. by rewrite list_lookup_insert_eq.
  - eapply (Hnext ps w _ _ _ 0%nat Hp); [done | | done].
    apply IH. rewrite pool_step_workers, Hp. by rewrite list_lookup_insert_eq.
  - destruct (nRF5_instances w !! d) as [h|] eqn:Hd.
    + eapply (Hnext ps w _ (k h) w 0%nat Hp); [by simpl; rewrite Hd | | by simpl; rewrite Hd].
      apply IH. rewrite pool_step_workers, Hp. simpl. rewrite Hd.
      by rewrite list_lookup_insert_eq.
    + exists 1%nat. unfold turn. simpl replicate. rewrite run_pool_cons. simpl run_pool. cbn [fst snd].
      rewrite pool_step_workers, pool_step_world, Hp. simpl. by rewrite Hd.
  - destruct (api (trace w) h m) as [v|e] eqn:Hv.
    + eapply (Hnext ps w _ (k v) _ 0%nat Hp); [by simpl; rewrite Hv | | by simpl; rewrite Hv].
      apply IH. rewrite pool_step_workers, Hp. simpl. rewrite Hv.
      by rewrite list_lookup_insert_eq.
    + exists 1%nat. unfold turn. simpl replicate. rewrite run_pool_cons. simpl run_pool. cbn [fst snd].
      rewrite pool_step_workers, pool_step_world, Hp. simpl. by rewrite Hv.
Qed.

(** Some schedule brings the first [k] workers to their end. *)
Lemma workers_end_upto k : ∀ ps w,
  (k ≤ length (workers ps))%nat →
  ∃ schedule, ∀ j p, (j < k)%nat →
    workers (run_pool api schedule ps w).1 !! j = Some p → finished p = true.
Proof.
  induction k as [|k IH]; intros ps w Hk.
  - exists []. intros j p Hj. lia.
  - destruct (IH ps w ltac:(lia)) as (s1 & Hs1).
    set (ps1 := (run_pool api s1 ps w).1) in *. set (w1 := (run_pool api s1 ps w).2).
    assert (Hlen : length (workers ps1) = length (workers ps)) by apply run_pool_length.
    destruct (lookup_lt_is_Some_2 (workers ps1) k ltac:(lia)) as [q Hq].
    destruct (worker_runs_alone k q ps1 w1 Hq) as (n & Hn & _).
    exists (s1 ++ turn k n). intros j p Hj Hp.
    rewrite run_pool_app in Hp. fold ps1 w1 in Hp. rewrite Hn in Hp.
    destruct (decide (j = k)) as [->|Hne].
    + rewrite list_lookup_insert_eq in Hp by lia. injection Hp as <-.
      by destruct (run api (Worker k) q w1).1.
    + rewrite list_lookup_insert_ne in Hp by done. apply (Hs1 j p); [lia | done].
Qed.

Lemma forallb_finished ps :
  (∀ j p, workers ps !! j = Some p → finished p = true) →
  forallb finished (workers ps) = true.
Proof.
  intros H. apply forallb_forall. intros p Hp.
  apply list_elem_of_In, list_elem_of_lookup in Hp as [j Hj]. by eapply H.
Qed.

End PoolResult.

(** C4, as stated, fails.  Three targets; the write to probe 222 raises.
    [pool.map] re-raises that exception in [main]: there is no list of
    outcomes, for any of the three targets. *)
Lemma pool_map_reraises_worker_error :
  (pool_map (write_fails_on 222) (example_nRF [111; 222; 333])
     (turn 0 30 ++ turn 1 30 ++ turn 2 30) initial_world).1
  = Some (Raised APIError) ∧
  ¬ ∃ outs, (pool_map (write_fails_on 222) (example_nRF [111; 222; 333])
               (turn 0 30 ++ turn 1 30 ++ turn 2 30) initial_world).1
            = Some (Ok outs).
Proof.
  assert (H : (pool_map (write_fails_on 222) (example_nRF [111; 222; 333])
                 (turn 0 30 ++ turn 1 30 ++ turn 2 30) initial_world).1
              = Some (Raised APIError)) by (vm_compute; reflexivity).
  split; [exact H|]. intros [outs Houts]. rewrite H in Houts. discriminate.
Qed.

(** ** Who calls which [MultiAPI] object *)

Section Exclusive.

Variable api : transport.

Lemma confined_ext device {A} (p : prog A) (own own' : handle → Prop) :
  (∀ h, own h ↔ own' h) → confined device p own → confined device p own'.
Proof.
  revert own own'.
  induction p as [a|e|fam k IH|d h k IH|d k IH|h m k IH]; intros own own' Hiff; simpl; try done.
  - intros Hp x. eapply IH; [|apply Hp]. intros y. simpl. rewrite Hiff. tauto.
  - intros (Hd & Hh & Hk). split; [done|]. split; [by apply Hiff|]. by eapply IH.
  - intros (Hd & Hk). split; [done|]. intros x Hx. eapply IH; [done|].
    by apply Hk, Hiff.
  - intros (Hh & Hk). split; [by apply Hiff|]. intros v. by eapply IH.
Qed.

Lemma confined_bind device {A B} (p : prog A) (f : A → prog B) own :
  confined device p own → (∀ a own', confined device (f a) own') →
  confined device (p ≫= f) own.
Proof.
  unfold mbind, prog_mbind. intros Hp Hf. revert own Hp.
  induction p as [a|e|fam k IH|d h k IH|d k IH|h m k IH]; intros own Hp; simpl in *; try done.
  - intros x. by apply IH.
  - destruct Hp as (Hd & Hh & Hk). repeat split; auto.
  - destruct Hp as (Hd & Hk). split; [done|]. intros x Hx. by apply IH, Hk.
  - destruct Hp as (Hh & Hk). split; [done|]. intros v. by apply IH.
Qed.

Lemma confined_for_each device {A} (l : list A) body own :
  (∀ x own', confined device (body x) own') → confined device (for_each l body) own.
Proof.
  intros Hbody. revert own. induction l as [|x l IH]; intros own; simpl; [done|].
  apply confined_bind; [apply Hbody | intros _ own'; apply IH].
Qed.

(** [self.nRF5_instances[device].m(...)], the shape of every transport
    call of a worker after the connect. *)
Lemma confined_get_call device {B} m (f : list Z → prog B) own :
  (∀ v own', confined device (f v) own') →
  confined device (h ← nRF5_instances_get device; call h m ≫= f) own.
Proof. intros Hf. simpl. split; [done|]. intros h Hh. split; [done|]. intros v. apply Hf. Qed.

Lemma confined_when device c body own :
  confined device body own → confined device (when c body) own.
Proof. by destruct c. Qed.

Lemma program_segment_confined self device segment own :
  confined device (program_segment self device segment) own.
Proof.
  destruct segment as [start_addr end_addr]. unfold program_segment.
  apply confined_bind.
  { apply confined_when, confined_for_each. intros page own'.
    by apply confined_get_call. }
  intros _ own1. apply confined_get_call. intros _ own2.
  apply confined_bind.
  { apply confined_when, confined_get_call. intros read_data own3.
    destruct (_byte_lists_equal _ read_data) as [[]|e]; done. }
  intros _ own3. apply confined_when. by apply confined_get_call.
Qed.

Lemma program_device_confined self device own :
  confined device (_program_device self device) own.
Proof.
  unfold _program_device.
  apply confined_bind; [by apply confined_when, confined_get_call|]. intros _ own1.
  apply confined_bind; [by apply confined_when, confined_get_call|]. intros _ own2.
  apply confined_for_each. intros segment own3. apply program_segment_confined.
Qed.

Lemma cleanup_confined self device own : confined device (_cleanup self device) own.
Proof.
  unfold _cleanup. apply confined_get_call. intros _ own1. by apply confined_get_call.
Qed.

Lemma connect_confined self device own :
  confined device (_connect_to_device self device) own.
Proof.
  unfold _connect_to_device. simpl. intros h.
  split; [done|]. split; [by right|]. split; [done|].
  intros h1 Hh1. split; [done|]. intros _. split; [done|].
  intros h2 Hh2. by split.
Qed.

(** A worker keeps to its own key and to objects it constructed or found
    under that key. *)
Lemma perform_command_confined self device own :
  confined device (perform_command self device) own.
Proof.
  unfold perform_command.
  apply confined_bind; [apply connect_confined|]. intros _ own1.
  apply confined_bind; [apply program_device_confined|]. intros _ own2.
  apply cleanup_confined.
Qed.

End Exclusive.

Section Invariant.

Variable api : transport.
Variable targets : list Z.
Hypothesis targets_distinct : NoDup targets.

Lemma created_by_app tr evs t h :
  created_by (tr ++ evs) t h ↔ created_by tr t h ∨ created_by evs t h.
Proof.
  unfold created_by. setoid_rewrite elem_of_app. split.
  - intros (fam & [H|H]); [left | right]; by exists fam.
  - intros [(fam & H)|(fam & H)]; exists fam; auto.
Qed.

Lemma created_by_new t' h' fam t h :
  created_by [EvNew t' h' fam] t h ↔ t = t' ∧ h = h'.
Proof.
  unfold created_by. setoid_rewrite list_elem_of_singleton. split.
  - by intros (fam' & [= -> -> _]).
  - intros [-> ->]. by exists fam.
Qed.

Lemma created_by_call t' h' m t h : ¬ created_by [EvCall t' h' m] t h.
Proof. unfold created_by. setoid_rewrite list_elem_of_singleton. by intros (fam & ?). Qed.

(** One node of worker [i] keeps the world's invariant, keeps the worker
    confined, and does not change what the other workers own. *)
Lemma step_inv {A} i device (p : prog A) w :
  targets !! i = Some device →
  world_inv targets w →
  confined device p (created_by (trace w) (Worker i)) →
  world_inv targets (step api (Worker i) p w).2 ∧
  confined device (step api (Worker i) p w).1
    (created_by (trace (step api (Worker i) p w).2) (Worker i)) ∧
  (∀ j h, j ≠ i →
     created_by (trace (step api (Worker i) p w).2) (Worker j) h ↔
     created_by (trace w) (Worker j) h).
Proof.
  intros Hi [Halloc Hcreator Hdict Hcalls] Hp.
  destruct p as [a|e|fam k|d h k|d k|h m k]; simpl in *.
  - done.
  - done.
  - (* MultiAPI.MultiAPI(family) *)
    split; [split; simpl|split].
    + intros t h fam' [Hin|Hin]%elem_of_app.
      * apply Halloc in Hin. lia.
      * apply list_elem_of_singleton in Hin. injection Hin as _ -> _. lia.
    + intros t t' h. rewrite !created_by_app, !created_by_new.
      intros [H1|[Ht Hh]] [H2|[Ht' Hh']]; [by eapply Hcreator | | | congruence].
      * destruct H1 as (fam' & H1). apply Halloc in H1. lia.
      * destruct H2 as (fam' & H2). apply Halloc in H2. lia.
    + intros j dj h Hj Hlook. apply created_by_app. left. by eapply Hdict.
    + intros j h m [Hin|Hin]%elem_of_app.
      * apply created_by_app. left. by eapply Hcalls.
      * by apply list_elem_of_singleton in Hin.
    + eapply confined_ext; [|apply Hp]. intros h. simpl.
      rewrite created_by_app, created_by_new.
      split; [intros [?|?]; auto | intros [?|[_ ?]]; auto].
    + intros j h Hne. rewrite created_by_app, created_by_new.
      split; [intros [?|[[= ?] _]]; [done | congruence] | auto].
  - (* self.nRF5_instances[device] = h *)
    destruct Hp as (-> & Hown & Hk).
    split; [split; simpl; try done|split; [done|done]].
    intros j dj h' Hj Hlook.
    destruct (decide (dj = device)) as [->|Hne].
    + rewrite lookup_insert_eq in Hlook. injection Hlook as <-.
      by rewrite (NoDup_lookup _ _ _ _ targets_distinct Hj Hi).
    + rewrite lookup_insert_ne in Hlook by done. by eapply Hdict.
  - (* self.nRF5_instances[device] *)
    destruct Hp as (-> & Hk).
    destruct (nRF5_instances w !! device) as [h|] eqn:Hlook; simpl.
    + split; [done|]. split; [|done]. apply Hk. by eapply Hdict.
    + done.
  - (* h.m(...) *)
    destruct Hp as (Hown & Hk).
    assert (Hw : world_inv targets
                   (World (next_handle w) (nRF5_instances w) (trace w ++ [EvCall (Worker i) h m]))).
    { split; simpl.
      - intros t h' fam [Hin|Hin]%elem_of_app; [by eapply Halloc|].
        by apply list_elem_of_singleton in Hin.
      - intros t t' h'. rewrite !created_by_app.
        intros [H1|H1] [H2|H2]; [by eapply Hcreator | | | ]; by apply created_by_call in H1 || by apply created_by_call in H2.
      - intros j dj h' Hj Hlook. apply created_by_app. left. by eapply Hdict.
      - intros j h' m' [Hin|Hin]%elem_of_app; apply created_by_app; left.
        + by eapply Hcalls.
        + apply list_elem_of_singleton in Hin. by injection Hin as -> -> _. }
    assert (Hsame : ∀ t' h', created_by (trace w ++ [EvCall (Worker i) h m]) t' h'
                             ↔ created_by (trace w) t' h').
    { intros t' h'. rewrite created_by_app. pose proof (created_by_call (Worker i) h m t' h').
      tauto. }
    destruct (api (trace w) h m) as [v|e]; simpl.
    + split; [done|]. split; [|by intros; apply Hsame].
      eapply confined_ext; [|apply Hk]. intros h'. by rewrite Hsame.
    + split; [done|]. split; [done|]. by intros; apply Hsame.
Qed.

Lemma pool_step_inv i ps w :
  pool_inv targets ps w →
  pool_inv targets (pool_step api i ps w).1 (pool_step api i ps w).2.
Proof.
  intros [Hlen Hw Hconf].
  pose proof (pool_step_workers api i ps w) as Hws.
  pose proof (pool_step_world api i ps w) as Hwd.
  destruct (workers ps !! i) as [p|] eqn:Hp.
  2: { split; [by rewrite Hws | by rewrite Hwd | rewrite Hws, Hwd; apply Hconf]. }
  pose proof (lookup_lt_Some _ _ _ Hp) as Hlt.
  destruct (lookup_lt_is_Some_2 targets i ltac:(lia)) as [device Hi].
  destruct (step_inv i device p w Hi Hw (Hconf _ _ _ Hi Hp)) as (Hw' & Hp' & Hsame).
  split; rewrite ?Hws, ?Hwd.
  - by rewrite length_insert.
  - done.
  - intros j dj q Hj Hq. destruct (decide (j = i)) as [->|Hne].
    + rewrite list_lookup_insert_eq in Hq by done. injection Hq as <-.
      rewrite Hi in Hj. by injection Hj as <-.
    + rewrite list_lookup_insert_ne in Hq by done.
      eapply confined_ext; [|by eapply Hconf].
      intros h. symmetry. by apply Hsame.
Qed.

Lemma run_pool_inv schedule ps w :
  pool_inv targets ps w →
  pool_inv targets (run_pool api schedule ps w).1 (run_pool api schedule ps w).2.
Proof.
  revert ps w. induction schedule as [|i schedule IH]; intros ps w Hinv; [done|].
  rewrite run_pool_cons. by apply IH, pool_step_inv.
Qed.

End Invariant.

Lemma initial_pool_inv nRF w : fresh_world w → pool_inv (snrs nRF) (initial_pool nRF) w.
Proof.
  intros [Hdict Htrace]. rewrite Forall_forall in Htrace. split.
  - simpl. apply length_map.
  - split.
    + intros t h fam Hin. by destruct (Htrace _ Hin).
    + intros t t' h (fam & Hin) (fam' & Hin').
      destruct (Htrace _ Hin) as [Ht _]. destruct (Htrace _ Hin') as [Ht' _].
      simpl in *. congruence.
    + intros i device h _. by rewrite Hdict, lookup_empty.
    + intros i h m Hin. by destruct (Htrace _ Hin).
  - intros i device p Hi Hp. simpl in Hp.
    apply list_lookup_fmap_Some in Hp as (device' & -> & Hd).
    rewrite Hi in Hd. injection Hd as <-. apply perform_command_confined.
Qed.

(** C9, as the code has it.  The [MultiAPI] objects are kept in one dict
    keyed by target identifier.  When the identifiers of the target list
    are pairwise distinct, then under every interleaving of the workers
    each worker calls only the [MultiAPI] object it constructed itself,
    each object has one creator, and so no two workers ever call the
    same object. *)
Theorem distinct_targets_never_share_a_handle
    (api : transport) (nRF : nRF5MultiFlash) (schedule : list nat) (w : world) :
  NoDup (snrs nRF) → fresh_world w →
  let tr := trace (run_pool api schedule (initial_pool nRF) w).2 in
  (∀ i h m, EvCall (Worker i) h m ∈ tr → created_by tr (Worker i) h) ∧
  (∀ t t' h, created_by tr t h → created_by tr t' h → t = t') ∧
  ¬ handle_shared tr.
Proof.
  intros Hdistinct Hfresh tr.
  destruct (run_pool_inv api (snrs nRF) Hdistinct schedule _ _ (initial_pool_inv nRF w Hfresh))
    as [_ [_ Hcreator _ Hcalls] _].
  fold tr in Hcreator, Hcalls. split; [done|]. split; [done|].
  intros (i & j & h & m & m' & Hne & Hi & Hj).
  apply Hne. apply Hcalls in Hi, Hj.
  by injection (Hcreator _ _ _ Hi Hj).
Qed.

(** Two distinct targets, the workers taking turns node by node. *)
Lemma distinct_targets_never_share_a_handle_witness :
  NoDup (snrs (example_nRF [111; 222])) ∧ fresh_world initial_world ∧
  ¬ handle_shared
      (trace (run_pool probes_ok (concat (replicate 30 [0; 1]%nat))
                (initial_pool (example_nRF [111; 222])) initial_world).2).
Proof.
  assert (Hd : NoDup (snrs (example_nRF [111; 222]))).
  { simpl. apply NoDup_cons. split; [|apply NoDup_singleton].
    rewrite list_elem_of_singleton. discriminate. }
  assert (Hf : fresh_world initial_world) by (split; [reflexivity | constructor]).
  split; [exact Hd|]. split; [exact Hf|].
  exact (proj2 (proj2 (distinct_targets_never_share_a_handle probes_ok
                         (example_nRF [111; 222]) (concat (replicate 30 [0; 1]%nat))
                         initial_world Hd Hf))).
Defined.

(** C9, as stated, fails.  The same identifier twice: both workers store
    their object under the one key [7], the later store wins, and from
    then on both call the second object; the first is never opened. *)
Lemma duplicate_targets_share_a_handle :
  trace (run_pool probes_ok [0; 0; 1; 1; 0; 0; 1; 1]%nat
           (initial_pool (example_nRF [7; 7])) initial_world).2
  = [EvNew (Worker 0) 0 lit_NRF51;
     EvNew (Worker 1) 1 lit_NRF51;
     EvCall (Worker 0) 1 open;
     EvCall (Worker 1) 1 open] ∧
  handle_shared
    (trace (run_pool probes_ok [0; 0; 1; 1; 0; 0; 1; 1]%nat
              (initial_pool (example_nRF [7; 7])) initial_world).2).
Proof.
  assert (H : trace (run_pool probes_ok [0; 0; 1; 1; 0; 0; 1; 1]%nat
                       (initial_pool (example_nRF [7; 7])) initial_world).2
              = [EvNew (Worker 0) 0 lit_NRF51;
                 EvNew (Worker 1) 1 lit_NRF51;
                 EvCall (Worker 0) 1 open;
                 EvCall (Worker 1) 1 open]) by (vm_compute; reflexivity).
  split; [exact H|]. rewrite H.
  exists 0%nat, 1%nat, 1%nat, open, open.
  split; [lia|]. rewrite !elem_of_cons. auto 6.
Qed.

(** ** Target resolution *)

Section Resolution.

Variable api : transport.
Variable IntelHex_load : string → result IntelHex.

(** [__init__] returns the targets [init_snrs] resolved, in the world
    [init_snrs] left. *)
Lemma init_keeps_resolved_targets args w nRF w' :
  run api MainThread (__init__ IntelHex_load args) w = (Ok nRF, w') →
  run api MainThread (init_snrs args) w = (Ok (snrs nRF), w').
Proof.
  unfold __init__. rewrite run_bind.
  destruct (run api MainThread (init_snrs args) w) as [[l|e] w1]; [|done].
  rewrite run_bind. destruct (IntelHex_load (args_file args)) as [hex|e]; simpl; [|done].
  by intros [= <- <-].
Qed.

(** The enumeration through the scratch object, every call succeeding. *)
Lemma init_snrs_enumerates args w found :
  not_list (args_snrs args) = true →
  let h := next_handle w in
  let tr1 := trace w ++ [EvNew MainThread h lit_NRF51] in
  let tr2 := tr1 ++ [EvCall MainThread h open] in
  let tr3 := tr2 ++ [EvCall MainThread h enum_emu_snr] in
  let tr4 := tr3 ++ [EvCall MainThread h close] in
  is_ok (api tr1 h open) = true →
  api tr2 h enum_emu_snr = Ok found →
  is_ok (api tr3 h close) = true →
  run api MainThread (init_snrs args) w = (Ok found, World (S h) (nRF5_instances w) tr4).
Proof.
  intros Hnot h tr1 tr2 tr3 tr4 Hopen Henum Hclose.
  unfold init_snrs. rewrite Hnot. unfold MultiAPI. rewrite run_bind. cbn [run].
  rewrite run_call. cbn [trace next_handle nRF5_instances]. fold h tr1.
  destruct (api tr1 h open); [|done].
  rewrite run_call. cbn [trace next_handle nRF5_instances]. fold tr2. rewrite Henum.
  rewrite run_call. cbn [trace next_handle nRF5_instances]. fold tr3.
  destruct (api tr3 h close); [|done]. done.
Qed.

(** [__init__] leaves the world fresh: when [main] starts the pool, the
    dict is empty and only [main] has used the transport. *)
Lemma init_keeps_world_fresh args w :
  fresh_world w →
  fresh_world (run api MainThread (__init__ IntelHex_load args) w).2.
Proof.
  intros [Hdict Htrace].
  assert (Hgrow : ∀ evs,
            Forall (fun e => event_thread e = MainThread ∧ event_handle e = next_handle w) evs →
            fresh_world (World (S (next_handle w)) (nRF5_instances w) (trace w ++ evs))).
  { intros evs Hevs. split; [done|]. simpl. apply Forall_app. split.
    - eapply Forall_impl; [exact Htrace|]. intros e [? ?]. split; [done | lia].
    - eapply Forall_impl; [exact Hevs|]. intros e [? ->]. split; [done | lia]. }
  assert (Hrest : ∀ l w1, fresh_world w1 →
            fresh_world (run api MainThread
                           (hex_file ← lift (IntelHex_load (args_file args));
                            mret {| erase_all := args_eraseall args;
                                    family := init_family args;
                                    file := args_file args;
                                    sectors_erase := args_sectorserase args;
                                    sectors_and_uicr_erase := args_sectorsanduicrerase args;
                                    snrs := l;
                                    systemreset := args_systemreset args;
                                    verify := args_verify args;
                                    PAGE_SIZE := init_PAGE_SIZE (init_family args);
                                    hex_file := hex_file |}) w1).2).
  { intros l w1 Hw1. rewrite run_bind. by destruct (IntelHex_load (args_file args)). }
  unfold __init__. rewrite run_bind. unfold init_snrs.
  destruct (not_list (args_snrs args)); [|by apply Hrest].
  unfold MultiAPI. rewrite run_bind. cbn [run].
  rewrite run_call. cbn [trace next_handle nRF5_instances].
  destruct (api _ _ open).
  2: { cbn [snd]. rewrite <- app_assoc. apply Hgrow. by repeat constructor. }
  rewrite run_call. cbn [trace next_handle nRF5_instances].
  destruct (api _ _ enum_emu_snr) as [found|].
  2: { cbn [snd]. rewrite <- !app_assoc. apply Hgrow. by repeat constructor. }
  rewrite run_call. cbn [trace next_handle nRF5_instances].
  destruct (api _ _ close).
  2: { cbn [snd]. rewrite <- !app_assoc. apply Hgrow. by repeat constructor. }
  cbn [run mret prog_mret]. apply Hrest.
  rewrite <- !app_assoc. apply Hgrow. by repeat constructor.
Qed.

End Resolution.

(** C8, as the code has it.  A non-empty explicit target list is taken
    unchanged (same order, duplicates kept) and the transport is not
    touched.  For an empty or absent list, [__init__] constructs a
    scratch [MultiAPI] for the fixed family ['NRF51'] (whatever family
    the request names), opens it, takes the enumerated serial numbers as
    the targets and closes it; every call the pool makes afterwards is a
    worker's, so the scratch session is closed before any programming
    begins. *)
Theorem target_resolution
    (api : transport) (IntelHex_load : string → result IntelHex)
    (args : Namespace) (w : world) :
  (∀ l, args_snrs args = Some l → l ≠ [] →
     run api MainThread (init_snrs args) w = (Ok l, w) ∧
     ∀ nRF w', run api MainThread (__init__ IntelHex_load args) w = (Ok nRF, w') →
               snrs nRF = l ∧ w' = w) ∧
  (not_list (args_snrs args) = true →
     let h := next_handle w in
     let tr1 := trace w ++ [EvNew MainThread h lit_NRF51] in
     let tr2 := tr1 ++ [EvCall MainThread h open] in
     let tr3 := tr2 ++ [EvCall MainThread h enum_emu_snr] in
     let tr4 := tr3 ++ [EvCall MainThread h close] in
     ∀ found,
       is_ok (api tr1 h open) = true →
       api tr2 h enum_emu_snr = Ok found →
       is_ok (api tr3 h close) = true →
       run api MainThread (init_snrs args) w
         = (Ok found, World (S h) (nRF5_instances w) tr4) ∧
       ∀ nRF w', run api MainThread (__init__ IntelHex_load args) w = (Ok nRF, w') →
         snrs nRF = found ∧ w' = World (S h) (nRF5_instances w) tr4 ∧
         ∀ schedule, ∃ evs,
           trace (pool_map api nRF schedule w').2 = tr4 ++ evs ∧
           Forall (fun e => is_worker (event_thread e) = true) evs).
Proof.
  split.
  - intros l Hl Hne.
    assert (Hrun : run api MainThread (init_snrs args) w = (Ok l, w)).
    { unfold init_snrs. rewrite Hl. by destruct l. }
    split; [done|]. intros nRF w' Hinit.
    apply init_keeps_resolved_targets in Hinit. rewrite Hrun in Hinit.
    by injection Hinit as <- <-.
  - intros Hnot h tr1 tr2 tr3 tr4 found Hopen Henum Hclose.
    pose proof (init_snrs_enumerates api args w found Hnot Hopen Henum Hclose) as Hrun.
    fold h tr1 tr2 tr3 tr4 in Hrun. split; [done|]. intros nRF w' Hinit.
    apply init_keeps_resolved_targets in Hinit. rewrite Hrun in Hinit.
    injection Hinit as <- <-. split; [done|]. split; [done|].
    intros schedule. unfold pool_map.
    destruct (run_pool_trace api schedule (initial_pool nRF)
                (World (S h) (nRF5_instances w) tr4)) as (evs & Htr & Hevs).
    exists evs. split; [|done].
    by destruct (run_pool api schedule _ _).
Qed.

(** Both cases on the two-probe transport: targets given, and not. *)
Lemma target_resolution_witness :
  run probes_ok MainThread (init_snrs (example_args None (Some [7; 7; 3]))) initial_world
  = (Ok [7; 7; 3], initial_world) ∧
  run probes_ok MainThread (init_snrs (example_args None None)) initial_world
  = (Ok [111; 222],
     World 1 ∅ [EvNew MainThread 0 lit_NRF51; EvCall MainThread 0 open;
                EvCall MainThread 0 enum_emu_snr; EvCall MainThread 0 close]).
Proof.
  split.
  - apply (proj1 (target_resolution probes_ok example_load
                    (example_args None (Some [7; 7; 3])) initial_world) [7; 7; 3]);
      [reflexivity | discriminate].
  - apply (proj2 (target_resolution probes_ok example_load
                    (example_args None None) initial_world) eq_refl [111; 222]);
      reflexivity.
Defined.

(** C8, as stated, fails.  The request names family NRF52 and no
    targets: the enumeration session is constructed for ['NRF51'], not
    for the family of the request. *)
Lemma enumeration_ignores_family :
  ∃ nRF w,
    run probes_ok MainThread
      (__init__ example_load (example_args (Some (PyStr 23 "NRF52")) None)) initial_world
    = (Ok nRF, w) ∧
    str_val (family nRF) = "NRF52" ∧
    trace w = [EvNew MainThread 0 lit_NRF51; EvCall MainThread 0 open;
               EvCall MainThread 0 enum_emu_snr; EvCall MainThread 0 close] ∧
    py_eq lit_NRF51 (family nRF) = false.
Proof. eexists _, _. repeat split; reflexivity. Qed.

(** ** The erase loop in the worker *)

Section EraseLoop.

Variable api : transport.

Lemma erased_pages_app tr evs :
  erased_pages (tr ++ evs) = erased_pages tr ++ erased_pages evs.
Proof. unfold erased_pages. apply omap_app. Qed.

Lemma erased_pages_none evs :
  Forall (event_calls not_erase_page) evs → erased_pages evs = [].
Proof.
  induction 1 as [|e evs He _ IH]; [done|]. unfold erased_pages in *.
  destruct e as [|t h []]; simpl in *; try done. by destruct (He addr).
Qed.

(** A program that cannot call [erase_page] erases nothing. *)
Lemma no_erase_run {A} t (p : prog A) w :
  calls_only not_erase_page p →
  erased_pages (trace (run api t p w).2) = erased_pages (trace w).
Proof.
  intros Hp. destruct (calls_only_run api not_erase_page t p w Hp) as (evs & -> & Hevs).
  by rewrite erased_pages_app, (erased_pages_none evs), app_nil_r.
Qed.

(** The loop of lines 120-121, when it returns, has erased the pages it
    was given, in order. *)
Lemma erase_loop_run device PAGE_SIZE pages t : ∀ w w',
  run api t (for_each pages (fun page =>
               h ← nRF5_instances_get device;
               call h (erase_page (page * PAGE_SIZE)) ;; mret tt)) w = (Ok tt, w') →
  erased_pages (trace w') = erased_pages (trace w) ++ map (fun page => page * PAGE_SIZE) pages.
Proof.
  induction pages as [|page pages IH]; intros w w' Hrun; cbn [for_each] in Hrun.
  - injection Hrun as <-. by rewrite app_nil_r.
  - rewrite run_bind, run_get in Hrun.
    destruct (nRF5_instances w !! device) as [h|]; [|done].
    rewrite run_call in Hrun. destruct (api (trace w) h _); [|done].
    cbn [run mret prog_mret] in Hrun. apply IH in Hrun. rewrite Hrun.
    cbn [trace map]. by rewrite erased_pages_app, <- app_assoc.
Qed.

End EraseLoop.

(** X1.  With [--sectorserase] or [--sectorsanduicrerase], a pass of the
    segment loop that returns has called [erase_page] on exactly the
    addresses of [erase_plan], in that order, and on nothing else. *)
Theorem segment_erase_follows_plan
    (api : transport) (self : nRF5MultiFlash) (device : Z) (t : thread)
    (start_addr end_addr : Z) (w w' : world) :
  sectors_erase self || sectors_and_uicr_erase self = true →
  run api t (program_segment self device (start_addr, end_addr)) w = (Ok tt, w') →
  erased_pages (trace w')
  = erased_pages (trace w) ++ erase_plan (PAGE_SIZE self) start_addr end_addr.
Proof.
  intros Herase Hrun. unfold program_segment in Hrun. rewrite Herase in Hrun.
  rewrite run_bind in Hrun. unfold when at 1 in Hrun.
  match type of Hrun with context [run api t (for_each ?l ?b) w] =>
    destruct (run api t (for_each l b) w) as [[[]|e] w1] eqn:Hloop; [|done]
  end.
  apply erase_loop_run in Hloop. unfold erase_plan. rewrite <- Hloop.
  match type of Hrun with run api t ?p w1 = _ =>
    assert (Hp : calls_only not_erase_page p)
      by (repeat calls_only_step; by intros ?);
    pose proof (no_erase_run api t p w1 Hp) as Hrest
  end.
  rewrite Hrun in Hrest. done.
Qed.

(** The second segment of the example image, after the first. *)
Lemma segment_erase_follows_plan_witness :
  erased_pages
    (trace (run probes_ok (Worker 0)
              (program_segment (example_nRF [7]) 7 (0x2000, 0x2002))
              (run probes_ok (Worker 0) (_connect_to_device (example_nRF [7]) 7)
                 initial_world).2).2)
  = [] ++ erase_plan 0x400 0x2000 0x2002.
Proof.
  apply (segment_erase_follows_plan probes_ok (example_nRF [7]) 7 (Worker 0) 0x2000 0x2002
           (run probes_ok (Worker 0) (_connect_to_device (example_nRF [7]) 7)
              initial_world).2).
  - reflexivity.
  - vm_compute. reflexivity.
Defined.

(** X2.  With [--systemreset], a [_program_device] that returns has
    called [sys_reset] as many times as the image has segments. *)
Theorem system_reset_count_is_segment_count
    (api : transport) (self : nRF5MultiFlash) (device : Z) (t : thread) (w w' : world) :
  systemreset self = true →
  run api t (_program_device self device) w = (Ok tt, w') →
  count_events is_sys_reset (trace w')
  = (count_events is_sys_reset (trace w) + length (segments (hex_file self)))%nat.
Proof. apply program_device_resets_per_segment. Qed.

Lemma system_reset_count_is_segment_count_witness :
  count_events is_sys_reset
    (trace (run probes_ok (Worker 0) (_program_device (example_nRF [7]) 7)
              (run probes_ok (Worker 0) (_connect_to_device (example_nRF [7]) 7)
                 initial_world).2).2)
  = (0 + 2)%nat.
Proof.
  apply (system_reset_count_is_segment_count probes_ok (example_nRF [7]) 7 (Worker 0)
           (run probes_ok (Worker 0) (_connect_to_device (example_nRF [7]) 7)
              initial_world).2).
  - reflexivity.
  - vm_compute. reflexivity.
Defined.

(** X3.  [nRF5MultiFlash.__init__] does not check the erase flags: given
    a namespace with [eraseall] and [sectorserase] both set (which the
    parser never produces), it builds the object, and a worker then does
    both the recover and the page erases. *)
Theorem init_accepts_conflicting_erase_flags :
  ∃ nRF w,
    run probes_ok MainThread
      (__init__ example_load
         {| args_eraseall := true; args_family := None; args_file := "app.hex";
            args_sectorserase := true; args_sectorsanduicrerase := false;
            args_snrs := Some [7]; args_systemreset := false; args_verify := false |})
      initial_world = (Ok nRF, w) ∧
    erase_all nRF = true ∧ sectors_erase nRF = true ∧
    trace (run probes_ok (Worker 0) (perform_command nRF 7) w).2
    = [EvNew (Worker 0) 0 lit_NRF51;
       EvCall (Worker 0) 0 open;
       EvCall (Worker 0) 0 (connect_to_emu_with_snr 7);
       EvCall (Worker 0) 0 recover;
       EvCall (Worker 0) 0 (erase_page 0x1000);
       EvCall (Worker 0) 0 (write 0x1000 [0; 1; 2; 3] true);
       EvCall (Worker 0) 0 (erase_page 0x2000);
       EvCall (Worker 0) 0 (write 0x2000 [0; 1] true);
       EvCall (Worker 0) 0 disconnect_from_emu;
       EvCall (Worker 0) 0 close].
Proof.
  eexists _, _. split; [reflexivity|]. split; [reflexivity|]. split; [reflexivity|].
  vm_compute. reflexivity.
Qed.

(** ** The three outcomes of the verify comparison *)

Section ByteListOutcomes.

Lemma byte_lists_equal_loop_tail x data y read_data k n :
  byte_lists_equal_loop (x :: data) (y :: read_data) (seq (S k) n)
  = byte_lists_equal_loop data read_data (seq k n).
Proof.
  revert k. induction n as [|n IH]; intros k; [done|].
  cbn [seq byte_lists_equal_loop]. rewrite IH. unfold getitem. by cbn [lookup list_lookup].
Qed.

Lemma byte_lists_equal_nil read_data : _byte_lists_equal [] read_data = Ok true.
Proof. done. Qed.

Lemma byte_lists_equal_short x data : _byte_lists_equal (x :: data) [] = Raised IndexError.
Proof. done. Qed.

Lemma byte_lists_equal_cons x data y read_data :
  _byte_lists_equal (x :: data) (y :: read_data)
  = if negb (Z.eqb x y) then Ok false else _byte_lists_equal data read_data.
Proof.
  unfold _byte_lists_equal. cbn [length seq byte_lists_equal_loop].
  rewrite byte_lists_equal_loop_tail. unfold getitem. by cbn [lookup list_lookup].
Qed.

Lemma byte_lists_equal_true data : ∀ read_data,
  _byte_lists_equal data read_data = Ok true ↔ data `prefix_of` read_data.
Proof.
  induction data as [|x data IH]; intros read_data.
  - split; [intros _; apply prefix_nil | done].
  - destruct read_data as [|y read_data].
    + rewrite byte_lists_equal_short. split; [done|].
      intros [k Hk]. done.
    + rewrite byte_lists_equal_cons. destruct (Z.eqb_spec x y) as [->|Hne]; simpl.
      * rewrite IH. split; [apply prefix_cons | apply prefix_cons_inv_2].
      * split; [done|]. intros H. by apply prefix_cons_inv_1 in H.
Qed.

Lemma byte_lists_equal_index_error data : ∀ read_data e,
  _byte_lists_equal data read_data = Raised e ↔
  e = IndexError ∧ read_data `prefix_of` data ∧ (length read_data < length data)%nat.
Proof.
  induction data as [|x data IH]; intros read_data e.
  - rewrite byte_lists_equal_nil. split; [done|]. simpl. intros (_ & _ & ?). lia.
  - destruct read_data as [|y read_data].
    + rewrite byte_lists_equal_short. split.
      * intros [= <-]. split; [done|]. split; [apply prefix_nil | simpl; lia].
      * by intros (-> & _).
    + rewrite byte_lists_equal_cons. destruct (Z.eqb_spec x y) as [->|Hne]; simpl.
      * rewrite IH. split; intros (-> & Hp & Hl); (split; [done|]); split.
        -- by apply prefix_cons.
        -- lia.
        -- by apply prefix_cons_inv_2 in Hp.
        -- lia.
      * split; [done|]. intros (_ & Hp & _). apply prefix_cons_inv_1 in Hp. congruence.
Qed.

Lemma byte_lists_equal_false data : ∀ read_data,
  _byte_lists_equal data read_data = Ok false ↔
  ∃ i x y, data !! i = Some x ∧ read_data !! i = Some y ∧ x ≠ y ∧
           take i data = take i read_data.
Proof.
  induction data as [|x data IH]; intros read_data.
  - rewrite byte_lists_equal_nil. split; [done|]. by intros (i & x & y & Hx & _).
  - destruct read_data as [|y read_data].
    + rewrite byte_lists_equal_short. split; [done|]. by intros (i & x' & y & _ & Hy & _).
    + rewrite byte_lists_equal_cons. destruct (Z.eqb_spec x y) as [->|Hne]; simpl.
      * rewrite IH. split.
        -- intros (i & x' & y' & Hx & Hy & Hne & Htake).
           exists (S i), x', y'. simpl. by rewrite Htake.
        -- intros ([|i] & x' & y' & Hx & Hy & Hne & Htake); simpl in *; [congruence|].
           exists i, x', y'. repeat split; try done. congruence.
      * split; [|done]. intros _. by exists 0%nat, x, y.
Qed.

End ByteListOutcomes.

(** X5.  The comparison has three outcomes, each with its cause: it
    returns [True] exactly when [data] is a prefix of [read_data]; it
    returns [False] exactly when the two lists differ at some index they
    both have and agree before it (however long either list is); it
    raises, and then always [IndexError], exactly when [read_data] is a
    proper prefix of [data]. *)
Theorem byte_lists_equal_outcomes (data read_data : list Z) :
  (_byte_lists_equal data read_data = Ok true ↔ data `prefix_of` read_data) ∧
  (_byte_lists_equal data read_data = Ok false ↔
     ∃ i x y, data !! i = Some x ∧ read_data !! i = Some y ∧ x ≠ y ∧
              take i data = take i read_data) ∧
  (∀ e, _byte_lists_equal data read_data = Raised e ↔
        e = IndexError ∧ read_data `prefix_of` data ∧
        (length read_data < length data)%nat).
Proof.
  split; [apply byte_lists_equal_true|].
  split; [apply byte_lists_equal_false | apply byte_lists_equal_index_error].
Qed.

(** X6.  Whatever the segment, every address of the erase plan is a
    multiple of the page size and lies less than one page below the
    segment's start and not above its end; for [start_addr <= end_addr]
    the plan has at most [(end_addr - start_addr) / PAGE_SIZE + 2]
    pages; and a segment whose end lies in an earlier page than its
    start erases nothing. *)
Theorem erase_plan_stays_near_segment (PAGE_SIZE start_addr end_addr : Z) :
  0 < PAGE_SIZE →
  (∀ p, p ∈ erase_plan PAGE_SIZE start_addr end_addr →
        p mod PAGE_SIZE = 0 ∧ start_addr - PAGE_SIZE < p ≤ end_addr) ∧
  (start_addr ≤ end_addr →
     Z.of_nat (length (erase_plan PAGE_SIZE start_addr end_addr))
     ≤ (end_addr - start_addr) / PAGE_SIZE + 2) ∧
  (end_addr / PAGE_SIZE < start_addr / PAGE_SIZE →
     erase_plan PAGE_SIZE start_addr end_addr = []).
Proof.
  intros Hps.
  pose proof (Z.mul_div_le start_addr PAGE_SIZE Hps) as Hs1.
  pose proof (Z.mul_succ_div_gt start_addr PAGE_SIZE Hps) as Hs2.
  pose proof (Z.mul_div_le end_addr PAGE_SIZE Hps) as He1.
  pose proof (Z.mul_succ_div_gt end_addr PAGE_SIZE Hps) as He2.
  split; [|split].
  - intros p (page & -> & Hpage)%elem_of_erase_plan. split.
    + by apply Z_mod_mult.
    + nia.
  - intros Hle. unfold erase_plan, segment_pages. rewrite length_map, range_length.
    pose proof (Z.mul_div_le (end_addr - start_addr) PAGE_SIZE Hps) as Hd1.
    pose proof (Z.mul_succ_div_gt (end_addr - start_addr) PAGE_SIZE Hps) as Hd2.
    assert (start_addr / PAGE_SIZE ≤ end_addr / PAGE_SIZE) by (apply Z.div_le_mono; lia).
    rewrite Z2Nat.id by lia. nia.
  - intros Hlt. unfold erase_plan, segment_pages. rewrite range_seqZ.
    by rewrite seqZ_nil by lia.
Qed.

(** An unaligned segment across a page boundary, page size [0x400]. *)
Lemma erase_plan_stays_near_segment_witness :
  0 < 0x400 ∧
  ∀ p, p ∈ erase_plan 0x400 0x13F0 0x1410 →
       p mod 0x400 = 0 ∧ 0x13F0 - 0x400 < p ≤ 0x1410.
Proof.
  split; [lia|].
  apply (proj1 (erase_plan_stays_near_segment 0x400 0x13F0 0x1410 ltac:(lia))).
Defined.

(** ** The order of a worker's calls *)

Section Script.

Variable api : transport.
Variable t : thread.
Variable device : Z.

Lemma follows_ret {A} (a : A) : follows api t device (Ret a) [].
Proof.
  intros w h Hh. simpl. split; [done|]. split; [done|].
  exists []. by rewrite app_nil_r.
Qed.

Lemma follows_raise {A} e : follows api t device (@Raise A e) [].
Proof.
  intros w h Hh. simpl. split; [done|]. split; [done|].
  exists []. by rewrite app_nil_r.
Qed.

Lemma follows_bind {A B} (p : prog A) (f : A → prog B) script1 script2 :
  follows api t device p script1 →
  (∀ a, follows api t device (f a) script2) →
  follows api t device (p ≫= f) (script1 ++ script2).
Proof.
  intros Hp Hf w h Hh. rewrite run_bind.
  destruct (Hp w h Hh) as (Hn1 & Hd1 & called1 & Ht1 & Hpre1 & Hok1).
  destruct (run api t p w) as [[a|e] w1]; simpl in *.
  - specialize (Hok1 eq_refl) as ->.
    destruct (Hf a w1 h) as (Hn2 & Hd2 & called2 & Ht2 & Hpre2 & Hok2); [by rewrite Hd1|].
    split; [congruence|]. split; [congruence|].
    exists (script1 ++ called2). rewrite Ht2, Ht1, map_app, app_assoc.
    split; [done|]. split; [by apply prefix_app|].
    intros Hok. by rewrite (Hok2 Hok).
  - split; [done|]. split; [done|]. exists called1.
    split; [done|]. split; [by apply prefix_app_r | done].
Qed.

(** [self.nRF5_instances[device].m(...)] and what follows it. *)
Lemma follows_get_call {B} m (f : list Z → prog B) script :
  (∀ v, follows api t device (f v) script) →
  follows api t device (h ← nRF5_instances_get device; call h m ≫= f) (m :: script).
Proof.
  intros Hf w h Hh. rewrite run_get, Hh, run_call.
  destruct (api (trace w) h m) as [v|e].
  - destruct (Hf v (World (next_handle w) (nRF5_instances w) (trace w ++ [EvCall t h m])) h Hh)
      as (Hn & Hd & called & Ht & Hpre & Hok).
    split; [done|]. split; [done|].
    exists (m :: called). rewrite Ht. simpl. rewrite <- app_assoc.
    split; [done|]. split; [by apply prefix_cons|].
    intros H. by rewrite (Hok H).
  - simpl. split; [done|]. split; [done|].
    exists [m]. split; [done|]. split; [|done].
    apply prefix_cons, prefix_nil.
Qed.

Lemma follows_when c body script :
  follows api t device body script →
  follows api t device (when c body) (if c then script else []).
Proof. destruct c; [done | intros _; apply follows_ret]. Qed.

Lemma follows_for_each {A} (l : list A) body (script : A → list method) :
  (∀ x, follows api t device (body x) (script x)) →
  follows api t device (for_each l body) (concat (map script l)).
Proof.
  intros Hbody. induction l as [|x l IH]; simpl; [apply follows_ret|].
  apply follows_bind; [apply Hbody | by intros _].
Qed.

Lemma concat_singletons {A B} (g : A → B) (l : list A) :
  concat (map (fun x => [g x]) l) = map g l.
Proof. induction l as [|x l IH]; simpl; [done | by rewrite IH]. Qed.

Lemma follows_program_segment self segment :
  follows api t device (program_segment self device segment) (segment_script self segment).
Proof.
  destruct segment as [start_addr end_addr]. unfold program_segment, segment_script.
  apply follows_bind.
  { apply follows_when. unfold erase_plan. rewrite map_map.
    rewrite <- (concat_singletons (fun page => erase_page (page * PAGE_SIZE self))).
    apply follows_for_each. intros page. apply follows_get_call. intros _. apply follows_ret. }
  intros _. apply follows_get_call. intros _.
  apply follows_bind.
  { apply follows_when. apply follows_get_call. intros read_data.
    destruct (_byte_lists_equal _ read_data) as [[]|e]; simpl;
      first [apply follows_ret | apply follows_raise]. }
  intros _. apply follows_when. apply follows_get_call. intros _. apply follows_ret.
Qed.

Lemma follows_program_device self :
  follows api t device (_program_device self device) (program_script self).
Proof.
  unfold _program_device, program_script.
  apply follows_bind.
  { apply follows_when. apply follows_get_call. intros _. apply follows_ret. }
  intros _. apply follows_bind.
  { apply follows_when. apply follows_get_call. intros _. apply follows_ret. }
  intros _. apply follows_for_each. intros segment. apply follows_program_segment.
Qed.

Lemma follows_cleanup self :
  follows api t device (_cleanup self device) [disconnect_from_emu; close].
Proof.
  unfold _cleanup. apply follows_get_call. intros _.
  apply follows_get_call. intros _. apply follows_ret.
Qed.

End Script.

(** ** The pages a worker erases before it writes a segment *)

Lemma erased_pages_of_erases t h (l : list Z) :
  erased_pages (map (EvCall t h) (map erase_page l)) = l.
Proof.
  induction l as [|p l IH]; [done|]. unfold erased_pages. simpl. f_equal. exact IH.
Qed.

Lemma erased_pages_after_write t h addr data control rest :
  erased_pages (EvCall t h (write addr data control) :: rest) = erased_pages rest.
Proof. done. Qed.

(** A pass of the segment loop that returns, with sector erase asked
    for: its events are the erases of the plan, then the write, then
    calls that erase nothing. *)
Lemma program_segment_erases_then_writes api self device t start_addr end_addr w w' h :
  sectors_erase self || sectors_and_uicr_erase self = true →
  nRF5_instances w !! device = Some h →
  run api t (program_segment self device (start_addr, end_addr)) w = (Ok tt, w') →
  ∃ rest,
    trace w'
    = trace w ++
      map (EvCall t h) (map erase_page (erase_plan (PAGE_SIZE self) start_addr end_addr)) ++
      EvCall t h (write start_addr
                    (tobinarray (hex_file self) start_addr (end_addr - start_addr)) true)
      :: rest ∧
    erased_pages rest = [].
Proof.
  intros Herase Hh Hrun.
  destruct (follows_program_segment api t device self (start_addr, end_addr) w h Hh)
    as (_ & _ & called & Ht & _ & Hok).
  rewrite Hrun in Ht, Hok. simpl in Ht, Hok. specialize (Hok eq_refl) as ->.
  unfold segment_script in Ht. rewrite Herase in Ht.
  exists (map (EvCall t h)
            ((if verify self
              then [read start_addr
                      (length (tobinarray (hex_file self) start_addr (end_addr - start_addr)))]
              else []) ++
             (if systemreset self then [sys_reset] else []))).
  split.
  - rewrite Ht. by rewrite (map_app (EvCall t h)).
  - by destruct (verify self), (systemreset self).
Qed.

(** C1.  For a segment [start_addr < end_addr] and a page size above
    zero, a pass of the segment loop with sector erase asked for that
    returns has called [erase_page], right before the [write] of the
    segment and nowhere else, on exactly the addresses
    [page * PAGE_SIZE] for [page] from [start_addr / PAGE_SIZE] up to
    [end_addr / PAGE_SIZE], both included, in ascending order: one call
    per page of that interval, the [i]-th call for the [i]-th page (no
    gap), the addresses strictly increasing (no page twice), and every
    byte address of [[start_addr, end_addr)] lies in the page of exactly
    one of them. *)
Theorem erase_plan_exact_cover
    (api : transport) (self : nRF5MultiFlash) (device : Z) (t : thread)
    (start_addr end_addr : Z) (w w' : world) (h : handle) :
  0 < PAGE_SIZE self → start_addr < end_addr →
  sectors_erase self || sectors_and_uicr_erase self = true →
  nRF5_instances w !! device = Some h →
  run api t (program_segment self device (start_addr, end_addr)) w = (Ok tt, w') →
  let first_page := start_addr / PAGE_SIZE self in
  let last_page := end_addr / PAGE_SIZE self in
  ∃ plan rest,
    trace w'
    = trace w ++ map (EvCall t h) (map erase_page plan) ++
      EvCall t h (write start_addr
                    (tobinarray (hex_file self) start_addr (end_addr - start_addr)) true)
      :: rest ∧
    erased_pages rest = [] ∧
    erased_pages (trace w') = erased_pages (trace w) ++ plan ∧
    plan = erase_plan (PAGE_SIZE self) start_addr end_addr ∧
    first_page ≤ last_page ∧
    length plan = Z.to_nat (last_page - first_page + 1) ∧
    (∀ i, (i < length plan)%nat →
          plan !! i = Some ((first_page + Z.of_nat i) * PAGE_SIZE self)) ∧
    (∀ p, p ∈ plan ↔ ∃ page, p = page * PAGE_SIZE self ∧ first_page ≤ page ≤ last_page) ∧
    StronglySorted Z.lt plan ∧
    NoDup plan ∧
    (∀ a, start_addr ≤ a < end_addr →
          ∃ p, p ∈ plan ∧ p ≤ a < p + PAGE_SIZE self ∧
               ∀ q, q ∈ plan → q ≤ a < q + PAGE_SIZE self → q = p).
Proof.
  intros Hps Hse Herase Hh Hrun first_page last_page.
  destruct (program_segment_erases_then_writes api self device t start_addr end_addr
              w w' h Herase Hh Hrun) as (rest & Ht & Hrest).
  exists (erase_plan (PAGE_SIZE self) start_addr end_addr), rest.
  split; [done|]. split; [done|]. split.
  { rewrite Ht, !erased_pages_app, erased_pages_of_erases. f_equal.
    by rewrite erased_pages_after_write, Hrest, app_nil_r. }
  split; [done|].
  exact (erase_plan_covers_segment (PAGE_SIZE self) start_addr end_addr Hps Hse).
Qed.

(** A segment over three pages, [[0x13F0, 0x1810)] with page size
    [0x400], after the worker has connected: the pages at [0x1000],
    [0x1400] and [0x1800] are erased, then the segment is written. *)
Lemma erase_plan_exact_cover_witness :
  erase_plan 0x400 0x13F0 0x1810 = [0x1000; 0x1400; 0x1800] ∧
  ∃ plan rest,
    trace (run probes_ok (Worker 0)
             (program_segment (example_nRF [7]) 7 (0x13F0, 0x1810))
             (run probes_ok (Worker 0) (_connect_to_device (example_nRF [7]) 7)
                initial_world).2).2
    = trace (run probes_ok (Worker 0) (_connect_to_device (example_nRF [7]) 7)
               initial_world).2 ++
      map (EvCall (Worker 0) 0) (map erase_page plan) ++
      EvCall (Worker 0) 0
        (write 0x13F0 (tobinarray (hex_file (example_nRF [7])) 0x13F0 (0x1810 - 0x13F0)) true)
      :: rest ∧
    erased_pages rest = [] ∧
    erased_pages
      (trace (run probes_ok (Worker 0)
                (program_segment (example_nRF [7]) 7 (0x13F0, 0x1810))
                (run probes_ok (Worker 0) (_connect_to_device (example_nRF [7]) 7)
                   initial_world).2).2)
    = erased_pages
        (trace (run probes_ok (Worker 0) (_connect_to_device (example_nRF [7]) 7)
                  initial_world).2) ++ plan ∧
    plan = erase_plan (PAGE_SIZE (example_nRF [7])) 0x13F0 0x1810 ∧
    0x13F0 / PAGE_SIZE (example_nRF [7]) ≤ 0x1810 / PAGE_SIZE (example_nRF [7]) ∧
    length plan
    = Z.to_nat (0x1810 / PAGE_SIZE (example_nRF [7]) - 0x13F0 / PAGE_SIZE (example_nRF [7]) + 1) ∧
    (∀ i, (i < length plan)%nat →
          plan !! i = Some ((0x13F0 / PAGE_SIZE (example_nRF [7]) + Z.of_nat i)
                            * PAGE_SIZE (example_nRF [7]))) ∧
    (∀ p, p ∈ plan ↔
          ∃ page, p = page * PAGE_SIZE (example_nRF [7]) ∧
                  0x13F0 / PAGE_SIZE (example_nRF [7]) ≤ page
                  ≤ 0x1810 / PAGE_SIZE (example_nRF [7])) ∧
    StronglySorted Z.lt plan ∧
    NoDup plan ∧
    (∀ a, 0x13F0 ≤ a < 0x1810 →
          ∃ p, p ∈ plan ∧ p ≤ a < p + PAGE_SIZE (example_nRF [7]) ∧
               ∀ q, q ∈ plan → q ≤ a < q + PAGE_SIZE (example_nRF [7]) → q = p).
Proof.
  split; [reflexivity|].
  apply (erase_plan_exact_cover probes_ok (example_nRF [7]) 7 (Worker 0) 0x13F0 0x1810
           (run probes_ok (Worker 0) (_connect_to_device (example_nRF [7]) 7)
              initial_world).2
           (run probes_ok (Worker 0)
              (program_segment (example_nRF [7]) 7 (0x13F0, 0x1810))
              (run probes_ok (Worker 0) (_connect_to_device (example_nRF [7]) 7)
                 initial_world).2).2
           0%nat).
  - reflexivity.
  - reflexivity.
  - reflexivity.
  - vm_compute. reflexivity.
  - vm_compute. reflexivity.
Defined.

(** C6.  When [end_addr] is page-aligned, a pass of the segment loop
    with sector erase asked for that returns has erased, as the last
    page before it writes the segment, the page that starts at
    [end_addr]: the erases are those of the occupied bytes (whose last
    byte is [end_addr - 1]) followed by that one page, and no byte of
    [[start_addr, end_addr)] lies in it. *)
Theorem erase_plan_aligned_end_extra_page
    (api : transport) (self : nRF5MultiFlash) (device : Z) (t : thread)
    (start_addr end_addr : Z) (w w' : world) (h : handle) :
  0 < PAGE_SIZE self → start_addr < end_addr → end_addr mod PAGE_SIZE self = 0 →
  sectors_erase self || sectors_and_uicr_erase self = true →
  nRF5_instances w !! device = Some h →
  run api t (program_segment self device (start_addr, end_addr)) w = (Ok tt, w') →
  (∃ rest,
     trace w'
     = trace w ++
       map (EvCall t h)
         (map erase_page (erase_plan (PAGE_SIZE self) start_addr (end_addr - 1))) ++
       EvCall t h (erase_page end_addr) ::
       EvCall t h (write start_addr
                     (tobinarray (hex_file self) start_addr (end_addr - start_addr)) true)
       :: rest ∧
     erased_pages rest = []) ∧
  erased_pages (trace w')
  = erased_pages (trace w) ++
    erase_plan (PAGE_SIZE self) start_addr (end_addr - 1) ++ [end_addr] ∧
  erase_plan (PAGE_SIZE self) start_addr end_addr
    = erase_plan (PAGE_SIZE self) start_addr (end_addr - 1) ++ [end_addr] ∧
  last (erase_plan (PAGE_SIZE self) start_addr end_addr) = Some end_addr ∧
  (end_addr ∈ erase_plan (PAGE_SIZE self) start_addr end_addr) ∧
  (end_addr ∉ erase_plan (PAGE_SIZE self) start_addr (end_addr - 1)) ∧
  (∀ a, start_addr ≤ a < end_addr → ¬ (end_addr ≤ a < end_addr + PAGE_SIZE self)) ∧
  (∀ a, start_addr ≤ a < end_addr →
        ∃ p, p ∈ erase_plan (PAGE_SIZE self) start_addr (end_addr - 1) ∧
             p ≤ a < p + PAGE_SIZE self).
Proof.
  intros Hps Hse Hal Herase Hh Hrun.
  destruct (program_segment_erases_then_writes api self device t start_addr end_addr
              w w' h Herase Hh Hrun) as (rest & Ht & Hrest).
  destruct (erase_plan_aligned_end (PAGE_SIZE self) start_addr end_addr Hps Hse Hal)
    as (Heq & Hplan).
  split; [|split; [|by split]].
  - exists rest. split; [|done]. rewrite Ht, Heq.
    rewrite (map_app erase_page), (map_app (EvCall t h)), <- app_assoc. done.
  - rewrite Ht, !erased_pages_app, erased_pages_of_erases, Heq. f_equal.
    by rewrite erased_pages_after_write, Hrest, app_nil_r.
Qed.

(** A segment that ends on a page boundary, [[0x1000, 0x1400)] with page
    size [0x400]: the worker erases the page at [0x1000], then the page
    at [0x1400], which holds no byte of the segment, then writes. *)
Lemma erase_plan_aligned_end_extra_page_witness :
  erase_plan 0x400 0x1000 (0x1400 - 1) = [0x1000] ∧
  ∃ rest,
    trace (run probes_ok (Worker 0)
             (program_segment (example_nRF [7]) 7 (0x1000, 0x1400))
             (run probes_ok (Worker 0) (_connect_to_device (example_nRF [7]) 7)
                initial_world).2).2
    = trace (run probes_ok (Worker 0) (_connect_to_device (example_nRF [7]) 7)
               initial_world).2 ++
      map (EvCall (Worker 0) 0)
        (map erase_page (erase_plan (PAGE_SIZE (example_nRF [7])) 0x1000 (0x1400 - 1))) ++
      EvCall (Worker 0) 0 (erase_page 0x1400) ::
      EvCall (Worker 0) 0
        (write 0x1000 (tobinarray (hex_file (example_nRF [7])) 0x1000 (0x1400 - 0x1000)) true)
      :: rest ∧
    erased_pages rest = [].
Proof.
  split; [reflexivity|].
  apply (erase_plan_aligned_end_extra_page probes_ok (example_nRF [7]) 7 (Worker 0)
           0x1000 0x1400
           (run probes_ok (Worker 0) (_connect_to_device (example_nRF [7]) 7)
              initial_world).2
           (run probes_ok (Worker 0)
              (program_segment (example_nRF [7]) 7 (0x1000, 0x1400))
              (run probes_ok (Worker 0) (_connect_to_device (example_nRF [7]) 7)
                 initial_world).2).2
           0%nat).
  - reflexivity.
  - reflexivity.
  - reflexivity.
  - reflexivity.
  - vm_compute. reflexivity.
  - vm_compute. reflexivity.
Defined.

(** X7.  Whatever the transport answers, a worker that runs alone
    constructs one [MultiAPI] object, stores it under its device, and
    calls on that object a prefix of one fixed sequence: open, connect,
    optional recover, optional UICR erase, then per segment in image
    order the page erases, the write, the optional read-back and the
    optional reset, then disconnect and close.  Nothing is retried,
    reordered or skipped; if the worker returns, it has made all of
    these calls. *)
Theorem perform_command_follows_script
    (api : transport) (self : nRF5MultiFlash) (device : Z) (t : thread) (w : world) :
  let h := next_handle w in
  let result := run api t (perform_command self device) w in
  next_handle result.2 = S h ∧
  nRF5_instances result.2 = <[device := h]> (nRF5_instances w) ∧
  ∃ called,
    trace result.2 = trace w ++ EvNew t h (family self) :: map (EvCall t h) called ∧
    called `prefix_of` worker_script self device ∧
    (is_ok result.1 = true → called = worker_script self device).
Proof.
  intros h result.
  assert (Hrest : follows api t device
            ((h ← nRF5_instances_get device;
              call h open ;;
              h ← nRF5_instances_get device;
              call h (connect_to_emu_with_snr device) ;;
              mret tt) ;;
             _program_device self device ;;
             _cleanup self device)
            (worker_script self device)).
  { unfold worker_script. apply follows_bind.
    - apply follows_get_call. intros _. apply follows_get_call. intros _.
      apply follows_ret.
    - intros _. apply follows_bind; [apply follows_program_device|].
      intros _. apply follows_cleanup. }
  destruct (Hrest (World (S h) (<[device := h]> (nRF5_instances w))
                     (trace w ++ [EvNew t h (family self)])) h)
    as (Hn & Hd & called & Ht & Hpre & Hok); [apply lookup_insert_eq|].
  assert (Hrun : result = run api t
            ((h ← nRF5_instances_get device;
              call h open ;;
              h ← nRF5_instances_get device;
              call h (connect_to_emu_with_snr device) ;;
              mret tt) ;;
             _program_device self device ;;
             _cleanup self device)
            (World (S h) (<[device := h]> (nRF5_instances w))
               (trace w ++ [EvNew t h (family self)]))).
  { unfold result, perform_command, _connect_to_device, MultiAPI, nRF5_instances_set.
    rewrite !run_bind. cbn [run]. rewrite !run_bind. cbn [run].
    rewrite !run_bind. reflexivity. }
  rewrite Hrun. split; [done|]. split; [done|].
  exists called. rewrite Ht. cbn [trace]. rewrite <- app_assoc. done.
Qed.

(** ** What the workers never call *)

Section PoolCalls.

Variable api : transport.
Variable P : method → Prop.

Lemma step_calls_only {A} t (p : prog A) w :
  calls_only P p →
  calls_only P (step api t p w).1 ∧
  ∃ evs, trace (step api t p w).2 = trace w ++ evs ∧ Forall (event_calls P) evs.
Proof.
  intros Hp. destruct p as [a|e|fam k|d h k|d k|h m k]; simpl in *.
  - split; [done|]. exists []. by rewrite app_nil_r.
  - split; [done|]. exists []. by rewrite app_nil_r.
  - split; [done|]. exists [EvNew t (next_handle w) fam]. by repeat constructor.
  - split; [done|]. exists []. by rewrite app_nil_r.
  - destruct (nRF5_instances w !! d); simpl; (split; [by auto|]);
      exists []; by rewrite app_nil_r.
  - destruct Hp as [Hm Hk].
    destruct (api (trace w) h m); simpl; (split; [by auto|]); exists [EvCall t h m];
      by repeat constructor.
Qed.

(** If no worker's program can call a method outside [P], then under
    every schedule the pool calls only methods of [P]. *)
Lemma run_pool_calls_only schedule : ∀ ps w,
  Forall (calls_only P) (workers ps) →
  ∃ evs, trace (run_pool api schedule ps w).2 = trace w ++ evs ∧
         Forall (event_calls P) evs.
Proof.
  induction schedule as [|i schedule IH]; intros ps w Hps.
  - exists []. by rewrite app_nil_r.
  - rewrite run_pool_cons.
    pose proof (pool_step_workers api i ps w) as Hws.
    pose proof (pool_step_world api i ps w) as Hwd.
    destruct (workers ps !! i) as [p|] eqn:Hp.
    + assert (Hpi : calls_only P p).
      { rewrite Forall_forall in Hps. apply Hps. by eapply list_elem_of_lookup_2. }
      destruct (step_calls_only (Worker i) p w Hpi) as (Hp' & evs1 & Ht1 & He1).
      destruct (IH (pool_step api i ps w).1 (pool_step api i ps w).2)
        as (evs2 & Ht2 & He2).
      { rewrite Hws. apply Forall_insert; done. }
      exists (evs1 ++ evs2). rewrite Ht2, Hwd, Ht1, app_assoc.
      split; [done|]. by apply Forall_app.
    + destruct (IH (pool_step api i ps w).1 (pool_step api i ps w).2)
        as (evs2 & Ht2 & He2); [by rewrite Hws|].
      exists evs2. by rewrite Ht2, Hwd.
Qed.

End PoolCalls.

Section NeverCalled.

Lemma perform_command_worker_methods self device :
  calls_only (fun m => is_worker_method m = true) (perform_command self device).
Proof.
  unfold perform_command, _connect_to_device, _program_device, _cleanup.
  repeat calls_only_step; try done.
  destruct x as [start_addr end_addr]. unfold program_segment.
  repeat calls_only_step; done.
Qed.

Lemma perform_command_no_erase self device :
  erase_all self = false → sectors_erase self = false →
  sectors_and_uicr_erase self = false →
  calls_only (fun m => is_erase m = false) (perform_command self device).
Proof.
  intros H1 H2 H3.
  unfold perform_command, _connect_to_device, _program_device, _cleanup.
  rewrite H1, H3. cbn [when].
  repeat calls_only_step; try done.
  destruct x as [start_addr end_addr]. unfold program_segment.
  rewrite H2, H3. cbn [when orb].
  repeat calls_only_step; done.
Qed.

End NeverCalled.

(** X8.  Under every interleaving of the workers and whatever the
    transport answers, no worker ever enumerates probes; and when none of
    the three erase flags is set, no worker ever calls [recover],
    [erase_uicr] or [erase_page]: flash is only written. *)
Theorem workers_never_enumerate_nor_erase_unasked
    (api : transport) (nRF : nRF5MultiFlash) (schedule : list nat) (w : world) :
  (∃ evs, trace (run_pool api schedule (initial_pool nRF) w).2 = trace w ++ evs ∧
          Forall (event_calls (fun m => is_worker_method m = true)) evs) ∧
  (erase_all nRF = false → sectors_erase nRF = false →
   sectors_and_uicr_erase nRF = false →
   ∃ evs, trace (run_pool api schedule (initial_pool nRF) w).2 = trace w ++ evs ∧
          Forall (event_calls (fun m => is_erase m = false)) evs).
Proof.
  split.
  - apply run_pool_calls_only. simpl. apply Forall_fmap, Forall_forall.
    intros device _. apply perform_command_worker_methods.
  - intros H1 H2 H3. apply run_pool_calls_only. simpl. apply Forall_fmap, Forall_forall.
    intros device _. by apply perform_command_no_erase.
Qed.

(** Two targets programmed without any erase flag, taking turns. *)
Lemma workers_never_enumerate_nor_erase_unasked_witness :
  ∃ evs,
    trace (run_pool probes_ok (concat (replicate 30 [0; 1]%nat))
             (initial_pool
                {| erase_all := false; family := lit_NRF51; file := "app.hex";
                   sectors_erase := false; sectors_and_uicr_erase := false;
                   snrs := [111; 222]; systemreset := false; verify := true;
                   PAGE_SIZE := 0x400; hex_file := example_hex |})
             initial_world).2
    = trace initial_world ++ evs ∧
    Forall (event_calls (fun m => is_erase m = false)) evs.
Proof.
  apply (proj2 (workers_never_enumerate_nor_erase_unasked probes_ok _ _ initial_world));
    reflexivity.
Defined.

(** X9.  With [--verify], a pass of the segment loop returns only if
    the probe answered the read-back, asked right after the page erases
    and the write of that segment, with a list that starts with the
    segment's data: every byte of the segment was read back equal. *)
Theorem verified_segment_was_read_back_equal
    (api : transport) (self : nRF5MultiFlash) (device : Z) (t : thread)
    (start_addr end_addr : Z) (w w' : world) (h : handle) :
  verify self = true →
  nRF5_instances w !! device = Some h →
  run api t (program_segment self device (start_addr, end_addr)) w = (Ok tt, w') →
  let data := tobinarray (hex_file self) start_addr (end_addr - start_addr) in
  let before :=
    (if sectors_erase self || sectors_and_uicr_erase self
     then map erase_page (erase_plan (PAGE_SIZE self) start_addr end_addr)
     else []) ++ [write start_addr data true] in
  ∃ read_data,
    api (trace w ++ map (EvCall t h) before) h (read start_addr (length data)) = Ok read_data ∧
    data `prefix_of` read_data ∧
    ∀ i x, data !! i = Some x → read_data !! i = Some x.
Proof.
  intros Hverify Hh Hrun data before. unfold program_segment in Hrun.
  rewrite run_bind in Hrun.
  match type of Hrun with context [run api t (when ?c ?body) w] =>
    assert (Hloop : follows api t device (when c body)
              (if c then map erase_page (erase_plan (PAGE_SIZE self) start_addr end_addr)
               else []))
  end.
  { apply follows_when. unfold erase_plan. rewrite map_map.
    rewrite <- (concat_singletons (fun page => erase_page (page * PAGE_SIZE self))).
    apply follows_for_each. intros page. apply follows_get_call. intros _. apply follows_ret. }
  destruct (Hloop w h Hh) as (_ & Hd1 & called & Ht1 & _ & Hok1).
  match type of Hrun with context [run api t ?p w] =>
    destruct (run api t p w) as [[[]|e] w1]; [|done]
  end.
  simpl in Hd1, Ht1, Hok1. specialize (Hok1 eq_refl) as ->.
  rewrite run_get, Hd1, Hh, run_call in Hrun.
  destruct (api (trace w1) h _) as [v|e]; [|done].
  rewrite run_bind, Hverify in Hrun. cbn [when] in Hrun.
  rewrite run_get in Hrun. cbn [nRF5_instances] in Hrun. rewrite Hd1, Hh in Hrun.
  rewrite run_call in Hrun. cbn [trace] in Hrun.
  fold data in Hrun.
  assert (Hhist : trace w1 ++ [EvCall t h (write start_addr data true)]
                  = trace w ++ map (EvCall t h) before).
  { unfold before. by rewrite Ht1, map_app, <- app_assoc. }
  rewrite Hhist in Hrun.
  destruct (api (trace w ++ map (EvCall t h) before) h (read start_addr (length data)))
    as [read_data|e]; [|done].
  exists read_data. split; [done|].
  rewrite run_bind in Hrun.
  destruct (_byte_lists_equal data read_data) as [[]|e] eqn:Heq; simpl in Hrun; try done.
  apply byte_lists_equal_true in Heq. split; [done|].
  intros i x Hx. destruct Heq as [rest ->]. by apply lookup_app_l_Some.
Qed.

(** The first segment of the example image on the echoing transport. *)
Lemma verified_segment_was_read_back_equal_witness :
  ∃ read_data,
    probes_ok
      (trace (run probes_ok (Worker 0) (_connect_to_device (example_nRF [7]) 7)
                initial_world).2
       ++ map (EvCall (Worker 0) 0)
            ((if sectors_erase (example_nRF [7]) || sectors_and_uicr_erase (example_nRF [7])
              then map erase_page (erase_plan (PAGE_SIZE (example_nRF [7])) 0x1000 0x1004)
              else [])
             ++ [write 0x1000 (tobinarray (hex_file (example_nRF [7])) 0x1000 (0x1004 - 0x1000))
                   true]))
      0%nat
      (read 0x1000 (length (tobinarray (hex_file (example_nRF [7])) 0x1000 (0x1004 - 0x1000))))
    = Ok read_data ∧
    tobinarray (hex_file (example_nRF [7])) 0x1000 (0x1004 - 0x1000) `prefix_of` read_data ∧
    ∀ i x, tobinarray (hex_file (example_nRF [7])) 0x1000 (0x1004 - 0x1000) !! i = Some x →
           read_data !! i = Some x.
Proof.
  apply (verified_segment_was_read_back_equal probes_ok (example_nRF [7]) 7 (Worker 0)
           0x1000 0x1004
           (run probes_ok (Worker 0) (_connect_to_device (example_nRF [7]) 7)
              initial_world).2
           (run probes_ok (Worker 0) (program_segment (example_nRF [7]) 7 (0x1000, 0x1004))
              (run probes_ok (Worker 0) (_connect_to_device (example_nRF [7]) 7)
                 initial_world).2).2
           0%nat).
  - reflexivity.
  - vm_compute. reflexivity.
  - vm_compute. reflexivity.
Defined.

(** A [_program_device] that returns has made exactly the calls of
    [program_script], in order, on the device's object. *)
Lemma program_device_returns_script api self device t w w' h :
  nRF5_instances w !! device = Some h →
  run api t (_program_device self device) w = (Ok tt, w') →
  trace w' = trace w ++ map (EvCall t h) (program_script self).
Proof.
  intros Hh Hrun.
  destruct (follows_program_device api t device self w h Hh) as (_ & _ & called & Ht & _ & Hok).
  rewrite Hrun in Ht, Hok. simpl in *. by rewrite Ht, (Hok eq_refl).
Qed.

(** X10.  With sector erase, pages are erased segment by segment, right
    before each segment is written.  So when a byte [a] of one segment
    lies in a page that a later segment of the image also touches, a
    [_program_device] that returns has erased that page again after the
    earlier segment was written (and, at the time, verified). *)
Theorem shared_page_erased_after_earlier_write
    (api : transport) (self : nRF5MultiFlash) (device : Z) (t : thread)
    (w w' : world) (h : handle)
    (before between after : list (Z * Z)) (s1 e1 s2 e2 a : Z) :
  sectors_erase self || sectors_and_uicr_erase self = true →
  segments (hex_file self) = before ++ (s1, e1) :: between ++ (s2, e2) :: after →
  s1 ≤ a < e1 →
  s2 / PAGE_SIZE self ≤ a / PAGE_SIZE self ≤ e2 / PAGE_SIZE self →
  nRF5_instances w !! device = Some h →
  run api t (_program_device self device) w = (Ok tt, w') →
  ∃ tr1 tr2 tr3,
    trace w' =
      tr1 ++ EvCall t h (write s1 (tobinarray (hex_file self) s1 (e1 - s1)) true)
          :: tr2 ++ EvCall t h (erase_page (a / PAGE_SIZE self * PAGE_SIZE self)) :: tr3.
Proof.
  intros Herase Hsegs _ Hpage Hh Hrun.
  rewrite (program_device_returns_script api self device t w w' h Hh Hrun).
  assert (Hin : a / PAGE_SIZE self * PAGE_SIZE self ∈ erase_plan (PAGE_SIZE self) s2 e2).
  { apply elem_of_erase_plan. by exists (a / PAGE_SIZE self). }
  apply list_elem_of_split in Hin as (pl & pr & Hplan).
  unfold program_script. rewrite Hsegs.
  rewrite (map_app (segment_script self)), concat_app. cbn [map concat].
  rewrite (map_app (segment_script self)), concat_app. cbn [map concat].
  assert (Hscript : ∀ s e,
            segment_script self (s, e)
            = map erase_page (erase_plan (PAGE_SIZE self) s e) ++
              [write s (tobinarray (hex_file self) s (e - s)) true] ++
              (if verify self
               then [read s (length (tobinarray (hex_file self) s (e - s)))] else []) ++
              (if systemreset self then [sys_reset] else [])).
  { intros s e. unfold segment_script. by rewrite Herase. }
  rewrite !Hscript, Hplan.
  rewrite (map_app erase_page pl). cbn [map].
  set (pre := (if erase_all self then [recover] else []) ++
              (if sectors_and_uicr_erase self then [erase_uicr] else []) ++
              concat (map (segment_script self) before) ++
              map erase_page (erase_plan (PAGE_SIZE self) s1 e1)).
  set (data1 := tobinarray (hex_file self) s1 (e1 - s1)).
  set (rest1 := (if verify self then [read s1 (length data1)] else []) ++
                (if systemreset self then [sys_reset] else [])).
  set (data2 := tobinarray (hex_file self) s2 (e2 - s2)).
  set (rest2 := [write s2 data2 true] ++
                (if verify self then [read s2 (length data2)] else []) ++
                (if systemreset self then [sys_reset] else [])).
  exists (trace w ++ map (EvCall t h) pre),
         (map (EvCall t h) (rest1 ++ concat (map (segment_script self) between)
                            ++ map erase_page pl)),
         (map (EvCall t h) (map erase_page pr ++ rest2
                            ++ concat (map (segment_script self) after))).
  unfold pre, rest1, rest2.
  repeat (progress (rewrite ?map_app; cbn [map app]; rewrite <- ?app_assoc)).
  reflexivity.
Qed.

(** Two segments in the page at [0x1000]: after the first is written
    and verified, the page is erased again for the second. *)
Lemma shared_page_erased_after_earlier_write_witness :
  ∃ tr1 tr2 tr3,
    trace (run probes_ok (Worker 0) (_program_device close_segments_nRF 7)
             (run probes_ok (Worker 0) (_connect_to_device close_segments_nRF 7)
                initial_world).2).2
    = tr1 ++ EvCall (Worker 0) 0
               (write 0x1000 (tobinarray (hex_file close_segments_nRF) 0x1000 (0x1004 - 0x1000))
                  true)
          :: tr2 ++ EvCall (Worker 0) 0
                      (erase_page (0x1002 / PAGE_SIZE close_segments_nRF
                                   * PAGE_SIZE close_segments_nRF)) :: tr3.
Proof.
  apply (shared_page_erased_after_earlier_write probes_ok close_segments_nRF 7 (Worker 0)
           (run probes_ok (Worker 0) (_connect_to_device close_segments_nRF 7)
              initial_world).2
           (run probes_ok (Worker 0) (_program_device close_segments_nRF 7)
              (run probes_ok (Worker 0) (_connect_to_device close_segments_nRF 7)
                 initial_world).2).2
           0%nat [] [] [] 0x1000 0x1004 0x1010 0x1012 0x1002).
  - reflexivity.
  - reflexivity.
  - lia.
  - vm_compute. split; discriminate.
  - vm_compute. reflexivity.
  - vm_compute. reflexivity.
Defined.

(** ** What the parser accepts, and what it returns *)

Section Parser.

(** A [store_true] flag is set exactly by its own option. *)
Lemma parse_options_flag (flag : Namespace → bool) (opt : cli_arg) :
  (∀ p, flag (ns (store opt p)) = true) →
  (∀ a p, a ≠ opt → flag (ns (store a p)) = flag (ns p)) →
  (∀ a, a = opt ∨ a ≠ opt) →
  ∀ argv seen p p',
    parse_options argv seen p = Ok p' →
    (flag (ns p') = true ↔ flag (ns p) = true ∨ opt ∈ argv).
Proof.
  intros Hset Hkeep Hdec. induction argv as [|a argv IH]; intros seen p p' Hparse.
  - simpl in Hparse. injection Hparse as <-. rewrite elem_of_nil. tauto.
  - simpl in Hparse. destruct (conflicts seen a); [done|].
    destruct (well_formed a); [|done]. simpl in Hparse.
    rewrite (IH _ _ _ Hparse), elem_of_cons.
    destruct (Hdec a) as [->|Hne].
    + rewrite Hset. tauto.
    + rewrite (Hkeep a p Hne). split; [tauto|]. intros [?|[?|?]]; [auto | congruence | auto].
Qed.

(** A valued field is [None] (or as before) when its option is absent,
    and otherwise holds a value the command line gave. *)
Lemma parse_options_value {A} (get : Namespace → option A) (proj : cli_arg → option A) :
  (∀ a p, get (ns (store a p)) = match proj a with
                                  | Some v => Some v
                                  | None => get (ns p)
                                  end) →
  ∀ argv seen p p',
    parse_options argv seen p = Ok p' →
    (get (ns p') = get (ns p) ∧ ∀ a, a ∈ argv → proj a = None) ∨
    (∃ a v, a ∈ argv ∧ proj a = Some v ∧ get (ns p') = Some v).
Proof.
  intros Hstore. induction argv as [|a argv IH]; intros seen p p' Hparse.
  - simpl in Hparse. injection Hparse as <-. left. split; [done|].
    intros a Ha. by apply elem_of_nil in Ha.
  - simpl in Hparse. destruct (conflicts seen a); [done|].
    destruct (well_formed a); [|done]. simpl in Hparse.
    destruct (IH _ _ _ Hparse) as [[Hget Hnone]|(b & v & Hb & Hv & Hget)].
    + rewrite Hstore in Hget. destruct (proj a) as [v|] eqn:Ha.
      * right. exists a, v. split; [apply elem_of_cons; by left | done].
      * left. split; [done|]. intros b [->|Hb]%elem_of_cons; auto.
    + right. exists b, v. split; [apply elem_of_cons; by right | done].
Qed.

Lemma parse_options_file_seen argv : ∀ seen p p',
  parse_options argv seen p = Ok p' →
  (file_seen p' = true ↔ file_seen p = true ∨ ∃ v, opt_file v ∈ argv).
Proof.
  induction argv as [|a argv IH]; intros seen p p' Hparse.
  - simpl in Hparse. injection Hparse as <-. split; [tauto|].
    intros [?|(v & Hv)]; [done|]. by apply elem_of_nil in Hv.
  - simpl in Hparse. destruct (conflicts seen a); [done|].
    destruct (well_formed a); [|done]. simpl in Hparse.
    rewrite (IH _ _ _ Hparse). setoid_rewrite elem_of_cons.
    destruct p as [[] seen_file]. destruct a; simpl; split;
      try (intros [?|(v & Hv)]; [tauto | right; exists v; tauto]);
      try (intros [?|(v & [Hv|Hv])]; [tauto | done | right; by exists v]);
      try (intros _; right; eexists; by left);
      try (intros _; by left).
Qed.

Lemma parse_options_well_formed argv : ∀ seen p p',
  parse_options argv seen p = Ok p' → Forall (fun a => well_formed a = true) argv.
Proof.
  induction argv as [|a argv IH]; intros seen p p' Hparse; [done|].
  simpl in Hparse. destruct (conflicts seen a); [done|].
  destruct (well_formed a) eqn:Hwf; [|done]. simpl in Hparse.
  constructor; [done | by eapply IH].
Qed.

(** Well-formed options without two different erase options parse. *)
Lemma parse_options_accepts argv : ∀ seen p,
  one_erase_option (seen ++ argv) →
  Forall (fun a => well_formed a = true) argv →
  ∃ p', parse_options argv seen p = Ok p'.
Proof.
  induction argv as [|a argv IH]; intros seen p Hone Hwf; [by eexists|].
  apply Forall_cons in Hwf as [Ha Hwf]. simpl. rewrite Ha. simpl.
  assert (conflicts seen a = false) as ->.
  { unfold conflicts. destruct (erase_before_flash_group a) as [g|] eqn:Hg; [|done].
    apply not_true_is_false. intros Hex. apply existsb_exists in Hex as (b & Hb & Hgb).
    apply list_elem_of_In in Hb.
    destruct (erase_before_flash_group b) as [g'|] eqn:Hg'; [|done].
    assert (g = g'); [|subst; by rewrite Nat.eqb_refl in Hgb].
    apply (Hone a b g g'); [| |done|done]; rewrite elem_of_app, ?elem_of_cons; auto. }
  apply IH; [|done]. intros x y gx gy Hx Hy. apply Hone.
  - revert Hx. rewrite !elem_of_app, !elem_of_cons. tauto.
  - revert Hy. rewrite !elem_of_app, !elem_of_cons. tauto.
Qed.

Lemma conflicting_iff_not_one argv :
  ¬ conflicting_erase_flags argv ↔ one_erase_option argv.
Proof.
  split.
  - intros Hno a b ga gb Ha Hb Hga Hgb. destruct (decide (ga = gb)); [done|].
    exfalso. apply Hno. by exists a, b, ga, gb.
  - intros Hone (a & b & ga & gb & Ha & Hb & Hga & Hgb & Hne).
    apply Hne. exact (Hone a b ga gb Ha Hb Hga Hgb).
Qed.

End Parser.

(** X11.  The parser of the [program] subcommand accepts a command line
    exactly when it names no two different options of the erase group,
    every [--family] value is [NRF51] or [NRF52], every [--snrs] has at
    least one value, and [--file] occurs; every refusal is a
    [SystemExit].  In the namespace it returns, each flag is set exactly
    when its option occurs, the file is one the command line gave, and
    family and targets are [None] when their option is absent and a value
    the command line gave otherwise. *)
Theorem CLI_run_accepts_exactly (argv : list cli_arg) :
  (∀ e, CLI_run argv = Raised e → e = SystemExit) ∧
  ((∃ args, CLI_run argv = Ok args) ↔
     ¬ conflicting_erase_flags argv ∧
     Forall (fun a => well_formed a = true) argv ∧
     ∃ v, opt_file v ∈ argv) ∧
  (∀ args, CLI_run argv = Ok args →
     (args_eraseall args = true ↔ opt_eraseall ∈ argv) ∧
     (args_sectorserase args = true ↔ opt_sectorserase ∈ argv) ∧
     (args_sectorsanduicrerase args = true ↔ opt_sectorsanduicrerase ∈ argv) ∧
     (args_systemreset args = true ↔ opt_systemreset ∈ argv) ∧
     (args_verify args = true ↔ opt_verify ∈ argv) ∧
     opt_file (args_file args) ∈ argv ∧
     match args_family args with
     | None => ∀ v, opt_family v ∉ argv
     | Some v => opt_family v ∈ argv ∧ family_choice v = true
     end ∧
     match args_snrs args with
     | None => ∀ l, opt_snrs l ∉ argv
     | Some l => opt_snrs l ∈ argv ∧ l ≠ []
     end).
Proof.
  unfold CLI_run. split; [|split].
  - intros e. destruct (parse_options argv [] empty_namespace) as [p|e'] eqn:Hparse.
    + destruct (file_seen p); [done | by intros [= <-]].
    + intros [= <-]. by eapply parse_options_raises.
  - split.
    + intros [args Hargs].
      destruct (parse_options argv [] empty_namespace) as [p|e'] eqn:Hparse; [|done].
      destruct (file_seen p) eqn:Hfile; [|done].
      split; [|split].
      * apply conflicting_iff_not_one. intros a b ga gb Ha Hb.
        by apply (parse_options_one_group argv [] _ _ Hparse).
      * by eapply parse_options_well_formed.
      * apply (parse_options_file_seen argv [] _ _ Hparse) in Hfile as [?|?]; done.
    + intros (Hone & Hwf & Hfile). apply conflicting_iff_not_one in Hone.
      destruct (parse_options_accepts argv [] empty_namespace Hone Hwf) as [p Hparse].
      rewrite Hparse.
      assert (file_seen p = true) as ->; [|by eexists].
      apply (parse_options_file_seen argv [] _ _ Hparse). by right.
  - intros args.
    destruct (parse_options argv [] empty_namespace) as [p|e'] eqn:Hparse; [|done].
    destruct (file_seen p) eqn:Hfile; [|done]. intros [= <-].
    pose proof (parse_options_well_formed argv [] _ _ Hparse) as Hwf.
    rewrite Forall_forall in Hwf.
    assert (Hflag : ∀ flag opt,
              (∀ q, flag (ns (store opt q)) = true) →
              (∀ a q, a ≠ opt → flag (ns (store a q)) = flag (ns q)) →
              (∀ a, a = opt ∨ a ≠ opt) →
              flag (ns empty_namespace) = false →
              (flag (ns p) = true ↔ opt ∈ argv)).
    { intros flag opt H1 H2 H3 H4.
      rewrite (parse_options_flag flag opt H1 H2 H3 argv [] _ _ Hparse), H4.
      split; [by intros [?|?] | by right]. }
    assert (Hvalue : ∀ {A} (get : Namespace → option A) (proj : cli_arg → option A),
              (∀ a q, get (ns (store a q)) = match proj a with
                                              | Some v => Some v
                                              | None => get (ns q)
                                              end) →
              (get (ns p) = get (ns empty_namespace) ∧ ∀ a, a ∈ argv → proj a = None) ∨
              (∃ a v, a ∈ argv ∧ proj a = Some v ∧ get (ns p) = Some v)).
    { intros A get proj Hstore.
      exact (parse_options_value get proj Hstore argv [] _ _ Hparse). }
    split; [|split; [|split; [|split; [|split; [|split; [|split]]]]]].
    1-5: apply Hflag;
      [ by intros [[] ?]
      | by intros a [[] ?] Ha; destruct a
      | intros a; destruct a; (by left) || (by right)
      | done ].
    + apply (parse_options_file_seen argv [] _ _ Hparse) in Hfile as [?|[v0 Hv0]]; [done|].
      destruct (Hvalue _ (fun n => Some (args_file n)) file_of)
        as [[_ Hnone]|(a & v & Ha & Hv & Hget)].
      * intros a [[] ?]. by destruct a.
      * by specialize (Hnone _ Hv0).
      * destruct a; try done. simpl in Hv. by simplify_eq.
    + destruct (Hvalue _ args_family family_of) as [[-> Hnone]|(a & v & Ha & Hv & ->)].
      * intros a [[] ?]. by destruct a.
      * simpl. intros v Hv. by specialize (Hnone _ Hv).
      * destruct a; try done. simpl in Hv. simplify_eq.
        split; [done|]. exact (Hwf _ Ha).
    + destruct (Hvalue _ args_snrs snrs_of) as [[-> Hnone]|(a & l & Ha & Hl & ->)].
      * intros a [[] ?]. by destruct a.
      * simpl. intros l Hl. by specialize (Hnone _ Hl).
      * destruct a; try done. simpl in Hl. simplify_eq.
        split; [done|]. specialize (Hwf _ Ha). simpl in Hwf. by destruct l.
Qed.

(** A command line that is accepted, and the flags it sets. *)
Lemma CLI_run_accepts_exactly_witness :
  (∃ args, CLI_run [opt_verify; opt_file "app.hex"; opt_sectorserase; opt_snrs [7; 7]]
           = Ok args) ∧
  ∀ args, CLI_run [opt_verify; opt_file "app.hex"; opt_sectorserase; opt_snrs [7; 7]]
          = Ok args →
          (args_verify args = true ↔
             opt_verify ∈ [opt_verify; opt_file "app.hex"; opt_sectorserase; opt_snrs [7; 7]]).
Proof.
  split; [by eexists|]. intros args Hargs.
  exact (proj1 (proj2 (proj2 (proj2 (proj2
           (proj2 (proj2 (CLI_run_accepts_exactly _)) args Hargs)))))).
Defined.


(** The family of a parsed command line: absent, or a value it gave. *)
Lemma CLI_run_parsed_family argv args :
  CLI_run argv = Ok args →
  (args_family args = None ∧ ∀ v, opt_family v ∉ argv) ∨
  (∃ v, args_family args = Some v ∧ opt_family v ∈ argv ∧ family_choice v = true).
Proof.
  unfold CLI_run.
  destruct (parse_options argv [] empty_namespace) as [p|e'] eqn:Hparse; [|done].
  destruct (file_seen p); [|done]. intros [= <-].
  pose proof (parse_options_well_formed argv [] _ _ Hparse) as Hwf.
  rewrite Forall_forall in Hwf.
  destruct (parse_options_value args_family family_of) with (argv := argv) (seen := @nil cli_arg)
    (p := empty_namespace) (p' := p) as [[Hget Hnone]|(a & v & Ha & Hv & Hget)].
  - intros a [[] ?]. by destruct a.
  - done.
  - left. split; [done|]. intros v Hv. by specialize (Hnone _ Hv).
  - right. exists v. destruct a; try done. simpl in Hv. simplify_eq.
    split; [done|]. split; [done|]. exact (Hwf _ Ha).
Qed.

(** ** From the command line to the object *)

Section FromCommandLine.

Variable api : transport.
Variable IntelHex_load : string → result IntelHex.

(** What [__init__] puts into the object it returns. *)
Lemma init_fields args w nRF w' :
  run api MainThread (__init__ IntelHex_load args) w = (Ok nRF, w') →
  erase_all nRF = args_eraseall args ∧
  sectors_erase nRF = args_sectorserase args ∧
  sectors_and_uicr_erase nRF = args_sectorsanduicrerase args ∧
  systemreset nRF = args_systemreset args ∧
  verify nRF = args_verify args ∧
  family nRF = init_family args ∧
  PAGE_SIZE nRF = init_PAGE_SIZE (init_family args) ∧
  IntelHex_load (args_file args) = Ok (hex_file nRF).
Proof.
  unfold __init__. rewrite run_bind.
  destruct (run api MainThread (init_snrs args) w) as [[l|e] w1]; [|done].
  rewrite run_bind. destruct (IntelHex_load (args_file args)) as [hex|e]; simpl; [|done].
  by intros [= <- <-].
Qed.

End FromCommandLine.

(** X12.  Through the command line the page size follows the presence
    of [--family], not its value: the strings of a command line being
    objects of their own (none is the module's literal), every object
    [__init__] builds from a parsed command line has page size [0x400]
    exactly when [--family] was not given, and [0x1000] whenever it was
    given, be it [NRF52] or [NRF51].  Either way the page size is
    positive. *)
Theorem page_size_follows_family_presence
    (api : transport) (IntelHex_load : string → result IntelHex)
    (argv : list cli_arg) (args : Namespace) (nRF : nRF5MultiFlash) (w w' : world) :
  (∀ v, opt_family v ∈ argv → str_id v ≠ str_id lit_NRF51) →
  CLI_run argv = Ok args →
  run api MainThread (__init__ IntelHex_load args) w = (Ok nRF, w') →
  (PAGE_SIZE nRF = 0x400 ↔ ∀ v, opt_family v ∉ argv) ∧
  (PAGE_SIZE nRF = 0x1000 ↔ ∃ v, opt_family v ∈ argv) ∧
  0 < PAGE_SIZE nRF.
Proof.
  intros Hfresh Hcli Hinit.
  destruct (init_fields api IntelHex_load args w nRF w' Hinit)
    as (_ & _ & _ & _ & _ & _ & -> & _).
  destruct (CLI_run_parsed_family argv args Hcli) as [[Hnone Habsent]|(v & Hv & Hin & Hchoice)].
  - destruct (default_family_page_size args Hnone) as [-> ->].
    split; [done|]. split; [|done].
    split; [done|]. intros [v Hv]. by destruct (Habsent v).
  - assert (Hne : str_val v ≠ "").
    { unfold family_choice in Hchoice. intros Heq. rewrite Heq in Hchoice. done. }
    destruct (other_object_page_size args v Hv Hne (Hfresh v Hin)) as [-> ->].
    split; [|split; [|done]].
    + split; [done|]. intros Habsent. by destruct (Habsent v).
    + split; [by exists v | done].
Qed.

(** [--family NRF51] given explicitly: page size [0x1000]. *)
Lemma page_size_follows_family_presence_witness :
  (PAGE_SIZE
     {| erase_all := false; family := PyStr 17 "NRF51"; file := "app.hex";
        sectors_erase := false; sectors_and_uicr_erase := false; snrs := [7];
        systemreset := false; verify := false; PAGE_SIZE := 0x1000;
        hex_file := example_hex |} = 0x400
   ↔ ∀ v, opt_family v ∉ [opt_file "app.hex"; opt_family (PyStr 17 "NRF51"); opt_snrs [7]]) ∧
  (PAGE_SIZE
     {| erase_all := false; family := PyStr 17 "NRF51"; file := "app.hex";
        sectors_erase := false; sectors_and_uicr_erase := false; snrs := [7];
        systemreset := false; verify := false; PAGE_SIZE := 0x1000;
        hex_file := example_hex |} = 0x1000
   ↔ ∃ v, opt_family v ∈ [opt_file "app.hex"; opt_family (PyStr 17 "NRF51"); opt_snrs [7]]) ∧
  0 < PAGE_SIZE
        {| erase_all := false; family := PyStr 17 "NRF51"; file := "app.hex";
           sectors_erase := false; sectors_and_uicr_erase := false; snrs := [7];
           systemreset := false; verify := false; PAGE_SIZE := 0x1000;
           hex_file := example_hex |}.
Proof.
  apply (page_size_follows_family_presence probes_ok example_load
           [opt_file "app.hex"; opt_family (PyStr 17 "NRF51"); opt_snrs [7]]
           (example_args (Some (PyStr 17 "NRF51")) (Some [7])) _ initial_world initial_world).
  - intros v Hv. rewrite !elem_of_cons, elem_of_nil in Hv.
    destruct Hv as [Hv|[Hv|[Hv|[]]]]; try discriminate Hv.
    injection Hv as ->. simpl. lia.
  - reflexivity.
  - reflexivity.
Defined.

(** ** Errors before the pool starts *)

Section Preflight.

Variable api : transport.
Variable IntelHex_load : string → result IntelHex.

(** [__init__] when [init_snrs] returned. *)
Lemma init_after_resolution args w l w1 :
  run api MainThread (init_snrs args) w = (Ok l, w1) →
  run api MainThread (__init__ IntelHex_load args) w =
  (match IntelHex_load (args_file args) with
   | Ok hex =>
       Ok {| erase_all := args_eraseall args;
             family := init_family args;
             file := args_file args;
             sectors_erase := args_sectorserase args;
             sectors_and_uicr_erase := args_sectorsanduicrerase args;
             snrs := l;
             systemreset := args_systemreset args;
             verify := args_verify args;
             PAGE_SIZE := init_PAGE_SIZE (init_family args);
             hex_file := hex |}
   | Raised e => Raised e
   end, w1).
Proof.
  intros Hsnrs. unfold __init__. rewrite run_bind, Hsnrs, run_bind.
  by destruct (IntelHex_load (args_file args)).
Qed.

Lemma init_after_resolution_error args w e w1 :
  run api MainThread (init_snrs args) w = (Raised e, w1) →
  run api MainThread (__init__ IntelHex_load args) w = (Raised e, w1).
Proof. intros Hsnrs. unfold __init__. by rewrite run_bind, Hsnrs. Qed.

End Preflight.

(** X13.  No targets on the command line and no probe attached: the
    enumeration answers with the empty list, [ThreadPool(0)] refuses, and
    [main] ends with [ValueError] under every schedule, having made only
    the four calls of the enumeration; no worker has run. *)
Theorem main_without_probes_raises_ValueError
    (api : transport) (IntelHex_load : string → result IntelHex)
    (argv : list cli_arg) (args : Namespace) (hex : IntelHex)
    (schedule : list nat) (w : world) :
  CLI_run argv = Ok args →
  not_list (args_snrs args) = true →
  let h := next_handle w in
  let tr1 := trace w ++ [EvNew MainThread h lit_NRF51] in
  let tr2 := tr1 ++ [EvCall MainThread h open] in
  let tr3 := tr2 ++ [EvCall MainThread h enum_emu_snr] in
  let tr4 := tr3 ++ [EvCall MainThread h close] in
  is_ok (api tr1 h open) = true →
  api tr2 h enum_emu_snr = Ok [] →
  is_ok (api tr3 h close) = true →
  IntelHex_load (args_file args) = Ok hex →
  main api IntelHex_load argv schedule w
  = (Some (Raised ValueError), World (S h) (nRF5_instances w) tr4).
Proof.
  intros Hcli Hnot h tr1 tr2 tr3 tr4 Hopen Henum Hclose Hload.
  pose proof (init_snrs_enumerates api args w [] Hnot Hopen Henum Hclose) as Hsnrs.
  unfold main. rewrite Hcli.
  rewrite (init_after_resolution api IntelHex_load args w [] _ Hsnrs), Hload.
  reflexivity.
Qed.

(** The transport of [probes_ok] with no probe attached. *)
Lemma main_without_probes_raises_ValueError_witness :
  main (fun tr h m => match m with enum_emu_snr => Ok [] | _ => probes_ok tr h m end)
    example_load [opt_file "app.hex"; opt_verify] (turn 0 30) initial_world
  = (Some (Raised ValueError),
     World 1 ∅ ((((trace initial_world ++ [EvNew MainThread 0 lit_NRF51])
                  ++ [EvCall MainThread 0 open])
                 ++ [EvCall MainThread 0 enum_emu_snr])
                ++ [EvCall MainThread 0 close])).
Proof.
  apply (main_without_probes_raises_ValueError _ example_load
           [opt_file "app.hex"; opt_verify]
           {| args_eraseall := false; args_family := None; args_file := "app.hex";
              args_sectorserase := false; args_sectorsanduicrerase := false;
              args_snrs := None; args_systemreset := false; args_verify := true |}
           example_hex (turn 0 30) initial_world); reflexivity.
Defined.

(** X14.  The image is loaded last in [__init__].  When it cannot be
    loaded, [main] ends with the loader's error and no worker runs: with
    targets given on the command line the transport has not been touched
    at all; without, the enumeration session has already been opened,
    queried and closed. *)
Theorem unreadable_image_starts_no_worker
    (api : transport) (IntelHex_load : string → result IntelHex)
    (argv : list cli_arg) (args : Namespace) (e : exn)
    (schedule : list nat) (w : world) :
  CLI_run argv = Ok args →
  IntelHex_load (args_file args) = Raised e →
  (∀ l, args_snrs args = Some l → l ≠ [] →
     main api IntelHex_load argv schedule w = (Some (Raised e), w)) ∧
  (not_list (args_snrs args) = true →
     let h := next_handle w in
     let tr1 := trace w ++ [EvNew MainThread h lit_NRF51] in
     let tr2 := tr1 ++ [EvCall MainThread h open] in
     let tr3 := tr2 ++ [EvCall MainThread h enum_emu_snr] in
     let tr4 := tr3 ++ [EvCall MainThread h close] in
     ∀ found,
       is_ok (api tr1 h open) = true →
       api tr2 h enum_emu_snr = Ok found →
       is_ok (api tr3 h close) = true →
       main api IntelHex_load argv schedule w
       = (Some (Raised e), World (S h) (nRF5_instances w) tr4)).
Proof.
  intros Hcli Hload. split.
  - intros l Hl Hne.
    assert (Hsnrs : run api MainThread (init_snrs args) w = (Ok l, w)).
    { unfold init_snrs. rewrite Hl. by destruct l. }
    unfold main. rewrite Hcli.
    by rewrite (init_after_resolution api IntelHex_load args w l _ Hsnrs), Hload.
  - intros Hnot h tr1 tr2 tr3 tr4 found Hopen Henum Hclose.
    pose proof (init_snrs_enumerates api args w found Hnot Hopen Henum Hclose) as Hsnrs.
    unfold main. rewrite Hcli.
    by rewrite (init_after_resolution api IntelHex_load args w found _ Hsnrs), Hload.
Qed.

(** A missing file, targets given: the world is as before. *)
Lemma unreadable_image_starts_no_worker_witness :
  main probes_ok (fun _ => Raised IOError)
    [opt_file "missing.hex"; opt_snrs [111; 222]] (turn 0 30 ++ turn 1 30) initial_world
  = (Some (Raised IOError), initial_world).
Proof.
  apply (proj1 (unreadable_image_starts_no_worker probes_ok (fun _ => Raised IOError)
                  [opt_file "missing.hex"; opt_snrs [111; 222]]
                  {| args_eraseall := false; args_family := None; args_file := "missing.hex";
                     args_sectorserase := false; args_sectorsanduicrerase := false;
                     args_snrs := Some [111; 222]; args_systemreset := false;
                     args_verify := false |}
                  IOError (turn 0 30 ++ turn 1 30) initial_world eq_refl eq_refl)
           [111; 222] eq_refl).
  discriminate.
Defined.

(** X15.  When the enumeration fails, the scratch session is left as
    it is: [__init__] raises what the failing call raised, right after
    that call, and [main] ends with it before any worker runs.  So when
    [open] or [enum_emu_snr] raises, [close] is never called on the
    scratch object. *)
Theorem enumeration_error_leaves_session
    (api : transport) (IntelHex_load : string → result IntelHex)
    (argv : list cli_arg) (args : Namespace) (e : exn)
    (schedule : list nat) (w w1 : world) :
  CLI_run argv = Ok args →
  run api MainThread (init_snrs args) w = (Raised e, w1) →
  let h := next_handle w in
  let tr1 := trace w ++ [EvNew MainThread h lit_NRF51] in
  let tr2 := tr1 ++ [EvCall MainThread h open] in
  let tr3 := tr2 ++ [EvCall MainThread h enum_emu_snr] in
  let tr4 := tr3 ++ [EvCall MainThread h close] in
  main api IntelHex_load argv schedule w = (Some (Raised e), w1) ∧
  not_list (args_snrs args) = true ∧
  next_handle w1 = S h ∧ nRF5_instances w1 = nRF5_instances w ∧
  ((api tr1 h open = Raised e ∧ trace w1 = tr2) ∨
   (is_ok (api tr1 h open) = true ∧ api tr2 h enum_emu_snr = Raised e ∧ trace w1 = tr3) ∨
   (is_ok (api tr1 h open) = true ∧ is_ok (api tr2 h enum_emu_snr) = true ∧
    api tr3 h close = Raised e ∧ trace w1 = tr4)).
Proof.
  intros Hcli Hsnrs h tr1 tr2 tr3 tr4. split.
  { unfold main. rewrite Hcli.
    by rewrite (init_after_resolution_error api IntelHex_load args w e w1 Hsnrs). }
  unfold init_snrs in Hsnrs.
  destruct (not_list (args_snrs args)); [|done]. split; [done|].
  unfold MultiAPI in Hsnrs. rewrite run_bind in Hsnrs. cbn [run] in Hsnrs.
  rewrite run_call in Hsnrs. cbn [trace next_handle nRF5_instances] in Hsnrs.
  fold h tr1 in Hsnrs.
  destruct (api tr1 h open) as [v1|e1].
  2: { injection Hsnrs as <- <-. simpl. split; [done|]. split; [done|]. left. by split. }
  rewrite run_call in Hsnrs. cbn [trace next_handle nRF5_instances] in Hsnrs.
  fold tr2 in Hsnrs.
  destruct (api tr2 h enum_emu_snr) as [found|e2].
  2: { injection Hsnrs as <- <-. simpl. split; [done|]. split; [done|].
       right. left. by repeat split. }
  rewrite run_call in Hsnrs. cbn [trace next_handle nRF5_instances] in Hsnrs.
  fold tr3 in Hsnrs.
  destruct (api tr3 h close) as [v3|e3]; [done|].
  injection Hsnrs as <- <-. simpl. split; [done|]. split; [done|].
  right. right. by repeat split.
Qed.

(** [open] of the scratch object raises. *)
Lemma enumeration_error_leaves_session_witness :
  main (fun _ _ m => match m with open => Raised APIError | _ => Ok [] end)
    example_load [opt_file "app.hex"] (turn 0 30) initial_world
  = (Some (Raised APIError),
     World 1 ∅ [EvNew MainThread 0 lit_NRF51; EvCall MainThread 0 open]).
Proof.
  apply (proj1 (enumeration_error_leaves_session
                  (fun _ _ m => match m with open => Raised APIError | _ => Ok [] end)
                  example_load [opt_file "app.hex"]
                  {| args_eraseall := false; args_family := None; args_file := "app.hex";
                     args_sectorserase := false; args_sectorsanduicrerase := false;
                     args_snrs := None; args_systemreset := false; args_verify := false |}
                  APIError (turn 0 30) initial_world _ eq_refl eq_refl)).
Defined.

(** ** The order of every worker's calls in the pool *)

Section PoolScript.

Variable api : transport.

Lemma scripted_bind {A B} (p : prog A) (f : A → prog B) script1 script2 :
  scripted p script1 → (∀ a, scripted (f a) script2) →
  scripted (p ≫= f) (script1 ++ script2).
Proof.
  unfold mbind, prog_mbind. intros Hp Hf. revert script1 Hp.
  induction p as [a|e|fam k IH|d h k IH|d k IH|h m k IH]; intros script1 Hp; simpl in *.
  - subst. apply Hf.
  - done.
  - intros h. by apply IH.
  - by apply IH.
  - intros h. by apply IH.
  - destruct Hp as (rest & -> & Hk). exists (rest ++ script2).
    split; [done|]. intros v. by apply IH.
Qed.

Lemma scripted_get_call device {B} m (f : list Z → prog B) script :
  (∀ v, scripted (f v) script) →
  scripted (h ← nRF5_instances_get device; call h m ≫= f) (m :: script).
Proof. intros Hf. simpl. intros h. exists script. split; [done|]. apply Hf. Qed.

Lemma scripted_when c body script :
  scripted body script → scripted (when c body) (if c then script else []).
Proof. by destruct c. Qed.

Lemma scripted_for_each {A} (l : list A) body (script : A → list method) :
  (∀ x, scripted (body x) (script x)) →
  scripted (for_each l body) (concat (map script l)).
Proof.
  intros Hbody. induction l as [|x l IH]; simpl; [done|].
  apply scripted_bind; [apply Hbody | by intros _].
Qed.

Lemma scripted_program_segment self device segment :
  scripted (program_segment self device segment) (segment_script self segment).
Proof.
  destruct segment as [start_addr end_addr]. unfold program_segment, segment_script.
  apply scripted_bind.
  { apply scripted_when. unfold erase_plan. rewrite map_map.
    rewrite <- (concat_singletons (fun page => erase_page (page * PAGE_SIZE self))).
    apply scripted_for_each. intros page. by apply scripted_get_call. }
  intros _. apply scripted_get_call. intros _.
  apply scripted_bind.
  { apply scripted_when. apply scripted_get_call. intros read_data.
    by destruct (_byte_lists_equal _ read_data) as [[]|e]. }
  intros _. apply scripted_when. by apply scripted_get_call.
Qed.

Lemma scripted_perform_command self device :
  scripted (perform_command self device) (worker_script self device).
Proof.
  unfold perform_command, worker_script, _connect_to_device.
  cut (scripted
         ((h ← nRF5_instances_get device;
           call h open ;;
           h ← nRF5_instances_get device;
           call h (connect_to_emu_with_snr device) ;;
           mret tt) ;;
          _program_device self device ;;
          _cleanup self device)
         ([open; connect_to_emu_with_snr device] ++ program_script self ++
          [disconnect_from_emu; close])).
  { intros H. simpl. intros h. apply H. }
  apply scripted_bind.
  { apply scripted_get_call. intros _. by apply scripted_get_call. }
  intros _. apply scripted_bind.
  { unfold _program_device, program_script.
    apply scripted_bind; [by apply scripted_when, scripted_get_call|]. intros _.
    apply scripted_bind; [by apply scripted_when, scripted_get_call|]. intros _.
    apply scripted_for_each. intros segment. apply scripted_program_segment. }
  intros _. unfold _cleanup. apply scripted_get_call. intros _. by apply scripted_get_call.
Qed.

Lemma methods_of_app t evs1 evs2 :
  methods_of t (evs1 ++ evs2) = methods_of t evs1 ++ methods_of t evs2.
Proof. apply omap_app. Qed.

(** One node of worker [i]: its own calls advance along its script, the
    calls of the other workers stay as they are. *)
Lemma step_scripted i (p : prog unit) w rest :
  scripted p rest →
  ∃ evs rest',
    trace (step api (Worker i) p w).2 = trace w ++ evs ∧
    scripted (step api (Worker i) p w).1 rest' ∧
    methods_of (Worker i) evs ++ rest' = rest ∧
    ∀ j, j ≠ i → methods_of (Worker j) evs = [].
Proof.
  intros Hp. destruct p as [a|e|fam k|d h k|d k|h m k]; simpl in *.
  - exists [], rest. by rewrite app_nil_r.
  - exists [], rest. by rewrite app_nil_r.
  - exists [EvNew (Worker i) (next_handle w) fam], rest.
    split; [done|]. split; [apply Hp|]. by split.
  - exists [], rest. by rewrite app_nil_r.
  - exists [], rest. rewrite app_nil_r.
    destruct (nRF5_instances w !! d); simpl; (split; [done|]);
      (split; [by auto|]); by split.
  - destruct Hp as (rest' & -> & Hk).
    exists [EvCall (Worker i) h m], rest'.
    split; [by destruct (api (trace w) h m)|].
    split; [destruct (api (trace w) h m); simpl; auto|].
    split.
    + unfold methods_of. simpl. by rewrite Nat.eqb_refl.
    + intros j Hne. unfold methods_of. simpl.
      by destruct (Nat.eqb_spec j i).
Qed.

End PoolScript.

Section PoolScriptInvariant.

Variable api : transport.
Variable nRF : nRF5MultiFlash.

Lemma pool_step_scripted i ps w evs0 :
  length (workers ps) = length (snrs nRF) →
  pool_scripted nRF ps evs0 →
  ∃ evs, trace (pool_step api i ps w).2 = trace w ++ evs ∧
         pool_scripted nRF (pool_step api i ps w).1 (evs0 ++ evs).
Proof.
  intros Hlen Hinv.
  pose proof (pool_step_workers api i ps w) as Hws.
  pose proof (pool_step_world api i ps w) as Hwd.
  destruct (workers ps !! i) as [p|] eqn:Hp.
  2: { exists []. rewrite !app_nil_r, Hwd. split; [done|].
       intros j device q Hj Hq. rewrite Hws in Hq. by apply Hinv. }
  pose proof (lookup_lt_Some _ _ _ Hp) as Hlt.
  destruct (lookup_lt_is_Some_2 (snrs nRF) i ltac:(lia)) as [device Hi].
  destruct (Hinv i device p Hi Hp) as (rest & Hrest & Hscript).
  destruct (step_scripted api i p w rest Hrest) as (evs & rest' & Ht & Hp' & Hown & Hother).
  exists evs. rewrite Hwd. split; [done|].
  intros j dj q Hj Hq. rewrite Hws in Hq. rewrite methods_of_app.
  destruct (decide (j = i)) as [->|Hne].
  - rewrite list_lookup_insert_eq in Hq by done. injection Hq as <-.
    rewrite Hi in Hj. injection Hj as <-.
    exists rest'. split; [done|]. by rewrite <- app_assoc, Hown.
  - rewrite list_lookup_insert_ne in Hq by done.
    destruct (Hinv j dj q Hj Hq) as (rest_j & Hq' & Hscript_j).
    exists rest_j. split; [done|]. by rewrite (Hother j Hne), app_nil_r.
Qed.

Lemma run_pool_scripted schedule : ∀ ps w evs0,
  length (workers ps) = length (snrs nRF) →
  pool_scripted nRF ps evs0 →
  ∃ evs, trace (run_pool api schedule ps w).2 = trace w ++ evs ∧
         pool_scripted nRF (run_pool api schedule ps w).1 (evs0 ++ evs).
Proof.
  induction schedule as [|i schedule IH]; intros ps w evs0 Hlen Hinv.
  - exists []. by rewrite !app_nil_r.
  - rewrite run_pool_cons.
    destruct (pool_step_scripted i ps w evs0 Hlen Hinv) as (evs1 & Ht1 & Hinv1).
    destruct (IH (pool_step api i ps w).1 (pool_step api i ps w).2 (evs0 ++ evs1))
      as (evs2 & Ht2 & Hinv2); [by rewrite pool_step_length | done |].
    exists (evs1 ++ evs2). rewrite Ht2, Ht1, !app_assoc. done.
Qed.

Lemma initial_pool_scripted : pool_scripted nRF (initial_pool nRF) [].
Proof.
  intros i device p Hi Hp. simpl in Hp.
  apply list_lookup_fmap_Some in Hp as (device' & -> & Hd).
  rewrite Hi in Hd. injection Hd as <-.
  exists (worker_script nRF device). split; [apply scripted_perform_command | done].
Qed.

End PoolScriptInvariant.

(** X16.  Under every interleaving of the workers, and for duplicated
    targets too, the methods each worker has called so far are a prefix
    of its own script (open, connect, the erases, writes, read-backs and
    resets of the image in order, disconnect, close); a worker that has
    returned has called all of it.  The other workers change neither the
    order nor the arguments of a worker's calls. *)
Theorem pool_workers_follow_their_scripts
    (api : transport) (nRF : nRF5MultiFlash) (schedule : list nat) (w : world) :
  ∃ evs,
    trace (run_pool api schedule (initial_pool nRF) w).2 = trace w ++ evs ∧
    ∀ i device, snrs nRF !! i = Some device →
      methods_of (Worker i) evs `prefix_of` worker_script nRF device ∧
      (workers (run_pool api schedule (initial_pool nRF) w).1 !! i = Some (Ret tt) →
       methods_of (Worker i) evs = worker_script nRF device).
Proof.
  destruct (run_pool_scripted api nRF schedule (initial_pool nRF) w [])
    as (evs & Ht & Hinv).
  { simpl. apply length_map. }
  { apply initial_pool_scripted. }
  exists evs. split; [done|]. intros i device Hi.
  pose proof (run_pool_length api schedule (initial_pool nRF) w) as Hlen.
  simpl in Hlen. rewrite length_map in Hlen.
  apply lookup_lt_Some in Hi as Hlt.
  destruct (lookup_lt_is_Some_2 (workers (run_pool api schedule (initial_pool nRF) w).1) i
              ltac:(lia)) as [p Hp].
  destruct (Hinv i device p Hi Hp) as (rest & Hrest & Hscript).
  simpl in Hscript. split.
  - exists rest. by rewrite Hscript.
  - intros Hret. rewrite Hp in Hret. injection Hret as ->. simpl in Hrest. subst rest.
    by rewrite app_nil_r in Hscript.
Qed.

Section CloseLast.

Lemma program_script_never_closes self :
  Forall (fun m => m ≠ close) (program_script self).
Proof.
  unfold program_script. repeat apply Forall_app_2.
  - destruct (erase_all self); by repeat constructor.
  - destruct (sectors_and_uicr_erase self); by repeat constructor.
  - apply Forall_concat, Forall_fmap, Forall_forall. intros [start_addr end_addr] _.
    unfold segment_script. repeat apply Forall_app_2.
    + destruct (_ || _); [|constructor]. apply Forall_fmap, Forall_forall. by intros.
    + by repeat constructor.
    + destruct (verify self); by repeat constructor.
    + destruct (systemreset self); by repeat constructor.
Qed.

(** A prefix of [front ++ [x]] in which [x] occurs, [x] not occurring in
    [front], is all of it. *)
Lemma prefix_with_last {A} (called front : list A) x :
  called `prefix_of` front ++ [x] → x ∉ front → x ∈ called → called = front ++ [x].
Proof.
  intros [rest Hrest] Hfront Hin.
  destruct rest as [|y rest _] using rev_ind; [by rewrite app_nil_r in Hrest|].
  rewrite app_assoc in Hrest. apply app_inj_tail in Hrest as [-> _].
  exfalso. apply Hfront. apply elem_of_app. by left.
Qed.

End CloseLast.

(** X17.  Under every interleaving, a worker calls [close] last or not
    at all: a worker that has called [close] has before that made every
    other call of its script, the writes of all segments and the
    disconnect included. *)
Theorem close_is_called_last
    (api : transport) (nRF : nRF5MultiFlash) (schedule : list nat) (w : world) :
  ∃ evs,
    trace (run_pool api schedule (initial_pool nRF) w).2 = trace w ++ evs ∧
    ∀ i device, snrs nRF !! i = Some device →
      close ∈ methods_of (Worker i) evs →
      methods_of (Worker i) evs
      = [open; connect_to_emu_with_snr device] ++ program_script nRF ++
        [disconnect_from_emu; close].
Proof.
  destruct (run_pool_scripted api nRF schedule (initial_pool nRF) w [])
    as (evs & Ht & Hinv).
  { simpl. apply length_map. }
  { apply initial_pool_scripted. }
  exists evs. split; [done|]. intros i device Hi Hclose.
  pose proof (run_pool_length api schedule (initial_pool nRF) w) as Hlen.
  simpl in Hlen. rewrite length_map in Hlen.
  apply lookup_lt_Some in Hi as Hlt.
  destruct (lookup_lt_is_Some_2 (workers (run_pool api schedule (initial_pool nRF) w).1) i
              ltac:(lia)) as [p Hp].
  destruct (Hinv i device p Hi Hp) as (rest & _ & Hscript). simpl in Hscript.
  assert (Hsplit : worker_script nRF device
                   = ([open; connect_to_emu_with_snr device] ++ program_script nRF ++
                      [disconnect_from_emu]) ++ [close]).
  { unfold worker_script. by rewrite <- !app_assoc. }
  fold (worker_script nRF device). rewrite Hsplit.
  apply prefix_with_last; [| |done].
  - exists rest. by rewrite Hscript, Hsplit.
  - rewrite !elem_of_app, !elem_of_cons, elem_of_nil.
    pose proof (program_script_never_closes nRF) as Hnever.
    rewrite Forall_forall in Hnever.
    intros [[?|[?|[]]]|[Hin|[?|[]]]]; try done. by apply (Hnever close).
Qed.

(** Probe 222 fails on write: worker 1 never calls [close]; worker 0,
    which has, made all its calls. *)
Lemma close_is_called_last_witness :
  ∃ evs,
    trace (run_pool (write_fails_on 222) (turn 0 30 ++ turn 1 30)
             (initial_pool (example_nRF [111; 222])) initial_world).2
    = trace initial_world ++ evs ∧
    ∀ i device, snrs (example_nRF [111; 222]) !! i = Some device →
      close ∈ methods_of (Worker i) evs →
      methods_of (Worker i) evs
      = [open; connect_to_emu_with_snr device] ++ program_script (example_nRF [111; 222]) ++
        [disconnect_from_emu; close].
Proof.
  apply (close_is_called_last (write_fails_on 222) (example_nRF [111; 222])
           (turn 0 30 ++ turn 1 30) initial_world).
Defined.

(** ** What a run of [main] that returns has done *)

Section MainReturns.

Lemma map_result_ok_all_returned ps outs :
  failure_sound ps → map_result ps = Some (Ok outs) →
  ∀ j p, workers ps !! j = Some p → p = Ret tt.
Proof.
  intros [_ Hraised]. unfold map_result.
  destruct (failure ps) eqn:Hf; [done|].
  destruct (forallb finished (workers ps)) eqn:Hfin; [|done]. intros _ j p Hj.
  rewrite forallb_forall in Hfin.
  assert (Hp : finished p = true).
  { apply Hfin. apply list_elem_of_In. by eapply list_elem_of_lookup_2. }
  destruct p as [[]|e| | | |]; try done.
  destruct (Hraised j e Hj) as [? ?]. congruence.
Qed.

Lemma segment_write_in_script self device start_addr end_addr :
  (start_addr, end_addr) ∈ segments (hex_file self) →
  write start_addr (tobinarray (hex_file self) start_addr (end_addr - start_addr)) true
  ∈ worker_script self device.
Proof.
  intros Hin. unfold worker_script, program_script.
  rewrite !elem_of_app. right. left. right. right.
  apply list_elem_of_In, in_concat.
  exists (segment_script self (start_addr, end_addr)). split.
  - apply in_map. by apply list_elem_of_In.
  - apply list_elem_of_In. unfold segment_script.
    rewrite !elem_of_app. right. left. apply list_elem_of_singleton. done.
Qed.

End MainReturns.

(** X18.  A [main] that returns has programmed every target in full:
    the command line was accepted, [__init__] built the object, there
    was at least one target, and every worker made all the calls of its
    script, none of which raised; in particular it wrote every segment
    of the image through the probe of its target. *)
Theorem main_return_means_all_programmed
    (api : transport) (IntelHex_load : string → result IntelHex)
    (argv : list cli_arg) (schedule : list nat) (w w' : world) :
  main api IntelHex_load argv schedule w = (Some (Ok tt), w') →
  ∃ args nRF w1 evs,
    CLI_run argv = Ok args ∧
    run api MainThread (__init__ IntelHex_load args) w = (Ok nRF, w1) ∧
    snrs nRF ≠ [] ∧
    trace w' = trace w1 ++ evs ∧
    ∀ i device, snrs nRF !! i = Some device →
      methods_of (Worker i) evs = worker_script nRF device ∧
      ∀ start_addr end_addr, (start_addr, end_addr) ∈ segments (hex_file nRF) →
        write start_addr (tobinarray (hex_file nRF) start_addr (end_addr - start_addr)) true
        ∈ methods_of (Worker i) evs.
Proof.
  unfold main. intros Hmain.
  destruct (CLI_run argv) as [args|e] eqn:Hcli; [|done].
  destruct (run api MainThread (__init__ IntelHex_load args) w) as [[nRF|e] w1] eqn:Hinit;
    [|done].
  unfold ThreadPool in Hmain.
  destruct (Nat.ltb_spec (length (snrs nRF)) 1) as [Hlt|Hge]; [done|].
  unfold pool_map in Hmain.
  destruct (run_pool_scripted api nRF schedule (initial_pool nRF) w1 [])
    as (evs & Ht & Hinv).
  { simpl. apply length_map. }
  { apply initial_pool_scripted. }
  pose proof (run_pool_failure_sound api schedule (initial_pool nRF) w1
                (initial_pool_failure_sound nRF)) as Hsound.
  pose proof (run_pool_length api schedule (initial_pool nRF) w1) as Hlen.
  simpl in Hlen. rewrite length_map in Hlen.
  destruct (run_pool api schedule (initial_pool nRF) w1) as [ps w2] eqn:Hpool.
  simpl in Ht, Hinv, Hsound, Hlen.
  destruct (map_result ps) as [[outs|e]|] eqn:Hres; [|done|done].
  injection Hmain as <-.
  exists args, nRF, w1, evs. split; [done|]. split; [done|].
  split; [intros Hnil; rewrite Hnil in Hge; simpl in Hge; lia|]. split; [done|].
  intros i device Hi.
  apply lookup_lt_Some in Hi as Hlt.
  destruct (lookup_lt_is_Some_2 (workers ps) i ltac:(lia)) as [p Hp].
  destruct (Hinv i device p Hi Hp) as (rest & Hrest & Hscript). simpl in Hscript.
  rewrite (map_result_ok_all_returned ps outs Hsound Hres i p Hp) in Hrest.
  simpl in Hrest. subst rest. rewrite app_nil_r in Hscript.
  split; [done|]. intros start_addr end_addr Hseg. rewrite Hscript.
  by apply segment_write_in_script.
Qed.

(** Two targets, sector erase and verify, the workers taking turns. *)
Lemma main_return_means_all_programmed_witness :
  ∃ args nRF w1 evs,
    CLI_run [opt_file "app.hex"; opt_snrs [111; 222]; opt_sectorserase; opt_verify] = Ok args ∧
    run probes_ok MainThread (__init__ example_load args) initial_world = (Ok nRF, w1) ∧
    snrs nRF ≠ [] ∧
    trace (main probes_ok example_load
             [opt_file "app.hex"; opt_snrs [111; 222]; opt_sectorserase; opt_verify]
             (concat (replicate 30 [0; 1]%nat)) initial_world).2
    = trace w1 ++ evs ∧
    ∀ i device, snrs nRF !! i = Some device →
      methods_of (Worker i) evs = worker_script nRF device ∧
      ∀ start_addr end_addr, (start_addr, end_addr) ∈ segments (hex_file nRF) →
        write start_addr (tobinarray (hex_file nRF) start_addr (end_addr - start_addr)) true
        ∈ methods_of (Worker i) evs.
Proof.
  apply (main_return_means_all_programmed probes_ok example_load
           [opt_file "app.hex"; opt_snrs [111; 222]; opt_sectorserase; opt_verify]
           (concat (replicate 30 [0; 1]%nat)) initial_world).
  vm_compute. reflexivity.
Defined.

(** ** Every worker ends *)

Section EndsWithin.

Variable api : transport.

Lemma ends_within_le {A} (p : prog A) : ∀ n m,
  ends_within p n → (n ≤ m)%nat → ends_within p m.
Proof.
  induction p as [a|e|fam k IH|d h k IH|d k IH|h m' k IH]; intros n m Hp Hle;
    simpl in *; try done.
  all: destruct n as [|n]; [done|]; destruct m as [|m]; [lia|].
  - intros h. apply (IH h n); [apply Hp | lia].
  - apply (IH n); [apply Hp | lia].
  - intros h. apply (IH h n); [apply Hp | lia].
  - intros v. apply (IH v n); [apply Hp | lia].
Qed.

Lemma ends_within_bind {A B} (p : prog A) (f : A → prog B) m : ∀ n,
  ends_within p n → (∀ a, ends_within (f a) m) → ends_within (p ≫= f) (n + m).
Proof.
  unfold mbind, prog_mbind.
  induction p as [a|e|fam k IH|d h k IH|d k IH|h m' k IH]; intros n Hp Hf; simpl in *.
  - apply (ends_within_le (f a) m); [apply Hf | lia].
  - done.
  - destruct n as [|n]; [done|]. simpl. intros h. by apply IH.
  - destruct n as [|n]; [done|]. simpl. by apply IH.
  - destruct n as [|n]; [done|]. simpl. intros h. by apply IH.
  - destruct n as [|n]; [done|]. simpl. intros v. by apply IH.
Qed.

Lemma ends_within_get_call device {B} m (f : list Z → prog B) n :
  (∀ v, ends_within (f v) n) →
  ends_within (h ← nRF5_instances_get device; call h m ≫= f) (2 + n).
Proof. intros Hf. simpl. intros h v. apply Hf. Qed.

Lemma ends_within_when c body n :
  ends_within body n → ends_within (when c body) (if c then n else 0).
Proof. by destruct c. Qed.

Lemma ends_within_for_each {A} (l : list A) body (script : A → list method) :
  (∀ x, ends_within (body x) (2 * length (script x))) →
  ends_within (for_each l body) (2 * length (concat (map script l))).
Proof.
  intros Hbody. induction l as [|x l IH]; simpl; [done|].
  rewrite length_app.
  apply (ends_within_le _ (2 * length (script x) + 2 * length (concat (map script l))));
    [|lia].
  apply ends_within_bind; [apply Hbody | by intros _].
Qed.

Lemma ends_within_program_segment self device segment :
  ends_within (program_segment self device segment)
    (2 * length (segment_script self segment)).
Proof.
  destruct segment as [start_addr end_addr]. unfold program_segment, segment_script.
  rewrite !length_app.
  match goal with |- ends_within _ (2 * (?a + (?b + (?c + ?d)))) =>
    apply (ends_within_le _ (2 * a + (2 + (2 * c + 2 * d)))); [|simpl; lia]
  end.
  apply ends_within_bind.
  { destruct (sectors_erase self || sectors_and_uicr_erase self); simpl when; [|done].
    unfold erase_plan. rewrite map_map.
    rewrite <- (concat_singletons (fun page => erase_page (page * PAGE_SIZE self))).
    apply ends_within_for_each. intros page. by apply (ends_within_get_call _ _ _ 0). }
  intros _. apply ends_within_get_call. intros _.
  apply ends_within_bind.
  { destruct (verify self); simpl when; [|done].
    apply (ends_within_get_call _ _ _ 0). intros read_data.
    by destruct (_byte_lists_equal _ read_data) as [[]|e]. }
  intros _. destruct (systemreset self); simpl when; [|done].
  by apply (ends_within_get_call _ _ _ 0).
Qed.

(** A worker runs two nodes for its object and two for every call. *)
Lemma ends_within_perform_command self device :
  ends_within (perform_command self device)
    (2 + 2 * length (worker_script self device)).
Proof.
  unfold perform_command, worker_script, _connect_to_device.
  cut (ends_within
         ((h ← nRF5_instances_get device;
           call h open ;;
           h ← nRF5_instances_get device;
           call h (connect_to_emu_with_snr device) ;;
           mret tt) ;;
          _program_device self device ;;
          _cleanup self device)
         (2 * length ([open; connect_to_emu_with_snr device] ++ program_script self ++
                      [disconnect_from_emu; close]))).
  { intros H. simpl. intros h. apply H. }
  rewrite !length_app.
  match goal with |- ends_within _ (2 * (?a + (?b + ?c))) =>
    apply (ends_within_le _ (4 + (2 * b + 4))); [|simpl; lia]
  end.
  apply ends_within_bind.
  { apply (ends_within_get_call _ _ _ 2). intros _.
    by apply (ends_within_get_call _ _ _ 0). }
  intros _. apply ends_within_bind.
  { unfold _program_device, program_script. rewrite !length_app.
    match goal with |- ends_within _ (2 * (?a + (?b + ?c))) =>
      apply (ends_within_le _ (2 * a + (2 * b + 2 * c))); [|lia]
    end.
    apply ends_within_bind.
    { destruct (erase_all self); simpl when; [|done].
      by apply (ends_within_get_call _ _ _ 0). }
    intros _. apply ends_within_bind.
    { destruct (sectors_and_uicr_erase self); simpl when; [|done].
      by apply (ends_within_get_call _ _ _ 0). }
    intros _. apply ends_within_for_each. intros segment.
    apply ends_within_program_segment. }
  intros _. unfold _cleanup. apply (ends_within_get_call _ _ _ 2). intros _.
  by apply (ends_within_get_call _ _ _ 0).
Qed.

Lemma step_ends_within {A} t (p : prog A) w n :
  ends_within p n → ends_within (step api t p w).1 (pred n).
Proof.
  destruct p as [a|e|fam k|d h k|d k|h m k]; simpl; try done.
  all: destruct n as [|n]; [done|]; simpl; intros Hp.
  - apply Hp.
  - done.
  - destruct (nRF5_instances w !! d); simpl; [apply Hp | done].
  - destruct (api (trace w) h m); simpl; [apply Hp | done].
Qed.

Lemma ends_within_0 {A} (p : prog A) : ends_within p 0 → finished p = true.
Proof. by destruct p. Qed.

Lemma turns_of_cons_eq i schedule : turns_of i (i :: schedule) = S (turns_of i schedule).
Proof. unfold turns_of. by rewrite count_occ_cons_eq. Qed.

Lemma turns_of_cons_ne i j schedule : j ≠ i → turns_of i (j :: schedule) = turns_of i schedule.
Proof. intros Hne. unfold turns_of. by rewrite count_occ_cons_neq. Qed.

(** After the schedule, worker [i] has that many nodes fewer to run. *)
Lemma run_pool_ends_within i schedule : ∀ ps w p n,
  workers ps !! i = Some p → ends_within p n →
  ∃ q, workers (run_pool api schedule ps w).1 !! i = Some q ∧
       ends_within q (n - turns_of i schedule).
Proof.
  induction schedule as [|j schedule IH]; intros ps w p n Hp Hn.
  - exists p. split; [done|]. unfold turns_of. simpl. by rewrite Nat.sub_0_r.
  - rewrite run_pool_cons.
    pose proof (pool_step_workers api j ps w) as Hws.
    destruct (decide (j = i)) as [->|Hne].
    + rewrite Hp in Hws.
      destruct (IH (pool_step api i ps w).1 (pool_step api i ps w).2
                  (step api (Worker i) p w).1 (pred n)) as (q & Hq & Hend).
      { rewrite Hws. apply list_lookup_insert_eq. by eapply lookup_lt_Some. }
      { by apply step_ends_within. }
      exists q. split; [done|]. rewrite turns_of_cons_eq.
      by replace (n - S (turns_of i schedule))%nat with (pred n - turns_of i schedule)%nat
        by lia.
    + destruct (IH (pool_step api j ps w).1 (pool_step api j ps w).2 p n)
        as (q & Hq & Hend); [|done|].
      { rewrite Hws. destruct (workers ps !! j); [|done].
        by rewrite list_lookup_insert_ne. }
      exists q. split; [done|]. by rewrite turns_of_cons_ne.
Qed.

(** Once the schedule has let every worker run as often as its script
    takes, every worker has ended. *)
Lemma workers_end_after_turns nRF schedule w :
  (∀ i device, snrs nRF !! i = Some device →
     (2 + 2 * length (worker_script nRF device) ≤ turns_of i schedule)%nat) →
  ∀ i p, workers (run_pool api schedule (initial_pool nRF) w).1 !! i = Some p →
         finished p = true.
Proof.
  intros Hturns i p Hp.
  pose proof (run_pool_length api schedule (initial_pool nRF) w) as Hlen.
  simpl in Hlen. rewrite length_map in Hlen.
  apply lookup_lt_Some in Hp as Hlt.
  destruct (lookup_lt_is_Some_2 (snrs nRF) i ltac:(lia)) as [device Hi].
  destruct (run_pool_ends_within i schedule (initial_pool nRF) w
              (perform_command nRF device) (2 + 2 * length (worker_script nRF device)))
    as (q & Hq & Hend).
  { simpl. by rewrite list_lookup_fmap, Hi. }
  { apply ends_within_perform_command. }
  rewrite Hp in Hq. injection Hq as <-.
  specialize (Hturns i device Hi).
  apply ends_within_0.
  by replace (2 + 2 * length (worker_script nRF device) - turns_of i schedule)%nat
    with 0%nat in Hend by lia.
Qed.

End EndsWithin.

(** X19.  No worker waits or repeats: it runs two nodes for its
    [MultiAPI] object and two for every call of its script, at most.  So
    once the schedule has let every worker run that often, every worker
    has returned or ended with an exception, and [pool.map] has handed
    [main] the list or re-raised; [main] is not left waiting. *)
Theorem pool_map_ends_after_enough_turns
    (api : transport) (nRF : nRF5MultiFlash) (schedule : list nat) (w : world) :
  (∀ i device, snrs nRF !! i = Some device →
     (2 + 2 * length (worker_script nRF device) ≤ turns_of i schedule)%nat) →
  (∀ i p, workers (run_pool api schedule (initial_pool nRF) w).1 !! i = Some p →
          finished p = true) ∧
  ∃ outcome, (pool_map api nRF schedule w).1 = Some outcome.
Proof.
  intros Hturns.
  pose proof (workers_end_after_turns api nRF schedule w Hturns) as Hall.
  split; [done|].
  unfold pool_map. destruct (run_pool api schedule (initial_pool nRF) w) as [ps w'].
  simpl in *. unfold map_result. destruct (failure ps); [by eexists|].
  rewrite (forallb_finished ps Hall). by eexists.
Qed.

(** Two targets, thirty turns each: a worker of [example_nRF] needs
    twenty-six. *)
Lemma pool_map_ends_after_enough_turns_witness :
  ∃ outcome,
    (pool_map probes_ok (example_nRF [111; 222]) (concat (replicate 30 [0; 1]%nat))
       initial_world).1 = Some outcome.
Proof.
  apply (pool_map_ends_after_enough_turns probes_ok (example_nRF [111; 222])
           (concat (replicate 30 [0; 1]%nat)) initial_world).
  intros [|[|i]] device Hi; try discriminate Hi; vm_compute; lia.
Defined.

(** ** Where a worker's exception comes from *)

Section RaisesOnly.

Variable reject : method → list Z → exn → Prop.
Variable device : Z.

Lemma raises_only_weaken {A} (p : prog A) : ∀ (P P' : exn → Prop) present,
  (∀ e, P e → P' e) →
  raises_only device reject P present p → raises_only device reject P' present p.
Proof.
  induction p as [a|e|fam k IH|d h k IH|d k IH|h m k IH]; intros P P' present HP Hp;
    simpl in *.
  - done.
  - by apply HP.
  - intros h. by apply (IH h P).
  - by apply (IH P).
  - destruct Hp as (Hd & Hpresent & Hk). split; [done|]. split; [done|].
    intros h. by apply (IH h P).
  - intros v. apply (IH v (fun e => P e ∨ reject m v e)); [|apply Hp].
    intros e [He|He]; [left; by apply HP | by right].
Qed.

Lemma raises_only_bind {A B} (p : prog A) (f : A → prog B) : ∀ (P : exn → Prop),
  raises_only device reject P true p →
  (∀ a, raises_only device reject P true (f a)) →
  raises_only device reject P true (p ≫= f).
Proof.
  unfold mbind, prog_mbind.
  induction p as [a|e|fam k IH|d h k IH|d k IH|h m k IH]; intros P Hp Hf; simpl in *.
  - apply Hf.
  - done.
  - intros h. by apply IH.
  - by apply IH.
  - destruct Hp as (Hd & Hpresent & Hk). split; [done|]. split; [done|].
    intros h. by apply IH.
  - intros v. apply IH; [apply Hp|].
    intros a. apply (raises_only_weaken (f a) P); [by left | apply Hf].
Qed.

Lemma raises_only_get_call {B} m (f : list Z → prog B) (P : exn → Prop) :
  (∀ v, raises_only device reject (fun e => P e ∨ reject m v e) true (f v)) →
  raises_only device reject P true (h ← nRF5_instances_get device; call h m ≫= f).
Proof. intros Hf. simpl. split; [done|]. split; [done|]. intros h v. apply Hf. Qed.

Lemma raises_only_when c body (P : exn → Prop) :
  raises_only device reject P true body → raises_only device reject P true (when c body).
Proof. by destruct c. Qed.

Lemma raises_only_for_each {A} (l : list A) body (P : exn → Prop) :
  (∀ x, x ∈ l → raises_only device reject P true (body x)) →
  raises_only device reject P true (for_each l body).
Proof.
  induction l as [|x l IH]; intros Hbody; simpl; [done|].
  apply raises_only_bind; [apply Hbody; by left|].
  intros _. apply IH. intros y Hy. apply Hbody. by right.
Qed.

End RaisesOnly.

Section WorkerRaises.

Variable self : nRF5MultiFlash.
Variable device : Z.

(** Of its own, a pass of the segment loop raises only what verify makes
    of a read-back. *)
Lemma program_segment_raises_only segment (P : exn → Prop) :
  segment ∈ segments (hex_file self) →
  raises_only device (verify_rejects self) P true (program_segment self device segment).
Proof.
  destruct segment as [start_addr end_addr]. intros Hseg. unfold program_segment.
  apply raises_only_bind.
  { apply raises_only_when, raises_only_for_each. intros page _.
    by apply raises_only_get_call. }
  intros _. apply raises_only_get_call. intros ?.
  apply raises_only_bind.
  { destruct (verify self) eqn:Hverify; simpl when; [|done].
    apply raises_only_get_call. intros read_data.
    destruct (_byte_lists_equal _ read_data) as [[]|e] eqn:Hcmp; simpl.
    - done.
    - right. split; [done|]. exists start_addr, end_addr. split; [done|].
      split; [done|]. by right.
    - right. split; [done|]. exists start_addr, end_addr. split; [done|].
      split; [done|]. by left. }
  intros _. apply raises_only_when. by apply raises_only_get_call.
Qed.

Lemma perform_command_raises_only (P : exn → Prop) :
  raises_only device (verify_rejects self) P false (perform_command self device).
Proof.
  unfold perform_command, _connect_to_device.
  cut (raises_only device (verify_rejects self) P true
         ((h ← nRF5_instances_get device;
           call h open ;;
           h ← nRF5_instances_get device;
           call h (connect_to_emu_with_snr device) ;;
           mret tt) ;;
          _program_device self device ;;
          _cleanup self device)).
  { intros H. simpl. intros h. rewrite Z.eqb_refl. apply H. }
  apply raises_only_bind.
  { apply raises_only_get_call. intros ?. by apply raises_only_get_call. }
  intros _. apply raises_only_bind.
  { unfold _program_device.
    apply raises_only_bind; [by apply raises_only_when, raises_only_get_call|]. intros _.
    apply raises_only_bind; [by apply raises_only_when, raises_only_get_call|]. intros _.
    apply raises_only_for_each. intros segment Hseg.
    by apply program_segment_raises_only. }
  intros _. unfold _cleanup. apply raises_only_get_call. intros ?.
  by apply raises_only_get_call.
Qed.

End WorkerRaises.

Section Accounted.

Variable api : transport.
Variable reject : method → list Z → exn → Prop.

Lemma transport_raised_app i tr0 evs evs' e :
  transport_raised api i tr0 evs e → transport_raised api i tr0 (evs ++ evs') e.
Proof.
  intros (before & h & m & after & -> & Hraised).
  exists before, h, m, (after ++ evs'). by rewrite <- app_assoc.
Qed.

Lemma answer_rejected_app i tr0 evs evs' e :
  answer_rejected api reject i tr0 evs e → answer_rejected api reject i tr0 (evs ++ evs') e.
Proof.
  intros (before & h & m & v & after & -> & Hanswer & Hreject).
  exists before, h, m, v, (after ++ evs'). by rewrite <- app_assoc.
Qed.

(** A node never removes a key from the dict. *)
Lemma step_keeps_keys {A} t (p : prog A) w d :
  is_Some (nRF5_instances w !! d) → is_Some (nRF5_instances (step api t p w).2 !! d).
Proof.
  destruct p as [a|e|fam k|d' h k|d' k|h m k]; simpl; try done.
  - intros Hd. destruct (decide (d' = d)) as [->|Hne].
    + rewrite lookup_insert_eq. by eexists.
    + by rewrite lookup_insert_ne.
  - by destruct (nRF5_instances w !! d').
  - by destruct (api (trace w) h m).
Qed.

(** One node of worker [i]. *)
Lemma step_accounted i device (p : prog unit) w tr0 evs present :
  trace w = tr0 ++ evs →
  raises_only device reject (answer_rejected api reject i tr0 evs) present p →
  (present = true → is_Some (nRF5_instances w !! device)) →
  ∃ evs',
    trace (step api (Worker i) p w).2 = trace w ++ evs' ∧
    ((∃ e, (step api (Worker i) p w).1 = Raise e ∧
           transport_raised api i tr0 (evs ++ evs') e) ∨
     (∃ present',
        raises_only device reject (answer_rejected api reject i tr0 (evs ++ evs')) present'
          (step api (Worker i) p w).1 ∧
        (present' = true → is_Some (nRF5_instances (step api (Worker i) p w).2 !! device)))).
Proof.
  intros Ht Hp Hkey.
  destruct p as [a|e|fam k|d h k|d k|h m k]; simpl in *.
  - exists []. rewrite !app_nil_r. split; [done|]. right. by exists present.
  - exists []. rewrite !app_nil_r. split; [done|]. right. by exists present.
  - exists [EvNew (Worker i) (next_handle w) fam]. split; [done|]. right.
    exists present. split; [|done].
    apply (raises_only_weaken reject device _ (answer_rejected api reject i tr0 evs));
      [intros e; apply answer_rejected_app | apply Hp].
  - exists []. rewrite !app_nil_r. split; [done|]. right.
    exists (present || (d =? device)). split; [done|].
    intros [Hpresent|Heq]%orb_true_iff.
    + destruct (decide (d = device)) as [->|Hne].
      * rewrite lookup_insert_eq. by eexists.
      * rewrite lookup_insert_ne by done. by apply Hkey.
    + apply Z.eqb_eq in Heq as ->. rewrite lookup_insert_eq. by eexists.
  - destruct Hp as (-> & -> & Hk). destruct (Hkey eq_refl) as [h Hh]. rewrite Hh. simpl.
    exists []. rewrite !app_nil_r. split; [done|]. right. exists true.
    split; [apply Hk | by eexists].
  - exists [EvCall (Worker i) h m].
    destruct (api (trace w) h m) as [v|e] eqn:Hanswer; simpl; (split; [done|]).
    + right. exists present. split; [|done].
      apply (raises_only_weaken reject device _
               (fun e => answer_rejected api reject i tr0 evs e ∨ reject m v e));
        [|apply Hp].
      intros e [He|He]; [by apply answer_rejected_app|].
      exists evs, h, m, v, []. rewrite <- Ht. done.
    + left. exists e. split; [done|].
      exists evs, h, m, []. by rewrite <- Ht.
Qed.

Variable targets : list Z.

Lemma pool_step_accounted i ps w tr0 evs :
  length (workers ps) = length targets →
  trace w = tr0 ++ evs →
  pool_accounted api reject targets ps w tr0 evs →
  ∃ evs',
    trace (pool_step api i ps w).2 = tr0 ++ evs ++ evs' ∧
    pool_accounted api reject targets (pool_step api i ps w).1 (pool_step api i ps w).2
      tr0 (evs ++ evs').
Proof.
  intros Hlen Ht Hinv.
  pose proof (pool_step_workers api i ps w) as Hws.
  pose proof (pool_step_world api i ps w) as Hwd.
  destruct (workers ps !! i) as [p|] eqn:Hp.
  2: { exists []. rewrite !app_nil_r, Hwd. split; [done|].
       intros j dj q Hj Hq. rewrite Hws in Hq. by apply Hinv. }
  pose proof (lookup_lt_Some _ _ _ Hp) as Hlt.
  destruct (lookup_lt_is_Some_2 targets i ltac:(lia)) as [device Hi].
  assert (Hothers : ∀ evs' j dj q,
            trace (step api (Worker i) p w).2 = trace w ++ evs' →
            targets !! j = Some dj → workers ps !! j = Some q →
            (∃ e, q = Raise e ∧ transport_raised api j tr0 (evs ++ evs') e) ∨
            (∃ present,
               raises_only dj reject (answer_rejected api reject j tr0 (evs ++ evs'))
                 present q ∧
               (present = true →
                is_Some (nRF5_instances (step api (Worker i) p w).2 !! dj)))).
  { intros evs' j dj q _ Hj Hq.
    destruct (Hinv j dj q Hj Hq) as [(e & -> & Hraised)|(present & Hq' & Hkey)].
    - left. exists e. split; [done|]. by apply transport_raised_app.
    - right. exists present. split.
      + apply (raises_only_weaken reject dj q (answer_rejected api reject j tr0 evs));
          [intros e; apply answer_rejected_app | done].
      + intros Hpresent. by apply step_keeps_keys, Hkey. }
  destruct (Hinv i device p Hi Hp) as [(e & -> & Hraised)|(present & Hp' & Hkey)].
  - exists []. rewrite !app_nil_r, Hwd. simpl. split; [done|].
    intros j dj q Hj Hq. rewrite Hws in Hq. simpl in Hq.
    rewrite list_insert_id in Hq by done. by apply Hinv.
  - destruct (step_accounted i device p w tr0 evs present Ht Hp' Hkey)
      as (evs' & Ht' & Hstep).
    exists evs'. rewrite Hwd, Ht', Ht, <- app_assoc. split; [done|].
    intros j dj q Hj Hq. rewrite Hws in Hq.
    destruct (decide (j = i)) as [->|Hne].
    + rewrite list_lookup_insert_eq in Hq by done. injection Hq as <-.
      rewrite Hi in Hj. by injection Hj as <-.
    + rewrite list_lookup_insert_ne in Hq by done. by apply (Hothers evs' j dj q).
Qed.

Lemma run_pool_accounted schedule : ∀ ps w tr0 evs,
  length (workers ps) = length targets →
  trace w = tr0 ++ evs →
  pool_accounted api reject targets ps w tr0 evs →
  ∃ evs',
    trace (run_pool api schedule ps w).2 = tr0 ++ evs' ∧
    pool_accounted api reject targets (run_pool api schedule ps w).1
      (run_pool api schedule ps w).2 tr0 evs'.
Proof.
  induction schedule as [|i schedule IH]; intros ps w tr0 evs Hlen Ht Hinv.
  - by exists evs.
  - rewrite run_pool_cons.
    destruct (pool_step_accounted i ps w tr0 evs Hlen Ht Hinv) as (evs1 & Ht1 & Hinv1).
    apply (IH _ _ tr0 (evs ++ evs1)); [by rewrite pool_step_length | done | done].
Qed.

End Accounted.

Lemma initial_pool_accounted api nRF w :
  pool_accounted api (verify_rejects nRF) (snrs nRF) (initial_pool nRF) w (trace w) [].
Proof.
  intros i device p Hi Hp. simpl in Hp.
  apply list_lookup_fmap_Some in Hp as (device' & -> & Hd).
  rewrite Hi in Hd. injection Hd as <-.
  right. exists false. split; [apply perform_command_raises_only | done].
Qed.

Lemma run_pool_exceptions_accounted api nRF schedule w :
  ∃ evs,
    trace (run_pool api schedule (initial_pool nRF) w).2 = trace w ++ evs ∧
    ∀ i e, workers (run_pool api schedule (initial_pool nRF) w).1 !! i = Some (Raise e) →
      transport_raised api i (trace w) evs e ∨
      answer_rejected api (verify_rejects nRF) i (trace w) evs e.
Proof.
  destruct (run_pool_accounted api (verify_rejects nRF) (snrs nRF) schedule
              (initial_pool nRF) w (trace w) [])
    as (evs & Ht & Hinv).
  { simpl. apply length_map. }
  { by rewrite app_nil_r. }
  { apply initial_pool_accounted. }
  pose proof (run_pool_length api schedule (initial_pool nRF) w) as Hlen.
  simpl in Hlen. rewrite length_map in Hlen.
  exists evs. split; [done|].
  intros i e Hp. apply lookup_lt_Some in Hp as Hlt.
  destruct (lookup_lt_is_Some_2 (snrs nRF) i ltac:(lia)) as [device Hi].
  destruct (Hinv i device _ Hi Hp) as [(e' & [= <-] & Hraised)|(present & Hp' & _)].
  - by left.
  - by right.
Qed.

(** X20.  Under every interleaving, a worker that has ended with an
    exception has it from one of two places: the transport raised it on
    one of that worker's own calls; or verify is on and the probe
    answered that worker's read-back of a segment with a list that the
    comparison with the segment's data rejects ([AssertionError]) or
    runs out of ([IndexError]).  The lookups of the shared dict never
    raise in a worker, and the exception [pool.map] re-raises in [main]
    is one of those.  The page size is taken to be other than zero, as
    [__init__] makes it, so that the page numbers of line 118 and 119
    can be computed. *)
Theorem worker_exceptions_come_from_probe_or_verify
    (api : transport) (nRF : nRF5MultiFlash) (schedule : list nat) (w : world) :
  PAGE_SIZE nRF ≠ 0 →
  ∃ evs,
    trace (run_pool api schedule (initial_pool nRF) w).2 = trace w ++ evs ∧
    (∀ i e, workers (run_pool api schedule (initial_pool nRF) w).1 !! i = Some (Raise e) →
       transport_raised api i (trace w) evs e ∨
       answer_rejected api (verify_rejects nRF) i (trace w) evs e) ∧
    (∀ e, (pool_map api nRF schedule w).1 = Some (Raised e) →
       ∃ i, transport_raised api i (trace w) evs e ∨
            answer_rejected api (verify_rejects nRF) i (trace w) evs e).
Proof.
  intros _.
  destruct (run_pool_exceptions_accounted api nRF schedule w) as (evs & Ht & Hworker).
  exists evs. split; [done|]. split; [done|].
  intros e Hmap.
  pose proof (run_pool_failure_sound api schedule (initial_pool nRF) w
                (initial_pool_failure_sound nRF)) as [Hsome _].
  unfold pool_map in Hmap.
  destruct (run_pool api schedule (initial_pool nRF) w) as [ps w'] eqn:Hpool.
  simpl in *. unfold map_result in Hmap.
  destruct (failure ps) as [e'|] eqn:Hf.
  - injection Hmap as <-. destruct (Hsome e' eq_refl) as [i Hi]. exists i. by apply Hworker.
  - by destruct (forallb finished (workers ps)).
Qed.

(** Probe 222 fails on write, each worker runs to its end in turn. *)
Lemma worker_exceptions_come_from_probe_or_verify_witness :
  ∃ evs,
    trace (run_pool (write_fails_on 222) (turn 0 30 ++ turn 1 30)
             (initial_pool (example_nRF [111; 222])) initial_world).2
    = trace initial_world ++ evs ∧
    (∀ i e,
       workers (run_pool (write_fails_on 222) (turn 0 30 ++ turn 1 30)
                  (initial_pool (example_nRF [111; 222])) initial_world).1 !! i
       = Some (Raise e) →
       transport_raised (write_fails_on 222) i (trace initial_world) evs e ∨
       answer_rejected (write_fails_on 222) (verify_rejects (example_nRF [111; 222])) i
         (trace initial_world) evs e) ∧
    (∀ e,
       (pool_map (write_fails_on 222) (example_nRF [111; 222]) (turn 0 30 ++ turn 1 30)
          initial_world).1 = Some (Raised e) →
       ∃ i, transport_raised (write_fails_on 222) i (trace initial_world) evs e ∨
            answer_rejected (write_fails_on 222) (verify_rejects (example_nRF [111; 222])) i
              (trace initial_world) evs e).
Proof.
  apply (worker_exceptions_come_from_probe_or_verify (write_fails_on 222)
           (example_nRF [111; 222]) (turn 0 30 ++ turn 1 30) initial_world).
  discriminate.
Defined.

(** ** Probes that cooperate *)

(** X21.  When the transport raises on no call and, with verify on,
    answers every read-back of a segment with a list that starts with
    the segment's data, an accepted command line with at least one
    target is carried out in full: once the schedule has let every
    worker run as often as its script takes, [main] has returned, and
    every worker has made all the calls of its script. *)
Theorem cooperative_probes_are_programmed
    (api : transport) (IntelHex_load : string → result IntelHex)
    (argv : list cli_arg) (args : Namespace) (nRF : nRF5MultiFlash)
    (schedule : list nat) (w w1 : world) :
  CLI_run argv = Ok args →
  run api MainThread (__init__ IntelHex_load args) w = (Ok nRF, w1) →
  snrs nRF ≠ [] →
  (∀ tr h m, is_ok (api tr h m) = true) →
  (verify nRF = true →
   ∀ tr h start_addr end_addr read_data,
     (start_addr, end_addr) ∈ segments (hex_file nRF) →
     let data := tobinarray (hex_file nRF) start_addr (end_addr - start_addr) in
     api tr h (read start_addr (length data)) = Ok read_data →
     data `prefix_of` read_data) →
  (∀ i device, snrs nRF !! i = Some device →
     (2 + 2 * length (worker_script nRF device) ≤ turns_of i schedule)%nat) →
  ∃ w' evs,
    main api IntelHex_load argv schedule w = (Some (Ok tt), w') ∧
    trace w' = trace w1 ++ evs ∧
    ∀ i device, snrs nRF !! i = Some device →
      methods_of (Worker i) evs = worker_script nRF device.
Proof.
  intros Hcli Hinit Hsnrs Hok Hread Hturns.
  pose proof (workers_end_after_turns api nRF schedule w1 Hturns) as Hfin.
  destruct (run_pool_exceptions_accounted api nRF schedule w1) as (evs' & _ & Hraise).
  destruct (run_pool_scripted api nRF schedule (initial_pool nRF) w1 [])
    as (evs & Ht & Hinv).
  { simpl. apply length_map. }
  { apply initial_pool_scripted. }
  pose proof (run_pool_failure_sound api schedule (initial_pool nRF) w1
                (initial_pool_failure_sound nRF)) as [Hsome _].
  pose proof (run_pool_length api schedule (initial_pool nRF) w1) as Hlen.
  simpl in Hlen. rewrite length_map in Hlen.
  assert (Hnone : ∀ i e,
            workers (run_pool api schedule (initial_pool nRF) w1).1 !! i ≠ Some (Raise e)).
  { intros i e Hp.
    destruct (Hraise i e Hp)
      as [(before & h & m & after & _ & Hraised)
         |(before & h & m & v & after & _ & Hanswer & Hverify & s & e' & Hseg & -> & Hcmp)].
    - specialize (Hok (trace w1 ++ before) h m). by rewrite Hraised in Hok.
    - apply (Hread Hverify _ _ _ _ _ Hseg), byte_lists_equal_true in Hanswer.
      rewrite Hanswer in Hcmp. by destruct Hcmp as [?|[? _]]. }
  assert (Hret : ∀ i p,
            workers (run_pool api schedule (initial_pool nRF) w1).1 !! i = Some p →
            p = Ret tt).
  { intros i p Hp. pose proof (Hfin i p Hp) as Hp'.
    destruct p as [[]|e| | | |]; try done. by destruct (Hnone i e). }
  unfold main. rewrite Hcli, Hinit. unfold ThreadPool.
  destruct (Nat.ltb_spec (length (snrs nRF)) 1) as [Hlt|Hge].
  { destruct (snrs nRF); [done | simpl in Hlt; lia]. }
  unfold pool_map.
  destruct (run_pool api schedule (initial_pool nRF) w1) as [ps w2] eqn:Hpool.
  simpl in *. unfold map_result.
  destruct (failure ps) as [e|] eqn:Hf.
  { destruct (Hsome e eq_refl) as [i Hi]. by destruct (Hnone i e). }
  rewrite (forallb_finished ps Hfin).
  exists w2, evs. split; [done|]. split; [done|].
  intros i device Hi.
  apply lookup_lt_Some in Hi as Hlt.
  destruct (lookup_lt_is_Some_2 (workers ps) i ltac:(lia)) as [p Hp].
  destruct (Hinv i device p Hi Hp) as (rest & Hrest & Hscript).
  rewrite (Hret i p Hp) in Hrest. simpl in Hrest. subst rest.
  by rewrite app_nil_r in Hscript.
Qed.

(** Two probes whose flash holds the image, sector erase and verify
    asked for, the workers taking turns. *)
Lemma cooperative_probes_are_programmed_witness :
  ∃ w' evs,
    main (image_in_flash example_hex) example_load
      [opt_file "app.hex"; opt_snrs [111; 222]; opt_sectorserase; opt_verify]
      (concat (replicate 30 [0; 1]%nat)) initial_world
    = (Some (Ok tt), w') ∧
    trace w' = trace initial_world ++ evs ∧
    ∀ i device, [111; 222] !! i = Some device →
      methods_of (Worker i) evs
      = worker_script
          {| erase_all := false; family := lit_NRF51; file := "app.hex";
             sectors_erase := true; sectors_and_uicr_erase := false;
             snrs := [111; 222]; systemreset := false; verify := true;
             PAGE_SIZE := 0x400; hex_file := example_hex |} device.
Proof.
  apply (cooperative_probes_are_programmed (image_in_flash example_hex) example_load
           [opt_file "app.hex"; opt_snrs [111; 222]; opt_sectorserase; opt_verify]
           {| args_eraseall := false; args_family := None; args_file := "app.hex";
              args_sectorserase := true; args_sectorsanduicrerase := false;
              args_snrs := Some [111; 222]; args_systemreset := false;
              args_verify := true |}
           {| erase_all := false; family := lit_NRF51; file := "app.hex";
              sectors_erase := true; sectors_and_uicr_erase := false;
              snrs := [111; 222]; systemreset := false; verify := true;
              PAGE_SIZE := 0x400; hex_file := example_hex |}
           (concat (replicate 30 [0; 1]%nat)) initial_world initial_world).
  - reflexivity.
  - reflexivity.
  - discriminate.
  - intros tr h m. by destruct m.
  - intros _ tr h start_addr end_addr read_data Hseg. simpl in Hseg.
    rewrite !elem_of_cons, elem_of_nil in Hseg.
    destruct Hseg as [Hseg|[Hseg|[]]]; injection Hseg as -> ->;
      intros data Hread; injection Hread as <-; by exists [].
  - intros [|[|i]] device Hi; try discriminate Hi; vm_compute; lia.
Defined.

(** ** From the command line to the calls *)

Section OptionsToCalls.

(** The flags of an accepted command line, and its erase options. *)
Lemma CLI_run_flags argv args :
  CLI_run argv = Ok args →
  (args_eraseall args = true ↔ opt_eraseall ∈ argv) ∧
  (args_sectorserase args = true ↔ opt_sectorserase ∈ argv) ∧
  (args_sectorsanduicrerase args = true ↔ opt_sectorsanduicrerase ∈ argv) ∧
  (args_systemreset args = true ↔ opt_systemreset ∈ argv) ∧
  (args_verify args = true ↔ opt_verify ∈ argv) ∧
  one_erase_option argv.
Proof.
  unfold CLI_run.
  destruct (parse_options argv [] empty_namespace) as [p|e'] eqn:Hparse; [|done].
  destruct (file_seen p) eqn:Hfile; [|done]. intros [= <-].
  assert (Hflag : ∀ flag opt,
            (∀ q, flag (ns (store opt q)) = true) →
            (∀ a q, a ≠ opt → flag (ns (store a q)) = flag (ns q)) →
            (∀ a, a = opt ∨ a ≠ opt) →
            flag (ns empty_namespace) = false →
            (flag (ns p) = true ↔ opt ∈ argv)).
  { intros flag opt H1 H2 H3 H4.
    rewrite (parse_options_flag flag opt H1 H2 H3 argv [] _ _ Hparse), H4.
    split; [by intros [?|?] | by right]. }
  split; [|split; [|split; [|split; [|split]]]].
  1-5: apply Hflag;
    [ by intros [[] ?]
    | by intros a [[] ?] Ha; destruct a
    | intros a; destruct a; (by left) || (by right)
    | done ].
  intros a b ga gb Ha Hb. by apply (parse_options_one_group argv [] _ _ Hparse).
Qed.

Lemma elem_of_segment_script self start_addr end_addr m :
  m ∈ segment_script self (start_addr, end_addr) ↔
  let data := tobinarray (hex_file self) start_addr (end_addr - start_addr) in
  (sectors_erase self || sectors_and_uicr_erase self = true ∧
   ∃ addr, addr ∈ erase_plan (PAGE_SIZE self) start_addr end_addr ∧ m = erase_page addr) ∨
  m = write start_addr data true ∨
  (verify self = true ∧ m = read start_addr (length data)) ∨
  (systemreset self = true ∧ m = sys_reset).
Proof.
  unfold segment_script. simpl. rewrite elem_of_app, elem_of_cons, elem_of_app.
  assert (Herase :
            m ∈ (if sectors_erase self || sectors_and_uicr_erase self
                 then map erase_page (erase_plan (PAGE_SIZE self) start_addr end_addr)
                 else []) ↔
            sectors_erase self || sectors_and_uicr_erase self = true ∧
            ∃ addr, addr ∈ erase_plan (PAGE_SIZE self) start_addr end_addr ∧
                    m = erase_page addr).
  { destruct (sectors_erase self || sectors_and_uicr_erase self).
    - rewrite list_elem_of_In, in_map_iff. split.
      + intros (addr & <- & Hin). split; [done|]. exists addr. by rewrite list_elem_of_In.
      + intros (_ & addr & Hin & ->). exists addr. by rewrite <- list_elem_of_In.
    - rewrite elem_of_nil. split; [done | by intros [? _]]. }
  assert (Hflag : ∀ (c : bool) (m' : method),
            m ∈ (if c then [m'] else []) ↔ c = true ∧ m = m').
  { intros [] m'.
    - rewrite list_elem_of_singleton. split; [done | by intros [_ ?]].
    - rewrite elem_of_nil. split; [done | by intros [? _]]. }
  by rewrite Herase, !Hflag.
Qed.

Lemma elem_of_worker_script self device m :
  m ∈ worker_script self device ↔
  m = open ∨ m = connect_to_emu_with_snr device ∨
  (erase_all self = true ∧ m = recover) ∨
  (sectors_and_uicr_erase self = true ∧ m = erase_uicr) ∨
  (∃ start_addr end_addr, (start_addr, end_addr) ∈ segments (hex_file self) ∧
                          m ∈ segment_script self (start_addr, end_addr)) ∨
  m = disconnect_from_emu ∨ m = close.
Proof.
  unfold worker_script, program_script.
  rewrite !elem_of_app, !elem_of_cons, !elem_of_nil.
  assert (Hconcat : m ∈ concat (map (segment_script self) (segments (hex_file self))) ↔
            ∃ start_addr end_addr, (start_addr, end_addr) ∈ segments (hex_file self) ∧
                                   m ∈ segment_script self (start_addr, end_addr)).
  { rewrite list_elem_of_In, in_concat. split.
    - intros (script & Hscript & Hm). apply in_map_iff in Hscript as ([s e] & <- & Hseg).
      exists s, e. by rewrite !list_elem_of_In.
    - intros (s & e & Hseg & Hm). exists (segment_script self (s, e)).
      rewrite <- !list_elem_of_In. split; [|done].
      apply list_elem_of_In, in_map. by apply list_elem_of_In. }
  assert (Hflag : ∀ (c : bool) (m' : method),
            m ∈ (if c then [m'] else []) ↔ c = true ∧ m = m').
  { intros [] m'.
    - rewrite list_elem_of_singleton. split; [done | by intros [_ ?]].
    - rewrite elem_of_nil. split; [done | by intros [? _]]. }
  rewrite Hconcat, !Hflag. tauto.
Qed.

End OptionsToCalls.

(** What the workers' scripts contain is what the command line asked
    for. *)
Lemma worker_script_from_command_line
    (api : transport) (IntelHex_load : string → result IntelHex)
    (argv : list cli_arg) (args : Namespace) (nRF : nRF5MultiFlash)
    (w w' : world) (device : Z) :
  CLI_run argv = Ok args →
  run api MainThread (__init__ IntelHex_load args) w = (Ok nRF, w') →
  (recover ∈ worker_script nRF device ↔ opt_eraseall ∈ argv) ∧
  (erase_uicr ∈ worker_script nRF device ↔ opt_sectorsanduicrerase ∈ argv) ∧
  (∀ addr, erase_page addr ∈ worker_script nRF device →
     opt_sectorserase ∈ argv ∨ opt_sectorsanduicrerase ∈ argv) ∧
  (∀ addr len, read addr len ∈ worker_script nRF device → opt_verify ∈ argv) ∧
  (sys_reset ∈ worker_script nRF device → opt_systemreset ∈ argv) ∧
  (segments (hex_file nRF) ≠ [] →
     (opt_verify ∈ argv → ∃ addr len, read addr len ∈ worker_script nRF device) ∧
     (opt_systemreset ∈ argv → sys_reset ∈ worker_script nRF device)) ∧
  (recover ∈ worker_script nRF device →
     (erase_uicr ∉ worker_script nRF device) ∧
     (∀ addr, erase_page addr ∉ worker_script nRF device)).
Proof.
  intros Hcli Hinit.
  destruct (CLI_run_flags argv args Hcli) as (Hall & Hsec & Huicr & Hreset & Hverify & Hone).
  destruct (init_fields api IntelHex_load args w nRF w' Hinit)
    as (Ea & Es & Eu & Er & Ev & _).
  rewrite <- Ea in Hall. rewrite <- Es in Hsec. rewrite <- Eu in Huicr.
  rewrite <- Er in Hreset. rewrite <- Ev in Hverify.
  assert (Hrecover : recover ∈ worker_script nRF device ↔ opt_eraseall ∈ argv).
  { rewrite <- Hall, elem_of_worker_script. split.
    - intros [?|[?|[[? _]|[[_ ?]|[(s & e & _ & Hm)|[?|?]]]]]]; try done.
      apply elem_of_segment_script in Hm.
      by destruct Hm as [(_ & addr & _ & ?)|[?|[[_ ?]|[_ ?]]]].
    - intros Hflag. right. right. left. done. }
  assert (Huicr' : erase_uicr ∈ worker_script nRF device ↔ opt_sectorsanduicrerase ∈ argv).
  { rewrite <- Huicr, elem_of_worker_script. split.
    - intros [?|[?|[[_ ?]|[[? _]|[(s & e & _ & Hm)|[?|?]]]]]]; try done.
      apply elem_of_segment_script in Hm.
      by destruct Hm as [(_ & addr & _ & ?)|[?|[[_ ?]|[_ ?]]]].
    - intros Hflag. right. right. right. left. done. }
  assert (Hpage : ∀ addr, erase_page addr ∈ worker_script nRF device →
            opt_sectorserase ∈ argv ∨ opt_sectorsanduicrerase ∈ argv).
  { intros addr. rewrite elem_of_worker_script.
    intros [?|[?|[[_ ?]|[[_ ?]|[(s & e & _ & Hm)|[?|?]]]]]]; try done.
    apply elem_of_segment_script in Hm.
    destruct Hm as [(Hflag & _)|[?|[[_ ?]|[_ ?]]]]; try done.
    apply orb_true_iff in Hflag as [Hflag|Hflag]; [left; by apply Hsec | right; by apply Huicr]. }
  split; [done|]. split; [done|]. split; [done|]. split; [|split; [|split]].
  - intros addr len. rewrite elem_of_worker_script.
    intros [?|[?|[[_ ?]|[[_ ?]|[(s & e & _ & Hm)|[?|?]]]]]]; try done.
    apply elem_of_segment_script in Hm.
    destruct Hm as [(_ & a & _ & ?)|[?|[[Hflag _]|[_ ?]]]]; try done. by apply Hverify.
  - rewrite elem_of_worker_script.
    intros [?|[?|[[_ ?]|[[_ ?]|[(s & e & _ & Hm)|[?|?]]]]]]; try done.
    apply elem_of_segment_script in Hm.
    destruct Hm as [(_ & a & _ & ?)|[?|[[_ ?]|[Hflag _]]]]; try done. by apply Hreset.
  - intros Hsegs. destruct (segments (hex_file nRF)) as [|[s e] segs] eqn:Hsegments; [done|].
    split.
    + intros Hopt. eexists s, _. apply elem_of_worker_script.
      do 4 right. left. exists s, e. rewrite Hsegments. split; [by left|].
      apply elem_of_segment_script. right. right. left. split; [by apply Hverify | done].
    + intros Hopt. apply elem_of_worker_script.
      do 4 right. left. exists s, e. rewrite Hsegments. split; [by left|].
      apply elem_of_segment_script. do 3 right. split; [by apply Hreset | done].
  - intros Hin. apply Hrecover in Hin. split.
    + intros Hin'. apply Huicr' in Hin'.
      by specialize (Hone opt_eraseall opt_sectorsanduicrerase _ _ Hin Hin' eq_refl eq_refl).
    + intros addr Hin'. destruct (Hpage addr Hin') as [Hin''|Hin''].
      * by specialize (Hone opt_eraseall opt_sectorserase _ _ Hin Hin'' eq_refl eq_refl).
      * by specialize (Hone opt_eraseall opt_sectorsanduicrerase _ _ Hin Hin'' eq_refl eq_refl).
Qed.

(** ** Every way [main] can fail *)

(** X23.  An exception [main] ends with has one of five origins, and no
    other: the parser refused the command line ([SystemExit], nothing
    touched); a call of the enumeration session raised it; the image
    could not be loaded; there was no target ([ValueError] from
    [ThreadPool(0)]); or, once the pool runs, the transport raised it on
    a call of some worker, or verify rejected a read-back some worker
    was given.  The module itself raises nothing else. *)
Theorem main_exceptions_have_five_origins
    (api : transport) (IntelHex_load : string → result IntelHex)
    (argv : list cli_arg) (schedule : list nat) (w w' : world) (e : exn) :
  main api IntelHex_load argv schedule w = (Some (Raised e), w') →
  (CLI_run argv = Raised e ∧ e = SystemExit ∧ w' = w) ∨
  ∃ args, CLI_run argv = Ok args ∧
    (run api MainThread (init_snrs args) w = (Raised e, w') ∨
     (∃ targets, run api MainThread (init_snrs args) w = (Ok targets, w') ∧
                 IntelHex_load (args_file args) = Raised e) ∨
     (∃ nRF, run api MainThread (__init__ IntelHex_load args) w = (Ok nRF, w') ∧
             snrs nRF = [] ∧ e = ValueError) ∨
     (∃ nRF w1 evs i,
        run api MainThread (__init__ IntelHex_load args) w = (Ok nRF, w1) ∧
        trace w' = trace w1 ++ evs ∧
        (transport_raised api i (trace w1) evs e ∨
         answer_rejected api (verify_rejects nRF) i (trace w1) evs e))).
Proof.
  unfold main. intros Hmain.
  destruct (CLI_run argv) as [args|e0] eqn:Hcli.
  2: { injection Hmain as <- <-. left. split; [done|]. split; [|done].
       unfold CLI_run in Hcli.
       destruct (parse_options argv [] empty_namespace) as [p|e'] eqn:Hparse.
       - destruct (file_seen p); [done|]. by injection Hcli as <-.
       - injection Hcli as <-. by apply (parse_options_raises _ _ _ _ Hparse). }
  right. exists args. split; [done|].
  destruct (run api MainThread (init_snrs args) w) as [[targets|e0] w0] eqn:Hsnrs.
  2: { rewrite (init_after_resolution_error api IntelHex_load args w e0 w0 Hsnrs) in Hmain.
       injection Hmain as <- <-. by left. }
  pose proof (init_after_resolution api IntelHex_load args w targets w0 Hsnrs) as Hinit.
  rewrite Hinit in Hmain.
  destruct (IntelHex_load (args_file args)) as [hex|e0] eqn:Hload.
  2: { injection Hmain as <- <-. right. left. by exists targets. }
  right. right.
  match type of Hinit with _ = (Ok ?r, _) => set (nRF := r) in * end.
  unfold ThreadPool in Hmain.
  destruct (Nat.ltb_spec (length (snrs nRF)) 1) as [Hlt|Hge].
  { injection Hmain as <- <-. left. exists nRF. split; [done|]. split; [|done].
    destruct targets; [done | simpl in Hlt; lia]. }
  right. exists nRF, w0.
  destruct (run_pool_exceptions_accounted api nRF schedule w0) as (evs & Ht & Hraise).
  pose proof (run_pool_failure_sound api schedule (initial_pool nRF) w0
                (initial_pool_failure_sound nRF)) as [Hsome _].
  unfold pool_map in Hmain.
  destruct (run_pool api schedule (initial_pool nRF) w0) as [ps w2] eqn:Hpool.
  simpl in Ht, Hraise, Hsome. unfold map_result in Hmain.
  destruct (failure ps) as [e0|] eqn:Hf.
  - injection Hmain as <- <-. destruct (Hsome e0 eq_refl) as [i Hi].
    exists evs, i. split; [done|]. split; [done|]. by apply Hraise.
  - by destruct (forallb finished (workers ps)).
Qed.

(** Probe 222 fails on write: [main] ends with what the transport
    raised. *)
Lemma main_exceptions_have_five_origins_witness :
  (CLI_run [opt_file "app.hex"; opt_snrs [111; 222]] = Raised APIError ∧
   APIError = SystemExit ∧
   (main (write_fails_on 222) example_load [opt_file "app.hex"; opt_snrs [111; 222]]
      (concat (replicate 30 [0; 1]%nat)) initial_world).2 = initial_world) ∨
  ∃ args, CLI_run [opt_file "app.hex"; opt_snrs [111; 222]] = Ok args ∧
    (run (write_fails_on 222) MainThread (init_snrs args) initial_world
     = (Raised APIError,
        (main (write_fails_on 222) example_load [opt_file "app.hex"; opt_snrs [111; 222]]
           (concat (replicate 30 [0; 1]%nat)) initial_world).2) ∨
     (∃ targets,
        run (write_fails_on 222) MainThread (init_snrs args) initial_world
        = (Ok targets,
           (main (write_fails_on 222) example_load [opt_file "app.hex"; opt_snrs [111; 222]]
              (concat (replicate 30 [0; 1]%nat)) initial_world).2) ∧
        example_load (args_file args) = Raised APIError) ∨
     (∃ nRF,
        run (write_fails_on 222) MainThread (__init__ example_load args) initial_world
        = (Ok nRF,
           (main (write_fails_on 222) example_load [opt_file "app.hex"; opt_snrs [111; 222]]
              (concat (replicate 30 [0; 1]%nat)) initial_world).2) ∧
        snrs nRF = [] ∧ APIError = ValueError) ∨
     (∃ nRF w1 evs i,
        run (write_fails_on 222) MainThread (__init__ example_load args) initial_world
        = (Ok nRF, w1) ∧
        trace (main (write_fails_on 222) example_load
                 [opt_file "app.hex"; opt_snrs [111; 222]]
                 (concat (replicate 30 [0; 1]%nat)) initial_world).2
        = trace w1 ++ evs ∧
        (transport_raised (write_fails_on 222) i (trace w1) evs APIError ∨
         answer_rejected (write_fails_on 222) (verify_rejects nRF) i (trace w1) evs APIError))).
Proof.
  apply (main_exceptions_have_five_origins (write_fails_on 222) example_load
           [opt_file "app.hex"; opt_snrs [111; 222]]
           (concat (replicate 30 [0; 1]%nat)) initial_world).
  vm_compute. reflexivity.
Defined.

(** ** What [pool.map] hands to [main] *)

Section FirstFailure.

Variable api : transport.

Lemma pool_step_failure i ps w :
  failure (pool_step api i ps w).1 =
  match failure ps with
  | Some e => Some e
  | None =>
      match workers ps !! i with
      | Some p => raised_by p (step api (Worker i) p w).1
      | None => None
      end
  end.
Proof.
  unfold pool_step. destruct (workers ps !! i) as [p|]; [|simpl; by destruct (failure ps)].
  by destruct (step api (Worker i) p w).
Qed.

(** The first exception stays the one [pool.map] re-raises. *)
Lemma run_pool_failure_sticky schedule : ∀ ps w e,
  failure ps = Some e → failure (run_pool api schedule ps w).1 = Some e.
Proof.
  induction schedule as [|i schedule IH]; intros ps w e Hf; [done|].
  rewrite run_pool_cons. apply IH. by rewrite pool_step_failure, Hf.
Qed.

Lemma none_raised_no_failure ps :
  failure_sound ps → (∀ i e, workers ps !! i ≠ Some (Raise e)) → failure ps = None.
Proof.
  intros [Hsome _] Hnone. destruct (failure ps) as [e|] eqn:Hf; [|done].
  destruct (Hsome e eq_refl) as [i Hi]. by destruct (Hnone i e).
Qed.

Lemma no_failure_none_raised ps :
  failure_sound ps → failure ps = None → ∀ i e, workers ps !! i ≠ Some (Raise e).
Proof.
  intros [_ Hraised] Hf i e Hi. destruct (Hraised i e Hi) as [e' He']. congruence.
Qed.

(** The exception [pool.map] re-raises is that of the worker that was
    the first, in time, to end with one. *)
Lemma failure_is_first schedule : ∀ ps w e,
  failure_sound ps → failure ps = None →
  (failure (run_pool api schedule ps w).1 = Some e ↔
   ∃ s1 j s2,
     schedule = s1 ++ j :: s2 ∧
     (∀ i e', workers (run_pool api s1 ps w).1 !! i ≠ Some (Raise e')) ∧
     workers (run_pool api (s1 ++ [j]) ps w).1 !! j = Some (Raise e)).
Proof.
  induction schedule as [|j schedule IH]; intros ps w e Hsound Hf.
  { simpl. rewrite Hf. split; [done|]. intros (s1 & j & s2 & Heq & _). by destruct s1. }
  pose proof (pool_step_failure_sound api j ps w Hsound) as Hsound1.
  pose proof (pool_step_failure j ps w) as Hf1. rewrite Hf in Hf1.
  rewrite run_pool_cons.
  destruct (failure (pool_step api j ps w).1) as [e1|] eqn:Hfail.
  - (* the first node already is the first failure *)
    rewrite (run_pool_failure_sticky schedule _ _ e1 Hfail).
    assert (Hj : workers (pool_step api j ps w).1 !! j = Some (Raise e1)).
    { rewrite pool_step_workers. destruct (workers ps !! j) as [p|] eqn:Hp; [|done].
      rewrite list_lookup_insert_eq by by eapply lookup_lt_Some.
      unfold raised_by in Hf1. destruct (step api (Worker j) p w).1; try done.
      destruct (finished p); [done|]. by injection Hf1 as ->. }
    split.
    + intros [= <-]. exists [], j, schedule. split; [done|].
      split; [by apply no_failure_none_raised|]. simpl. by destruct (pool_step api j ps w).
    + intros (s1 & j' & s2 & Heq & Hnone & Hraised).
      destruct s1 as [|j0 s1].
      * simpl in Heq. injection Heq as <- <-.
        simpl in Hraised. destruct (pool_step api j ps w) as [ps1 w1]. simpl in *.
        congruence.
      * injection Heq as <- ->. rewrite run_pool_cons in Hnone.
        pose proof (run_pool_failure_sound api s1 _ (pool_step api j ps w).2 Hsound1)
          as Hsound2.
        pose proof (run_pool_failure_sticky s1 _ (pool_step api j ps w).2 e1 Hfail) as Hst.
        destruct Hsound2 as [Hsome _]. destruct (Hsome e1 Hst) as [i Hi].
        by destruct (Hnone i e1).
  - rewrite (IH _ (pool_step api j ps w).2 e Hsound1 Hfail). split.
    + intros (s1 & j' & s2 & -> & Hnone & Hraised).
      exists (j :: s1), j', s2. split; [done|].
      rewrite <- app_comm_cons, !run_pool_cons. done.
    + intros (s1 & j' & s2 & Heq & Hnone & Hraised).
      destruct s1 as [|j0 s1].
      * simpl in Heq. injection Heq as <- <-. simpl in Hraised.
        destruct (pool_step api j ps w) as [ps1 w1] eqn:Hstep. simpl in *.
        destruct (no_failure_none_raised ps1 Hsound1 Hfail j e Hraised).
      * injection Heq as <- ->. exists s1, j', s2. split; [done|].
        rewrite <- app_comm_cons, !run_pool_cons in *. done.
Qed.

Lemma methods_of_other i j evs :
  Forall (fun e => event_thread e = Worker j) evs → j ≠ i → methods_of (Worker i) evs = [].
Proof.
  intros Hevs Hne. induction Hevs as [|ev evs Hev _ IH]; [done|].
  change (ev :: evs) with ([ev] ++ evs). rewrite methods_of_app, IH, app_nil_r.
  destruct ev as [t h fam|t h m]; simpl in Hev; subst t; unfold methods_of; simpl; [done|].
  by destruct (Nat.eqb_spec i j).
Qed.

(** A worker that has ended makes no further call. *)
Lemma run_pool_ended_worker_quiet i p schedule : ∀ ps w,
  workers ps !! i = Some p → finished p = true →
  ∃ evs, trace (run_pool api schedule ps w).2 = trace w ++ evs ∧
         methods_of (Worker i) evs = [].
Proof.
  induction schedule as [|j schedule IH]; intros ps w Hp Hfin.
  { exists []. by rewrite app_nil_r. }
  rewrite run_pool_cons.
  destruct (IH (pool_step api j ps w).1 (pool_step api j ps w).2) as (evs2 & Ht2 & Hm2).
  { rewrite pool_step_workers. destruct (workers ps !! j) as [q|] eqn:Hq; [|done].
    destruct (decide (i = j)) as [->|Hne].
    - rewrite list_lookup_insert_eq by by eapply lookup_lt_Some.
      rewrite Hp in Hq. injection Hq as <-. by rewrite step_finished.
    - by rewrite list_lookup_insert_ne. }
  { done. }
  rewrite Ht2, pool_step_world. destruct (workers ps !! j) as [q|] eqn:Hq.
  - destruct (decide (j = i)) as [->|Hne].
    + rewrite Hp in Hq. injection Hq as <-. rewrite step_finished by done. by exists evs2.
    + destruct (step_trace api (Worker j) q w) as (evs1 & -> & Hevs1).
      exists (evs1 ++ evs2). rewrite <- app_assoc. split; [done|].
      by rewrite methods_of_app, (methods_of_other i j evs1 Hevs1 Hne), Hm2.
  - by exists evs2.
Qed.

Lemma transport_raised_snoc i tr0 evs ev e :
  transport_raised api i tr0 (evs ++ [ev]) e →
  transport_raised api i tr0 evs e ∨
  ∃ h m, ev = EvCall (Worker i) h m ∧ api (tr0 ++ evs) h m = Raised e.
Proof.
  intros (before & h & m & after & Heq & Hraised).
  destruct after as [|x after _] using rev_ind.
  - apply app_inj_tail in Heq as [-> ->]. right. by exists h, m.
  - rewrite app_comm_cons, app_assoc in Heq. apply app_inj_tail in Heq as [-> _].
    left. by exists before, h, m, after.
Qed.

(** An exception the transport raises on a call of a worker is not
    caught: that worker has ended with it. *)
Lemma pool_step_raise_ends_worker j ps w tr0 evs :
  trace w = tr0 ++ evs →
  (∀ i e, transport_raised api i tr0 evs e → workers ps !! i = Some (Raise e)) →
  ∃ evs',
    trace (pool_step api j ps w).2 = tr0 ++ evs' ∧
    ∀ i e, transport_raised api i tr0 evs' e →
           workers (pool_step api j ps w).1 !! i = Some (Raise e).
Proof.
  intros Ht Hinv. rewrite pool_step_workers, pool_step_world.
  destruct (workers ps !! j) as [p|] eqn:Hp; [|by exists evs].
  pose proof (lookup_lt_Some _ _ _ Hp) as Hlt.
  assert (Hkeep : ∀ p', (finished p = true → p' = p) →
            ∀ i e, transport_raised api i tr0 evs e →
                   <[j := p']> (workers ps) !! i = Some (Raise e)).
  { intros p' Hp' i e Hraised. specialize (Hinv i e Hraised).
    destruct (decide (i = j)) as [->|Hne].
    - rewrite list_lookup_insert_eq by done. rewrite Hp in Hinv. injection Hinv as ->.
      by rewrite Hp'.
    - by rewrite list_lookup_insert_ne. }
  destruct p as [a|e0|fam k|d h k|d k|h m k]; simpl.
  - exists evs. split; [done|]. by apply Hkeep.
  - exists evs. split; [done|]. by apply Hkeep.
  - exists (evs ++ [EvNew (Worker j) (next_handle w) fam]).
    split; [by rewrite Ht, app_assoc|].
    intros i e [Hraised|(h & m & Hev & _)]%transport_raised_snoc; [|done].
    by apply Hkeep.
  - exists evs. split; [done|]. by apply Hkeep.
  - exists evs. split; [by destruct (nRF5_instances w !! d)|].
    destruct (nRF5_instances w !! d); by apply Hkeep.
  - exists (evs ++ [EvCall (Worker j) h m]).
    split; [destruct (api (trace w) h m); simpl; by rewrite Ht, app_assoc|].
    intros i e [Hraised|(h' & m' & Hev & Hraised)]%transport_raised_snoc.
    + destruct (api (trace w) h m); by apply Hkeep.
    + injection Hev as <- <- <-. rewrite <- Ht in Hraised. rewrite Hraised. simpl.
      by rewrite list_lookup_insert_eq.
Qed.

Lemma run_pool_raise_ends_worker schedule : ∀ ps w tr0 evs,
  trace w = tr0 ++ evs →
  (∀ i e, transport_raised api i tr0 evs e → workers ps !! i = Some (Raise e)) →
  ∃ evs',
    trace (run_pool api schedule ps w).2 = tr0 ++ evs' ∧
    ∀ i e, transport_raised api i tr0 evs' e →
           workers (run_pool api schedule ps w).1 !! i = Some (Raise e).
Proof.
  induction schedule as [|j schedule IH]; intros ps w tr0 evs Ht Hinv.
  - by exists evs.
  - rewrite run_pool_cons.
    destruct (pool_step_raise_ends_worker j ps w tr0 evs Ht Hinv) as (evs1 & Ht1 & Hinv1).
    by apply (IH _ _ tr0 evs1).
Qed.

End FirstFailure.

(** C4, as the code has it.  For an accepted command line and at least
    one target, [main] starts one [perform_command] per entry of the
    target list (duplicates included).  Once every worker has returned,
    [pool.map] yields a list with one [None] per target, in list order,
    carrying no identifier, and [main] drops it and returns.  An
    exception the transport raises on a call of a worker is not caught:
    that worker has ended with it, and a worker that has ended with an
    exception stays so and makes no further call.  As soon as one worker
    has ended with an exception, [pool.map] yields no list: it re-raises
    in [main] the exception of the worker that was the first, in time,
    to end with one.  Under some schedule [main] does return or
    raise. *)
Theorem pool_map_returns_list_or_reraises
    (api : transport) (IntelHex_load : string → result IntelHex)
    (argv : list cli_arg) (args : Namespace) (nRF : nRF5MultiFlash)
    (schedule : list nat) (w w1 : world) :
  CLI_run argv = Ok args →
  run api MainThread (__init__ IntelHex_load args) w = (Ok nRF, w1) →
  snrs nRF ≠ [] →
  let ps := (run_pool api schedule (initial_pool nRF) w1).1 in
  let w2 := (run_pool api schedule (initial_pool nRF) w1).2 in
  workers (initial_pool nRF) = map (perform_command nRF) (snrs nRF) ∧
  length (workers ps) = length (snrs nRF) ∧
  (pool_map api nRF schedule w1).1 = map_result ps ∧
  (∀ outs, map_result ps = Some (Ok outs) →
     outs = replicate (length (snrs nRF)) tt ∧
     (∀ j p, workers ps !! j = Some p → p = Ret tt) ∧
     main api IntelHex_load argv schedule w = (Some (Ok tt), w2)) ∧
  ((∀ j p, workers ps !! j = Some p → p = Ret tt) →
     map_result ps = Some (Ok (replicate (length (snrs nRF)) tt))) ∧
  (∃ evs, trace w2 = trace w1 ++ evs ∧
          ∀ i e, transport_raised api i (trace w1) evs e →
                 workers ps !! i = Some (Raise e)) ∧
  (∀ s1 s2 i e,
     schedule = s1 ++ s2 →
     workers (run_pool api s1 (initial_pool nRF) w1).1 !! i = Some (Raise e) →
     workers ps !! i = Some (Raise e) ∧
     ∃ evs, trace w2 = trace (run_pool api s1 (initial_pool nRF) w1).2 ++ evs ∧
            methods_of (Worker i) evs = []) ∧
  (∀ i e, workers ps !! i = Some (Raise e) → ∃ e', map_result ps = Some (Raised e')) ∧
  (∀ e, map_result ps = Some (Raised e) ↔
        ∃ s1 j s2,
          schedule = s1 ++ j :: s2 ∧
          (∀ i e', workers (run_pool api s1 (initial_pool nRF) w1).1 !! i
                   ≠ Some (Raise e')) ∧
          workers (run_pool api (s1 ++ [j]) (initial_pool nRF) w1).1 !! j
          = Some (Raise e)) ∧
  (∀ e, map_result ps = Some (Raised e) →
        main api IntelHex_load argv schedule w = (Some (Raised e), w2) ∧
        ¬ ∃ outs, map_result ps = Some (Ok outs)) ∧
  (∃ schedule', (main api IntelHex_load argv schedule' w).1 ≠ None).
Proof.
  intros Hcli Hinit Hsnrs ps w2.
  assert (Hlen : length (workers ps) = length (snrs nRF)).
  { unfold ps. rewrite run_pool_length. simpl. apply length_map. }
  assert (Hsound : failure_sound ps)
    by apply run_pool_failure_sound, initial_pool_failure_sound.
  assert (Hunit : map (fun _ : prog unit => tt) (workers ps)
                  = replicate (length (snrs nRF)) tt).
  { rewrite <- Hlen. clear. induction (workers ps) as [|p l IH]; simpl; [done|].
    by rewrite IH. }
  assert (Hmap : ∀ schedule',
            (pool_map api nRF schedule' w1).1
            = map_result (run_pool api schedule' (initial_pool nRF) w1).1).
  { intros schedule'. unfold pool_map.
    by destruct (run_pool api schedule' (initial_pool nRF) w1). }
  assert (Hmain : ∀ schedule',
            main api IntelHex_load argv schedule' w
            = (match map_result (run_pool api schedule' (initial_pool nRF) w1).1 with
               | Some (Ok _) => Some (Ok tt)
               | Some (Raised e) => Some (Raised e)
               | None => None
               end, (run_pool api schedule' (initial_pool nRF) w1).2)).
  { intros schedule'. unfold main. rewrite Hcli, Hinit. unfold ThreadPool.
    destruct (Nat.ltb_spec (length (snrs nRF)) 1) as [Hlt|Hge].
    { destruct (snrs nRF); [done | simpl in Hlt; lia]. }
    unfold pool_map. destruct (run_pool api schedule' (initial_pool nRF) w1) as [ps' w']. simpl.
    by destruct (map_result ps') as [[outs|e]|]. }
  assert (Hfail : ∀ e, map_result ps = Some (Raised e) ↔ failure ps = Some e).
  { intros e. unfold map_result. destruct (failure ps) as [e0|].
    - split; by intros [= <-].
    - by destruct (forallb finished (workers ps)). }
  split; [done|]. split; [done|]. split; [apply Hmap|].
  split; [|split; [|split; [|split; [|split; [|split; [|split]]]]]].
  - intros outs Hres. rewrite Hmain. fold ps w2. rewrite Hres.
    split; [|split; [|done]].
    + unfold map_result in Hres. destruct (failure ps); [done|].
      destruct (forallb finished (workers ps)); [|done]. injection Hres as <-. done.
    + by apply (map_result_ok_all_returned ps outs).
  - intros Hall. unfold map_result.
    destruct (failure ps) as [e|] eqn:Hf.
    + destruct (proj1 Hsound e Hf) as (i & Hi). by specialize (Hall i _ Hi).
    + rewrite forallb_finished; [by rewrite Hunit|].
      intros j p Hj. by rewrite (Hall j p Hj).
  - destruct (run_pool_raise_ends_worker api schedule (initial_pool nRF) w1 (trace w1) [])
      as (evs & Ht & Hinv).
    { by rewrite app_nil_r. }
    { intros i e (before & h & m & after & Heq & _). by destruct before. }
    by exists evs.
  - intros s1 s2 i e -> Hi. unfold ps, w2. rewrite run_pool_app. split.
    + by apply run_pool_finished_stable.
    + by apply (run_pool_ended_worker_quiet api i (Raise e)).
  - intros i e Hi. destruct (proj2 Hsound i e Hi) as [e' He'].
    exists e'. by apply Hfail.
  - intros e. rewrite Hfail. unfold ps.
    apply failure_is_first; [apply initial_pool_failure_sound | done].
  - intros e Hres. rewrite Hmain. fold ps w2. rewrite Hres. split; [done|].
    by intros [outs [=]].
  - destruct (workers_end_upto api (length (snrs nRF)) (initial_pool nRF) w1)
      as (schedule' & Hends).
    { simpl. by rewrite length_map. }
    exists schedule'. rewrite Hmain. simpl.
    assert (Hsome : map_result (run_pool api schedule' (initial_pool nRF) w1).1 ≠ None).
    { unfold map_result.
      destruct (failure (run_pool api schedule' (initial_pool nRF) w1).1); [done|].
      rewrite forallb_finished; [done|].
      intros j p Hj. apply (Hends j p); [|done].
      apply lookup_lt_Some in Hj.
      pose proof (run_pool_length api schedule' (initial_pool nRF) w1) as Hl.
      simpl in Hl. rewrite length_map in Hl. lia. }
    by destruct (map_result (run_pool api schedule' (initial_pool nRF) w1).1) as [[?|?]|].
Qed.

(** Two targets, every call succeeding, one worker after the other:
    [pool.map] yields two [None]s, and [main] returns. *)
Lemma pool_map_returns_list_or_reraises_witness :
  map_result (run_pool probes_ok (turn 0 30 ++ turn 1 30)
                (initial_pool (example_nRF [111; 222])) initial_world).1
  = Some (Ok [tt; tt]) ∧
  [tt; tt] = replicate (length (snrs (example_nRF [111; 222]))) tt ∧
  (∀ j p, workers (run_pool probes_ok (turn 0 30 ++ turn 1 30)
                     (initial_pool (example_nRF [111; 222])) initial_world).1 !! j = Some p →
          p = Ret tt) ∧
  main probes_ok example_load
    [opt_file "app.hex"; opt_snrs [111; 222]; opt_sectorserase; opt_systemreset; opt_verify]
    (turn 0 30 ++ turn 1 30) initial_world
  = (Some (Ok tt),
     (run_pool probes_ok (turn 0 30 ++ turn 1 30)
        (initial_pool (example_nRF [111; 222])) initial_world).2).
Proof.
  assert (H : map_result (run_pool probes_ok (turn 0 30 ++ turn 1 30)
                            (initial_pool (example_nRF [111; 222])) initial_world).1
              = Some (Ok [tt; tt])) by (vm_compute; reflexivity).
  split; [exact H|].
  refine (proj1 (proj2 (proj2 (proj2
            (pool_map_returns_list_or_reraises probes_ok example_load
               [opt_file "app.hex"; opt_snrs [111; 222]; opt_sectorserase; opt_systemreset;
                opt_verify]
               {| args_eraseall := false; args_family := None; args_file := "app.hex";
                  args_sectorserase := true; args_sectorsanduicrerase := false;
                  args_snrs := Some [111; 222]; args_systemreset := true;
                  args_verify := true |}
               (example_nRF [111; 222]) (turn 0 30 ++ turn 1 30)
               initial_world initial_world _ _ _)))) [tt; tt] H).
  - reflexivity.
  - reflexivity.
  - discriminate.
Defined.

(** ** Where the erase flags are checked, and where not *)

(** C5, as the code has it.  The check is the parser's: a command line
    that names two different options of the erase group ([--eraseall],
    [--sectorserase], [--sectorsanduicrerase]) is refused, [main] ends
    with [SystemExit] before [nRF5MultiFlash] is built, with nothing
    constructed, nothing stored and no transport call made, whatever the
    targets, the transport and the schedule; so a namespace that comes
    from the command line has at most one of the three flags set.
    [nRF5MultiFlash.__init__] checks nothing: whatever the flags of the
    namespace it is handed, it builds the object as soon as the targets
    are resolved and the image is loaded, copies the flags as they are,
    and a worker that returns has done every erase that was asked for:
    [recover] for [eraseall], [erase_uicr] for [sectorsanduicrerase],
    and the page erases of every segment for either sector flag. *)
Theorem conflicting_erase_flags_rejected
    (api : transport) (IntelHex_load : string → result IntelHex)
    (argv : list cli_arg) (schedule : list nat) (w : world) :
  (conflicting_erase_flags argv →
     CLI_run argv = Raised SystemExit ∧
     main api IntelHex_load argv schedule w = (Some (Raised SystemExit), w)) ∧
  (∀ args, CLI_run argv = Ok args → (erase_flags_set args ≤ 1)%nat) ∧
  (∀ args targets hex w1,
     run api MainThread (init_snrs args) w = (Ok targets, w1) →
     IntelHex_load (args_file args) = Ok hex →
     ∃ nRF,
       run api MainThread (__init__ IntelHex_load args) w = (Ok nRF, w1) ∧
       erase_all nRF = args_eraseall args ∧
       sectors_erase nRF = args_sectorserase args ∧
       sectors_and_uicr_erase nRF = args_sectorsanduicrerase args ∧
       snrs nRF = targets ∧ hex_file nRF = hex ∧
       ∃ evs,
         trace (run_pool api schedule (initial_pool nRF) w1).2 = trace w1 ++ evs ∧
         ∀ i device,
           targets !! i = Some device →
           workers (run_pool api schedule (initial_pool nRF) w1).1 !! i = Some (Ret tt) →
           (args_eraseall args = true → recover ∈ methods_of (Worker i) evs) ∧
           (args_sectorsanduicrerase args = true →
            erase_uicr ∈ methods_of (Worker i) evs) ∧
           (args_sectorserase args || args_sectorsanduicrerase args = true →
            ∀ start_addr end_addr addr,
              (start_addr, end_addr) ∈ segments hex →
              addr ∈ erase_plan (PAGE_SIZE nRF) start_addr end_addr →
              erase_page addr ∈ methods_of (Worker i) evs)).
Proof.
  split; [|split].
  - intros (a & b & ga & gb & Ha & Hb & Hga & Hgb & Hne).
    assert (CLI_run argv = Raised SystemExit) as Hcli.
    { unfold CLI_run.
      destruct (parse_options argv [] empty_namespace) as [p|e] eqn:Hparse.
      - exfalso. apply Hne.
        by apply (parse_options_one_group argv [] _ _ Hparse a b ga gb).
      - by rewrite (parse_options_raises _ _ _ _ Hparse). }
    split; [done|]. unfold main. by rewrite Hcli.
  - intros args. unfold CLI_run.
    destruct (parse_options argv [] empty_namespace) as [p|e] eqn:Hparse; [|done].
    destruct (file_seen p); [|done]. intros [= <-].
    assert (Hflags : ∀ g, (g < 3)%nat → erase_flag g (ns p) = true →
                          ∃ a, a ∈ argv ∧ erase_before_flash_group a = Some g).
    { intros g Hg Hflag.
      apply (parse_options_flag_seen argv [] _ _ Hparse); [|done|done].
      intros g' Hg'. by destruct g' as [|[|[|g']]]. }
    assert (Hone : ∀ g1 g2, (g1 < 3)%nat → (g2 < 3)%nat →
                            erase_flag g1 (ns p) = true → erase_flag g2 (ns p) = true →
                            g1 = g2).
    { intros g1 g2 Hg1 Hg2 H1 H2.
      destruct (Hflags g1 Hg1 H1) as (a & Ha & Hga).
      destruct (Hflags g2 Hg2 H2) as (b & Hb & Hgb).
      by apply (parse_options_one_group argv [] _ _ Hparse a b g1 g2). }
    unfold erase_flags_set.
    pose proof (Hone 0 1)%nat as H01. pose proof (Hone 0 2)%nat as H02.
    pose proof (Hone 1 2)%nat as H12. simpl in H01, H02, H12.
    destruct (args_eraseall (ns p)), (args_sectorserase (ns p)),
      (args_sectorsanduicrerase (ns p)); simpl; try lia.
    all: try (specialize (H01 ltac:(lia) ltac:(lia) eq_refl eq_refl); lia).
    all: try (specialize (H02 ltac:(lia) ltac:(lia) eq_refl eq_refl); lia).
    all: try (specialize (H12 ltac:(lia) ltac:(lia) eq_refl eq_refl); lia).
  - intros args targets hex w1 Hsnrs Hload.
    pose proof (init_after_resolution api IntelHex_load args w targets w1 Hsnrs) as Hinit.
    rewrite Hload in Hinit.
    match type of Hinit with _ = (Ok ?r, _) => set (nRF := r) in * end.
    exists nRF. split; [done|]. do 5 (split; [done|]).
    destruct (run_pool_scripted api nRF schedule (initial_pool nRF) w1 [])
      as (evs & Ht & Hinv).
    { simpl. apply length_map. }
    { apply initial_pool_scripted. }
    exists evs. split; [done|]. intros i device Hi Hp.
    destruct (Hinv i device _ Hi Hp) as (rest & Hrest & Hscript).
    simpl in Hrest, Hscript. subst rest. rewrite app_nil_r in Hscript. rewrite Hscript.
    split; [|split].
    + intros Hflag. apply elem_of_worker_script. right. right. left. done.
    + intros Hflag. apply elem_of_worker_script. do 3 right. left. done.
    + intros Hflag start_addr end_addr addr Hseg Haddr.
      apply elem_of_worker_script. do 4 right. left.
      exists start_addr, end_addr. split; [done|].
      apply elem_of_segment_script. left. split; [done|]. by exists addr.
Qed.

(** [--eraseall --sectorserase] with targets given: refused, and the
    world is as before. *)
Lemma conflicting_erase_flags_rejected_witness :
  conflicting_erase_flags [opt_file "app.hex"; opt_eraseall; opt_sectorserase; opt_snrs [111; 222]] ∧
  main probes_ok example_load
    [opt_file "app.hex"; opt_eraseall; opt_sectorserase; opt_snrs [111; 222]]
    (turn 0 40 ++ turn 1 40) initial_world
  = (Some (Raised SystemExit), initial_world).
Proof.
  assert (Hc : conflicting_erase_flags
                 [opt_file "app.hex"; opt_eraseall; opt_sectorserase; opt_snrs [111; 222]]).
  { exists opt_eraseall, opt_sectorserase, 0%nat, 1%nat.
    repeat split; [| | lia]; rewrite !elem_of_cons; auto. }
  split; [exact Hc|].
  exact (proj2 (proj1 (conflicting_erase_flags_rejected probes_ok example_load _
                         (turn 0 40 ++ turn 1 40) initial_world) Hc)).
Defined.

(** C5, as stated, fails.  A request with [eraseall] and [sectorserase]
    both set, handed to [nRF5MultiFlash.__init__] as it is: nothing
    rejects it.  The object is built with both flags, the pool starts,
    and the worker of target 7 recovers the device and then erases the
    pages of both segments before it writes them; [pool.map] returns. *)
Lemma init_builds_request_with_two_erase_flags :
  let args :=
    {| args_eraseall := true; args_family := None; args_file := "app.hex";
       args_sectorserase := true; args_sectorsanduicrerase := false;
       args_snrs := Some [7]; args_systemreset := false; args_verify := false |} in
  erase_flags_set args = 2%nat ∧
  ∃ nRF,
    run probes_ok MainThread (__init__ example_load args) initial_world
    = (Ok nRF, initial_world) ∧
    erase_all nRF = true ∧ sectors_erase nRF = true ∧
    (pool_map probes_ok nRF (turn 0 30) initial_world).1 = Some (Ok [tt]) ∧
    trace (pool_map probes_ok nRF (turn 0 30) initial_world).2
    = [EvNew (Worker 0) 0 lit_NRF51;
       EvCall (Worker 0) 0 open;
       EvCall (Worker 0) 0 (connect_to_emu_with_snr 7);
       EvCall (Worker 0) 0 recover;
       EvCall (Worker 0) 0 (erase_page 0x1000);
       EvCall (Worker 0) 0 (write 0x1000 [0; 1; 2; 3] true);
       EvCall (Worker 0) 0 (erase_page 0x2000);
       EvCall (Worker 0) 0 (write 0x2000 [0; 1] true);
       EvCall (Worker 0) 0 disconnect_from_emu;
       EvCall (Worker 0) 0 close].
Proof.
  split; [reflexivity|]. eexists. split; [reflexivity|].
  split; [reflexivity|]. split; [reflexivity|]. split; vm_compute; reflexivity.
Qed.

(** ** From the command line to the calls of the workers *)

(** X22.  What the workers call is what the command line asked for.
    For an object built by [__init__] from an accepted command line, and
    under every interleaving: a worker calls [recover] only with
    [--eraseall], [erase_uicr] only with [--sectorsanduicrerase],
    [erase_page] only with [--sectorserase] or [--sectorsanduicrerase],
    [read] only with [--verify], [sys_reset] only with [--systemreset];
    the erase options excluding each other, a worker that has called
    [recover] has called neither [erase_uicr] nor [erase_page].  And a
    worker that has returned has made the calls that were asked for:
    [recover] with [--eraseall], [erase_uicr] with
    [--sectorsanduicrerase], and, when the image has a segment, a [read]
    with [--verify] and [sys_reset] with [--systemreset]. *)
Theorem command_line_decides_worker_calls
    (api : transport) (IntelHex_load : string → result IntelHex)
    (argv : list cli_arg) (args : Namespace) (nRF : nRF5MultiFlash)
    (schedule : list nat) (w w' : world) :
  CLI_run argv = Ok args →
  run api MainThread (__init__ IntelHex_load args) w = (Ok nRF, w') →
  ∃ evs,
    trace (run_pool api schedule (initial_pool nRF) w').2 = trace w' ++ evs ∧
    ∀ i device, snrs nRF !! i = Some device →
      (recover ∈ methods_of (Worker i) evs → opt_eraseall ∈ argv) ∧
      (erase_uicr ∈ methods_of (Worker i) evs → opt_sectorsanduicrerase ∈ argv) ∧
      (∀ addr, erase_page addr ∈ methods_of (Worker i) evs →
         opt_sectorserase ∈ argv ∨ opt_sectorsanduicrerase ∈ argv) ∧
      (∀ addr len, read addr len ∈ methods_of (Worker i) evs → opt_verify ∈ argv) ∧
      (sys_reset ∈ methods_of (Worker i) evs → opt_systemreset ∈ argv) ∧
      (recover ∈ methods_of (Worker i) evs →
         (erase_uicr ∉ methods_of (Worker i) evs) ∧
         (∀ addr, erase_page addr ∉ methods_of (Worker i) evs)) ∧
      (workers (run_pool api schedule (initial_pool nRF) w').1 !! i = Some (Ret tt) →
         (opt_eraseall ∈ argv → recover ∈ methods_of (Worker i) evs) ∧
         (opt_sectorsanduicrerase ∈ argv → erase_uicr ∈ methods_of (Worker i) evs) ∧
         (segments (hex_file nRF) ≠ [] →
            (opt_verify ∈ argv → ∃ addr len, read addr len ∈ methods_of (Worker i) evs) ∧
            (opt_systemreset ∈ argv → sys_reset ∈ methods_of (Worker i) evs))).
Proof.
  intros Hcli Hinit.
  destruct (run_pool_scripted api nRF schedule (initial_pool nRF) w' [])
    as (evs & Ht & Hinv).
  { simpl. apply length_map. }
  { apply initial_pool_scripted. }
  exists evs. split; [done|]. intros i device Hi.
  pose proof (run_pool_length api schedule (initial_pool nRF) w') as Hlen.
  simpl in Hlen. rewrite length_map in Hlen.
  apply lookup_lt_Some in Hi as Hlt.
  destruct (lookup_lt_is_Some_2 (workers (run_pool api schedule (initial_pool nRF) w').1) i
              ltac:(lia)) as [p Hp].
  destruct (Hinv i device p Hi Hp) as (rest & Hrest & Hscript). simpl in Hscript.
  assert (Hsub : ∀ m, m ∈ methods_of (Worker i) evs → m ∈ worker_script nRF device).
  { intros m Hm. rewrite <- Hscript. apply elem_of_app. by left. }
  destruct (worker_script_from_command_line api IntelHex_load argv args nRF w w' device
              Hcli Hinit)
    as (Hrecover & Huicr & Hpage & Hread & Hreset & Hsegs & Hexcl).
  split; [intros Hm; by apply Hrecover, Hsub|].
  split; [intros Hm; by apply Huicr, Hsub|].
  split; [intros addr Hm; by apply (Hpage addr), Hsub|].
  split; [intros addr len Hm; by apply (Hread addr len), Hsub|].
  split; [intros Hm; by apply Hreset, Hsub|].
  split.
  - intros Hm. destruct (Hexcl (Hsub _ Hm)) as [Hno_uicr Hno_page]. split.
    + intros Hm'. by apply Hno_uicr, Hsub.
    + intros addr Hm'. by apply (Hno_page addr), Hsub.
  - intros Hret. rewrite Hp in Hret. injection Hret as ->. simpl in Hrest. subst rest.
    rewrite app_nil_r in Hscript. rewrite Hscript.
    split; [by apply Hrecover|]. split; [by apply Huicr|]. done.
Qed.

(** [--eraseall --verify] for two targets, the workers taking turns. *)
Lemma command_line_decides_worker_calls_witness :
  ∃ evs,
    trace (run_pool probes_ok (concat (replicate 30 [0; 1]%nat))
             (initial_pool
                {| erase_all := true; family := lit_NRF51; file := "app.hex";
                   sectors_erase := false; sectors_and_uicr_erase := false;
                   snrs := [111; 222]; systemreset := false; verify := true;
                   PAGE_SIZE := 0x400; hex_file := example_hex |})
             initial_world).2
    = trace initial_world ++ evs ∧
    ∀ i device, [111; 222] !! i = Some device →
      (recover ∈ methods_of (Worker i) evs →
       opt_eraseall ∈ [opt_file "app.hex"; opt_snrs [111; 222]; opt_eraseall; opt_verify]) ∧
      (erase_uicr ∈ methods_of (Worker i) evs →
       opt_sectorsanduicrerase
       ∈ [opt_file "app.hex"; opt_snrs [111; 222]; opt_eraseall; opt_verify]) ∧
      (∀ addr, erase_page addr ∈ methods_of (Worker i) evs →
         opt_sectorserase ∈ [opt_file "app.hex"; opt_snrs [111; 222]; opt_eraseall; opt_verify] ∨
         opt_sectorsanduicrerase
         ∈ [opt_file "app.hex"; opt_snrs [111; 222]; opt_eraseall; opt_verify]) ∧
      (∀ addr len, read addr len ∈ methods_of (Worker i) evs →
         opt_verify ∈ [opt_file "app.hex"; opt_snrs [111; 222]; opt_eraseall; opt_verify]) ∧
      (sys_reset ∈ methods_of (Worker i) evs →
       opt_systemreset ∈ [opt_file "app.hex"; opt_snrs [111; 222]; opt_eraseall; opt_verify]) ∧
      (recover ∈ methods_of (Worker i) evs →
         (erase_uicr ∉ methods_of (Worker i) evs) ∧
         (∀ addr, erase_page addr ∉ methods_of (Worker i) evs)) ∧
      (workers (run_pool probes_ok (concat (replicate 30 [0; 1]%nat))
                  (initial_pool
                     {| erase_all := true; family := lit_NRF51; file := "app.hex";
                        sectors_erase := false; sectors_and_uicr_erase := false;
                        snrs := [111; 222]; systemreset := false; verify := true;
                        PAGE_SIZE := 0x400; hex_file := example_hex |})
                  initial_world).1 !! i = Some (Ret tt) →
         (opt_eraseall ∈ [opt_file "app.hex"; opt_snrs [111; 222]; opt_eraseall; opt_verify] →
          recover ∈ methods_of (Worker i) evs) ∧
         (opt_sectorsanduicrerase
          ∈ [opt_file "app.hex"; opt_snrs [111; 222]; opt_eraseall; opt_verify] →
          erase_uicr ∈ methods_of (Worker i) evs) ∧
         (segments example_hex ≠ [] →
            (opt_verify ∈ [opt_file "app.hex"; opt_snrs [111; 222]; opt_eraseall; opt_verify] →
             ∃ addr len, read addr len ∈ methods_of (Worker i) evs) ∧
            (opt_systemreset
             ∈ [opt_file "app.hex"; opt_snrs [111; 222]; opt_eraseall; opt_verify] →
             sys_reset ∈ methods_of (Worker i) evs))).
Proof.
  apply (command_line_decides_worker_calls probes_ok example_load
           [opt_file "app.hex"; opt_snrs [111; 222]; opt_eraseall; opt_verify]
           {| args_eraseall := true; args_family := None; args_file := "app.hex";
              args_sectorserase := false; args_sectorsanduicrerase := false;
              args_snrs := Some [111; 222]; args_systemreset := false;
              args_verify := true |}
           {| erase_all := true; family := lit_NRF51; file := "app.hex";
              sectors_erase := false; sectors_and_uicr_erase := false;
              snrs := [111; 222]; systemreset := false; verify := true;
              PAGE_SIZE := 0x400; hex_file := example_hex |}
           (concat (replicate 30 [0; 1]%nat)) initial_world initial_world); reflexivity.
Defined.
